(** * regex-go: the compile / match pipeline of [pkg/regex/regex.go]

    A shallow embedding of the four stages ([preprocess], [postfix], [nfa],
    [match]) and of the Go data they work on, followed by what holds of them.

    - A Go [string] is read by the program only through [for _, char := range],
      and written only through [string([]rune)]; it is modelled as the list of
      runes that [range] yields.  (The runes that [range] yields survive
      [string([]rune)] and a second [range] unchanged, so the stages hand
      each other lists of runes.)
    - A [rune] is a [Z].  [groupStackCounter] is a Go [int]; a pattern cannot
      be long enough to make it wrap, it is a [Z] too.
    - [*nfaState] is an address in an arena of states ([heap]); [nil] is
      [None]; [&nfaState{...}] allocates at the end of the arena.
      [**nfaState] only ever arises as [&state.out1] and is the address of
      that state.
    - [panic] and the run-time errors of Go are values of [panic]; a function
      that can fail returns an [outcome].
    - The slices of [match] are aliased ([currentStates = nextStates;
      nextStates = nextStates[:0]]): they are modelled with their backing
      arrays in an explicit store.  The other slices of the program ([result],
      the two stacks, the [outs] of a fragment) have one owner at a time (a
      fragment is never used again once it is popped), and are lists.
    - [appendState] is recursive; its embedding takes fuel, and [OutOfFuel]
      stands for a recursion that does not end.  [Match] gives it more fuel
      than an arena has states. *)

From Stdlib Require Export ZArith String.
From Stdlib Require Import Ascii Lia.
From stdpp Require Import base option list numbers.

Local Open Scope Z_scope.

(** ** Failure *)

Inductive panic : Set :=
| GroupMismatch      (* panic("group mismatch") *)
| AlternationMisuse  (* panic("or misused") *)
| IndexOutOfRange    (* runtime error: index out of range *)
| NilDereference.    (* runtime error: nil pointer dereference *)

Inductive outcome (A : Type) : Type :=
| Ok (a : A)
| Panic (e : panic)
| OutOfFuel.
Arguments Ok {A} a.
Arguments Panic {A} e.
Arguments OutOfFuel {A}.

#[global] Instance outcome_ret : MRet outcome := fun _ a => Ok a.
#[global] Instance outcome_bind : MBind outcome := fun _ _ f m =>
  match m with
  | Ok a => f a
  | Panic e => Panic e
  | OutOfFuel => OutOfFuel
  end.

(** ** Runes and operators (regex.go:15-46) *)

Abbreviation rune := Z (only parsing).

Definition runes (s : string) : list rune :=
  map (fun c => Z.of_N (N_of_ascii c)) (list_ascii_of_string s).
Arguments runes s%_string.

Definition opGroupStart : rune := 40.  (* '(' *)
Definition opGroupEnd   : rune := 41.  (* ')' *)
Definition opAnd        : rune := 38.  (* '&' *)
Definition opOr         : rune := 124. (* '|' *)

Definition operators : list rune := [opGroupStart; opGroupEnd; opAnd; opOr].

(* The higher the index, the higher the precedence *)
Definition operatorPrecedence : list rune := [opOr; opAnd].

Fixpoint isOperator_loop (ops : list rune) (char : rune) : bool :=
  match ops with
  | [] => false
  | op :: ops' => if op =? char then true else isOperator_loop ops' char
  end.

Definition isOperator (char : rune) : bool := isOperator_loop operators char.

Fixpoint precedence_loop (ops : list rune) (index : Z) (char : rune) (result : Z) : Z :=
  match ops with
  | [] => result
  | op :: ops' =>
      precedence_loop ops' (index + 1) char (if char =? op then index else result)
  end.

Definition precedence (char : rune) : Z :=
  precedence_loop operatorPrecedence 0 char (-1).

(** ** Stage 1: preprocess (regex.go:49-129) *)

Record preState : Set := PreState {
  result : list rune;
  groupStackCounter : Z;
  wantsAnd : bool;
  canOr : bool;
  lastOr : bool
}.

Definition preprocess_init : preState :=
  {| result := []; groupStackCounter := 0;
     wantsAnd := false; canOr := false; lastOr := false |}.

(* One iteration of the [for _, char := range str] loop. *)
Definition preprocess_step (st : preState) (char : rune) : outcome preState :=
  if char =? opGroupStart then
    Ok {| groupStackCounter := groupStackCounter st + 1;
          result := (if wantsAnd st then result st ++ [opAnd] else result st) ++ [char];
          wantsAnd := false;
          canOr := false;
          lastOr := false |}
  else if char =? opGroupEnd then
    if lastOr st then Panic AlternationMisuse
    else
      Ok {| groupStackCounter := groupStackCounter st - 1;
            result := result st ++ [char];
            wantsAnd := true;
            canOr := true;
            lastOr := false |}
  else if char =? opOr then
    if negb (canOr st) then Panic AlternationMisuse
    else
      Ok {| groupStackCounter := groupStackCounter st;
            result := result st ++ [char];
            wantsAnd := false;
            canOr := false;
            lastOr := true |}
  else
    Ok {| groupStackCounter := groupStackCounter st;
          result := (if wantsAnd st then result st ++ [opAnd] else result st) ++ [char];
          wantsAnd := true;
          canOr := true;
          lastOr := false |}.

Fixpoint preprocess_loop (str : list rune) (st : preState) : outcome preState :=
  match str with
  | [] => Ok st
  | char :: str' => st' ← preprocess_step st char; preprocess_loop str' st'
  end.

Definition preprocess (str : list rune) : outcome (list rune) :=
  st ← preprocess_loop str preprocess_init;
  if negb (groupStackCounter st =? 0) then Panic GroupMismatch
  else Ok (result st).

(** ** Stage 2: postfix (regex.go:131-203)

    The operator stack is a list whose head is the top of the stack
    ([buf[len(buf)-1]]): [Empty] is the test for [[]], [Peek] is the head,
    [Pop] leaves the tail, [Push] conses; [Peek] and [Pop] on the empty stack
    index [buf[-1]] and panic. *)

Abbreviation operatorStack := (list rune) (only parsing).

(* case opGroupEnd: pops until it meets a group start.  [Peek] on the empty
   stack indexes [buf[-1]]. *)
Fixpoint postfix_groupEnd (stack : operatorStack) (result : list rune)
  : outcome (operatorStack * list rune) :=
  match stack with
  | [] => Panic IndexOutOfRange
  | top :: rest =>
      if top =? opGroupStart then Ok (rest, result)
      else postfix_groupEnd rest (result ++ [top])
  end.

(* default: pops the operators of higher or equal precedence, then pushes. *)
Fixpoint postfix_operator (char : rune) (stack : operatorStack) (result : list rune)
  : operatorStack * list rune :=
  match stack with
  | [] => ([char], result)
  | top :: rest =>
      if precedence top >=? precedence char
      then postfix_operator char rest (result ++ [top])
      else (char :: stack, result)
  end.

Definition postfix_step (st : operatorStack * list rune) (char : rune)
  : outcome (operatorStack * list rune) :=
  let '(stack, result) := st in
  if isOperator char then
    if char =? opGroupStart then Ok (char :: stack, result)
    else if char =? opGroupEnd then postfix_groupEnd stack result
    else Ok (postfix_operator char stack result)
  else Ok (stack, result ++ [char]).

Fixpoint postfix_loop (str : list rune) (st : operatorStack * list rune)
  : outcome (operatorStack * list rune) :=
  match str with
  | [] => Ok st
  | char :: str' => st' ← postfix_step st char; postfix_loop str' st'
  end.

Definition postfix (str : list rune) : outcome (list rune) :=
  '(stack, result) ← postfix_loop str ([], []);
  (* the final loop pops everything that is left, top first *)
  Ok (result ++ stack).

(** ** Stage 3: nfa (regex.go:205-284) *)

Inductive nfaStateKind : Set :=
| nfaStateKindChar
| nfaStateKindSplit
| nfaStateKindMatch.

#[global] Instance nfaStateKind_eq_dec : EqDecision nfaStateKind.
Proof. solve_decision. Defined.

Abbreviation ptr := (option nat).

Record nfaState : Set := NfaState {
  char : rune;
  kind : nfaStateKind;
  out1 : ptr;
  out2 : ptr
}.

Abbreviation heap := (list nfaState).

Record nfaFrag : Set := NfaFrag {
  start : ptr;
  outs : list nat
}.

(* [&nfaState{...}] *)
Definition alloc (h : heap) (st : nfaState) : heap * nat := (h ++ [st], length h).

(* [state.f] *)
Definition deref (h : heap) (p : ptr) : outcome nfaState :=
  match p with
  | None => Panic NilDereference
  | Some a =>
      match h !! a with
      | Some st => Ok st
      | None => Panic NilDereference
      end
  end.

(* [*out = state] for [out = &s.out1] *)
Definition set_out1 (h : heap) (out : nat) (state : ptr) : outcome heap :=
  match h !! out with
  | Some st =>
      Ok (<[out := {| char := char st; kind := kind st; out1 := state; out2 := out2 st |}]> h)
  | None => Panic NilDereference
  end.

Fixpoint connect_loop (h : heap) (outs : list nat) (state : ptr) : outcome heap :=
  match outs with
  | [] => Ok h
  | out :: outs' => h' ← set_out1 h out state; connect_loop h' outs' state
  end.

Definition connectNfaFrag (h : heap) (frag : nfaFrag) (state : ptr) : outcome heap :=
  connect_loop h (outs frag) state.

(* The fragment stack, head = top. *)
Abbreviation nfaFragStack := (list nfaFrag).

Definition Pop (stack : nfaFragStack) : outcome (nfaFrag * nfaFragStack) :=
  match stack with
  | [] => Panic IndexOutOfRange
  | last :: rest => Ok (last, rest)
  end.

Definition nfa_step (st : heap * nfaFragStack) (c : rune) : outcome (heap * nfaFragStack) :=
  let '(h, fragStack) := st in
  if c =? opAnd then
    '(frag2, fragStack) ← Pop fragStack;
    '(frag1, fragStack) ← Pop fragStack;
    h ← connectNfaFrag h frag1 (start frag2);
    Ok (h, {| start := start frag1; outs := outs frag2 |} :: fragStack)
  else if c =? opOr then
    '(frag2, fragStack) ← Pop fragStack;
    '(frag1, fragStack) ← Pop fragStack;
    let '(h, state) :=
      alloc h {| char := 0; kind := nfaStateKindSplit;
                 out1 := start frag1; out2 := start frag2 |} in
    Ok (h, {| start := Some state; outs := outs frag1 ++ outs frag2 |} :: fragStack)
  else
    let '(h, state) :=
      alloc h {| char := c; kind := nfaStateKindChar; out1 := None; out2 := None |} in
    Ok (h, {| start := Some state; outs := [state] |} :: fragStack).

Fixpoint nfa_loop (str : list rune) (st : heap * nfaFragStack) : outcome (heap * nfaFragStack) :=
  match str with
  | [] => Ok st
  | c :: str' => st' ← nfa_step st c; nfa_loop str' st'
  end.

(* A compiled regex: the start pointer together with the arena it points into. *)
Abbreviation Regex := (heap * ptr)%type.

Definition nfa (str : list rune) : outcome Regex :=
  '(h, fragStack) ← nfa_loop str ([], []);
  '(res, _) ← Pop fragStack;
  let '(h, m) :=
    alloc h {| char := 0; kind := nfaStateKindMatch; out1 := None; out2 := None |} in
  h ← connectNfaFrag h res (Some m);
  Ok (h, start res).

(* regex.go:5-7 *)
Definition Compile (str : list rune) : outcome Regex :=
  pre ← preprocess str;
  post ← postfix pre;
  nfa post.

(** ** Stage 4: match (regex.go:286-321)

    [currentStates] and [nextStates] are slices: windows [[0, len)] on a
    backing array.  After [currentStates = nextStates; nextStates =
    nextStates[:0]] both name the same backing array, and [append] writes
    through it, so the arrays live in a store and slices refer to them. *)

Local Close Scope Z_scope.

Abbreviation arrays := (list (list ptr)).

Record slice : Set := Slice {
  arr : nat;  (* the backing array, an index into the store *)
  len : nat   (* len(s); cap(s) is the length of the backing array *)
}.

Definition backing (mem : arrays) (s : slice) : list ptr := default [] (mem !! arr s).

(* [s[i]] *)
Definition index (mem : arrays) (s : slice) (i : nat) : ptr :=
  default None (backing mem s !! i).

(* The elements [s[0], ..., s[len(s)-1]]. *)
Definition elements (mem : arrays) (s : slice) : list ptr := take (len s) (backing mem s).

(* [make([]*nfaState, 0, n)] *)
Definition make (mem : arrays) (n : nat) : arrays * slice :=
  (mem ++ [replicate n None], {| arr := length mem; len := 0 |}).

(* [s[:0]] *)
Definition reslice0 (s : slice) : slice := {| arr := arr s; len := 0 |}.

Section Matcher.

(* The capacity the Go runtime picks when [append] has to reallocate, from
   the old capacity and the number of elements needed; at least the latter. *)
Variable growslice : nat -> nat -> nat.

(* [append(s, x)]: in place when the capacity allows, else into a new array. *)
Definition append (mem : arrays) (s : slice) (x : ptr) : arrays * slice :=
  let a := backing mem s in
  if len s <? length a then
    (<[arr s := <[len s := x]> a]> mem, {| arr := arr s; len := S (len s) |})
  else
    let newcap := max (S (len s)) (growslice (length a) (S (len s))) in
    (mem ++ [take (len s) a ++ x :: replicate (newcap - S (len s)) None],
     {| arr := length mem; len := S (len s) |}).

(* Adds the state to the list of states.
   If the state is a split, recursively adds its children.
   [fuel] bounds the depth of the recursion. *)
Fixpoint appendState (fuel : nat) (h : heap) (mem : arrays) (stateList : slice) (state : ptr)
  : outcome (arrays * slice) :=
  match fuel with
  | O => OutOfFuel
  | S fuel' =>
      st ← deref h state;
      if decide (kind st = nfaStateKindSplit) then
        '(mem, stateList) ← appendState fuel' h mem stateList (out1 st);
        appendState fuel' h mem stateList (out2 st)
      else Ok (append mem stateList state)
  end.

(* [for _, state := range currentStates { if state.char == char {...} }]:
   the iterations [i, i+1, ..., i+n-1]; the range length was fixed on entry,
   each element is read from the backing array when its turn comes. *)
Fixpoint match_range (fuel : nat) (h : heap) (c : rune) (currentStates : slice)
    (i n : nat) (mem : arrays) (nextStates : slice) : outcome (arrays * slice) :=
  match n with
  | O => Ok (mem, nextStates)
  | S n' =>
      st ← deref h (index mem currentStates i);
      if (char st =? c)%Z then
        '(mem, nextStates) ← appendState fuel h mem nextStates (out1 st);
        match_range fuel h c currentStates (S i) n' mem nextStates
      else match_range fuel h c currentStates (S i) n' mem nextStates
  end.

(* [for _, char := range str { ...; currentStates = nextStates;
   nextStates = nextStates[:0] }] *)
Fixpoint match_loop (fuel : nat) (h : heap) (str : list rune) (mem : arrays)
    (currentStates nextStates : slice) : outcome (arrays * slice * slice) :=
  match str with
  | [] => Ok (mem, currentStates, nextStates)
  | c :: str' =>
      '(mem, nextStates) ←
        match_range fuel h c currentStates 0 (len currentStates) mem nextStates;
      match_loop fuel h str' mem nextStates (reslice0 nextStates)
  end.

(* [for _, state := range currentStates { if state.kind == nfaStateKindMatch
   { return true } }; return false] *)
Fixpoint match_found (h : heap) (mem : arrays) (currentStates : slice) (i n : nat)
  : outcome bool :=
  match n with
  | O => Ok false
  | S n' =>
      st ← deref h (index mem currentStates i);
      if decide (kind st = nfaStateKindMatch) then Ok true
      else match_found h mem currentStates (S i) n'
  end.

(* [match] up to the end of the loop over [str]: the store and the two
   slices at that point. *)
Definition match_states (fuel : nat) (nfa : Regex) (str : list rune)
  : outcome (arrays * slice * slice) :=
  let '(h, start) := nfa in
  let '(mem, currentStates) := make [] 1024 in
  let '(mem, nextStates) := make mem 1024 in
  '(mem, currentStates) ← appendState fuel h mem currentStates start;
  match_loop fuel h str mem currentStates nextStates.

(* Uses the given nfa to match a string. *)
Definition match_ (fuel : nat) (nfa : Regex) (str : list rune) : outcome bool :=
  '(mem, currentStates, _) ← match_states fuel nfa str;
  match_found (fst nfa) mem currentStates 0 (len currentStates).

(* regex.go:9-11.  [appendState] descends through split states only; in an
   arena without a cycle of splits its depth is at most the number of
   states. *)
Definition Match (regex : Regex) (str : list rune) : outcome bool :=
  match_ (S (length (fst regex))) regex str.

(* The active list once [str] has been consumed: the elements of
   [currentStates] when the loop over [str] ends. *)
Definition active (fuel : nat) (nfa : Regex) (str : list rune) : outcome (list ptr) :=
  '(mem, currentStates, _) ← match_states fuel nfa str;
  Ok (elements mem currentStates).

End Matcher.

(* [Match(Compile(pat), inp)] *)
Definition run (growslice : nat -> nat -> nat) (pat inp : list rune) : outcome bool :=
  r ← Compile pat; Match growslice r inp.

(** ** The language of a pattern

    The reference the matcher is compared with: regular expressions over
    literals, concatenation, alternation and grouping, the strings they
    denote, and the pattern text that writes one down (with a group around an
    alternation that is an operand of a concatenation). *)

Inductive regexp : Set :=
| Lit (c : rune)
| Cat (e1 e2 : regexp)
| Alt (e1 e2 : regexp)
| Grp (e : regexp).
Arguments Lit c%_Z.

Inductive denotes : regexp -> list rune -> Prop :=
| denotes_lit c : denotes (Lit c) [c]
| denotes_cat e1 e2 s1 s2 :
    denotes e1 s1 -> denotes e2 s2 -> denotes (Cat e1 e2) (s1 ++ s2)
| denotes_alt_l e1 e2 s : denotes e1 s -> denotes (Alt e1 e2) s
| denotes_alt_r e1 e2 s : denotes e2 s -> denotes (Alt e1 e2) s
| denotes_grp e s : denotes e s -> denotes (Grp e) s.

(* [denotes], decided: a concatenation tries every split of the string. *)
Fixpoint accepts (e : regexp) (s : list rune) : bool :=
  match e with
  | Lit c => match s with [c'] => (c' =? c)%Z | _ => false end
  | Cat e1 e2 =>
      existsb (fun i => accepts e1 (take i s) && accepts e2 (drop i s))
              (seq 0 (S (length s)))
  | Alt e1 e2 => accepts e1 s || accepts e2 s
  | Grp e => accepts e s
  end.

Definition grouped (e : regexp) (s : list rune) : list rune :=
  match e with
  | Alt _ _ => [opGroupStart] ++ s ++ [opGroupEnd]
  | _ => s
  end.

Fixpoint pattern_of (e : regexp) : list rune :=
  match e with
  | Lit c => [c]
  | Cat e1 e2 => grouped e1 (pattern_of e1) ++ grouped e2 (pattern_of e2)
  | Alt e1 e2 => pattern_of e1 ++ [opOr] ++ pattern_of e2
  | Grp e => [opGroupStart] ++ pattern_of e ++ [opGroupEnd]
  end.

(* The token stream of the pattern: a marker between the operands of a
   concatenation. *)
Fixpoint tokens_of (e : regexp) : list rune :=
  match e with
  | Lit c => [c]
  | Cat e1 e2 => grouped e1 (tokens_of e1) ++ [opAnd] ++ grouped e2 (tokens_of e2)
  | Alt e1 e2 => tokens_of e1 ++ [opOr] ++ tokens_of e2
  | Grp e => [opGroupStart] ++ tokens_of e ++ [opGroupEnd]
  end.

(* No literal is one of the four reserved symbols. *)
Fixpoint literals_ok (e : regexp) : Prop :=
  match e with
  | Lit c => isOperator c = false
  | Cat e1 e2 | Alt e1 e2 => literals_ok e1 /\ literals_ok e2
  | Grp e => literals_ok e
  end.

(** ** Patterns and automata used as examples *)

(* x(a(b|c)|ad) *)
Definition shared_prefix : regexp :=
  Cat (Lit 120) (Alt (Cat (Lit 97) (Alt (Lit 98) (Lit 99))) (Cat (Lit 97) (Lit 100))).

(* x(a(b|ay)|z) *)
Definition skipped_rune : regexp :=
  Cat (Lit 120) (Alt (Cat (Lit 97) (Alt (Lit 98) (Cat (Lit 97) (Lit 121)))) (Lit 122)).

(* x(a(b|a)c|ad) *)
Definition overwritten_state : regexp :=
  Cat (Lit 120)
      (Alt (Cat (Cat (Lit 97) (Alt (Lit 98) (Lit 97))) (Lit 99)) (Cat (Lit 97) (Lit 100))).

(* (a|b)c *)
Definition alternation_first : regexp := Cat (Alt (Lit 97) (Lit 98)) (Lit 99).

(* a(b|cd|ef)g *)
Definition test_pattern : regexp :=
  Cat (Cat (Lit 97) (Alt (Alt (Lit 98) (Cat (Lit 99) (Lit 100))) (Cat (Lit 101) (Lit 102))))
      (Lit 103).

(* The automaton of regex_test.go. *)
Definition test_regex : Regex :=
  Eval vm_compute in
    match Compile (runes "a(b|cd|ef)g") with Ok r => r | _ => ([], None) end.

(* (a|a|a|a)(b|b|b|b): 8 char-consuming states, 6 splits, 1 match state. *)
Definition dup_regex : Regex :=
  Eval vm_compute in
    match Compile (runes "(a|a|a|a)(b|b|b|b)") with Ok r => r | _ => ([], None) end.

(** ** Predicates on the matcher's state *)

(* A char-consuming or match state of the arena. *)
Definition nonsplit (h : heap) (p : ptr) : Prop :=
  exists a st, p = Some a /\ h !! a = Some st /\ kind st <> nfaStateKindSplit.

(* Every element of the slice is one. *)
Definition flat (h : heap) (mem : arrays) (s : slice) : Prop :=
  forall i, i < len s -> exists p, backing mem s !! i = Some p /\ nonsplit h p.

(** ** Counting tokens *)

Fixpoint tally (p : rune -> bool) (l : list rune) : nat :=
  match l with
  | [] => 0
  | c :: l' => (if p c then 1 else 0) + tally p l'
  end.

Definition isAnd (c : rune) : bool := (c =? opAnd)%Z.
Definition isOpen (c : rune) : bool := (c =? opGroupStart)%Z.
Definition isClose (c : rune) : bool := (c =? opGroupEnd)%Z.
(* The tokens for which [nfa] pops two fragments and pushes one ... *)
Definition isBinary (c : rune) : bool := (c =? opAnd)%Z || (c =? opOr)%Z.
(* ... and those for which it pushes a fragment. *)
Definition isOperand (c : rune) : bool := negb (isBinary c).

(* The pattern with a literal [a] in the place of each [&]. *)
Definition amp_as_literal (c : rune) : rune := if (c =? opAnd)%Z then 97%Z else c.

(* What [preprocess] keeps true of its state once it has read a prefix with
   [k] occurrences of [&]. *)
Definition pre_inv (k : nat) (st : preState) : Prop :=
  tally isOperand (result st) + 2 * k + (if wantsAnd st then 0 else 1)
    <= tally isBinary (result st) + 1 + tally isOpen (result st) + tally isClose (result st)
  /\ groupStackCounter st
     = (Z.of_nat (tally isOpen (result st)) - Z.of_nat (tally isClose (result st)))%Z.

(* The part of the state of [preprocess] that decides what it does next. *)
Definition pre_flags (st : preState) : Z * bool * bool * bool :=
  (groupStackCounter st, wantsAnd st, canOr st, lastOr st).

(** ** The closure of a state and the invariant of the builder *)

(* The states [appendState] adds for [p]: the leaves, left to right, of the
   tree of split states below [p]. *)
Inductive closure (h : heap) : ptr -> list ptr -> Prop :=
| closure_leaf a st :
    h !! a = Some st -> kind st <> nfaStateKindSplit ->
    closure h (Some a) [Some a]
| closure_split a st l1 l2 :
    h !! a = Some st -> kind st = nfaStateKindSplit ->
    closure h (out1 st) l1 -> closure h (out2 st) l2 ->
    closure h (Some a) (l1 ++ l2).

(* The closures of the starts of the fragments on the stack have [n]
   entries in all. *)
Inductive closures (h : heap) : nfaFragStack -> nat -> Prop :=
| closures_nil : closures h [] 0
| closures_cons f fs l n :
    closure h (start f) l -> closures h fs n ->
    closures h (f :: fs) (length l + n).

(* [h'] is [h] after allocations and stores through dangling arrows: states
   keep their kind, split states are left as they are. *)
Definition heap_le (h h' : heap) : Prop :=
  length h <= length h' /\
  forall a st, h !! a = Some st ->
    exists st', h' !! a = Some st' /\ kind st' = kind st /\
                (kind st = nfaStateKindSplit -> st' = st).

(* A dangling arrow is the [out1] of a char-consuming state. *)
Definition is_slot (h : heap) (out : nat) : Prop :=
  exists st, h !! out = Some st /\ kind st = nfaStateKindChar.

(* The closure of [t] has at most as many entries as there are states. *)
Definition target_bounded (h : heap) (t : ptr) : Prop :=
  forall a, t = Some a -> exists l, closure h (Some a) l /\ length l <= length h.

Definition targets_bounded (h : heap) : Prop :=
  forall a st, h !! a = Some st -> target_bounded h (out1 st).

Definition nfa_inv (st : heap * nfaFragStack) : Prop :=
  Forall (fun f => Forall (is_slot st.1) (outs f)) st.2 /\
  (exists n, closures st.1 st.2 n /\ n <= length st.1) /\
  targets_bounded st.1.

(* Two runs of the loop of [preprocess] end alike: in the same panic, or in
   states with the same flags. *)
Definition same_verdict (o1 o2 : outcome preState) : Prop :=
  match o1, o2 with
  | Ok a, Ok b => pre_flags a = pre_flags b
  | Panic e1, Panic e2 => e1 = e2
  | _, _ => False
  end.

(* The state does not consume the concatenation marker. *)
Definition not_amp (st : nfaState) : Prop := char st <> opAnd.

(* Every char-consuming state has its arrow connected. *)
Definition wired (h : heap) : Prop :=
  forall a st, h !! a = Some st -> kind st = nfaStateKindChar -> is_Some (out1 st).

(* While the automaton is built, the arrows not yet connected are those of
   the fragments on the stack. *)
Definition dangling_on_stack (st : heap * nfaFragStack) : Prop :=
  forall a s, st.1 !! a = Some s -> kind s = nfaStateKindChar -> out1 s = None ->
    exists f, f ∈ st.2 /\ a ∈ outs f.

(* Only a char-consuming state has a char. *)
Definition char_of_kind (st : nfaState) : Prop :=
  kind st <> nfaStateKindChar -> char st = 0%Z.

(** ** Well-formed token streams *)

(* Operands and binary operators alternate and groups nest: [d] groups are
   open, and [a] tells that an operand has just ended. *)
Fixpoint wf_tokens (d : nat) (a : bool) (toks : list rune) : bool :=
  match toks with
  | [] => a && (d =? 0)
  | c :: toks' =>
      if (c =? opGroupStart)%Z then negb a && wf_tokens (S d) false toks'
      else if (c =? opGroupEnd)%Z then
        a && match d with
             | S d' => wf_tokens d' true toks'
             | O => false
             end
      else if isBinary c then a && wf_tokens d false toks'
      else negb a && wf_tokens d true toks'
  end.

(* The depth of the fragment stack after [nfa] has read a postfix stream,
   if it has two fragments to pop at each binary operator. *)
Fixpoint rpn_depth (post : list rune) (depth : nat) : option nat :=
  match post with
  | [] => Some depth
  | c :: post' =>
      if isBinary c then
        match depth with
        | S (S d) => rpn_depth post' (S d)
        | _ => None
        end
      else rpn_depth post' (S depth)
  end.

(* The operator stack of [postfix] within a well-formed token stream. *)
Definition stack_ok (stack : operatorStack) : Prop :=
  Forall (fun c => c = opGroupStart \/ isBinary c = true) stack.

(* [preprocess] reads the pattern [pat] as an operand whose tokens are
   [toks]: from any state, it adds a marker if one is wanted and then
   [toks], and ends in the state that follows an operand. *)
Definition pre_reads (pat toks : list rune) : Prop :=
  forall st, exists st',
    preprocess_loop pat st = Ok st' /\
    result st' = result st ++ (if wantsAnd st then [opAnd] else []) ++ toks /\
    groupStackCounter st' = groupStackCounter st /\
    wantsAnd st' = true /\ canOr st' = true /\ lastOr st' = false.

(* The tokens [toks] make up an operand of a well-formed stream. *)
Definition wf_reads (toks : list rune) : Prop :=
  forall d rest, wf_tokens d false (toks ++ rest) = wf_tokens d true rest.

(** ** Notions the further properties are stated with *)

(* An alternation right after a group start or another alternation, or
   right before a group end. *)
Definition bad_pair (x y : rune) : bool :=
  ((y =? opOr)%Z && ((x =? opGroupStart)%Z || (x =? opOr)%Z))
  || ((x =? opOr)%Z && (y =? opGroupEnd)%Z).

Fixpoint misuse_after (x : rune) (pat : list rune) : bool :=
  match pat with
  | [] => false
  | y :: pat' => bad_pair x y || misuse_after y pat'
  end.

(* The pattern starts with an alternation, or two of its neighbours make a
   bad pair. *)
Definition or_misused (pat : list rune) : bool :=
  match pat with
  | [] => false
  | x :: pat' => (x =? opOr)%Z || misuse_after x pat'
  end.

(* The stream without its concatenation markers. *)
Definition strip_markers (l : list rune) : list rune :=
  List.filter (fun c => negb (c =? opAnd)%Z) l.

(* No group end comes before its group start: [d] groups are open. *)
Fixpoint closes_matched (d : nat) (toks : list rune) : bool :=
  match toks with
  | [] => true
  | c :: toks' =>
      if (c =? opGroupStart)%Z then closes_matched (S d) toks'
      else if (c =? opGroupEnd)%Z then
        match d with
        | S d' => closes_matched d' toks'
        | O => false
        end
      else closes_matched d toks'
  end.

(* The runes of a stream that are no operators, in order. *)
Definition operands (l : list rune) : list rune :=
  List.filter (fun c => negb (isOperator c)) l.

Definition isOr (c : rune) : bool := (c =? opOr)%Z.

(* The state [st] at address [a] of a finished automaton: a char-consuming
   state has one edge, to a state, and a literal that is no binary operator;
   a split state has two edges, to states allocated before it; a match state
   has no edge and is the last state of the arena. *)
Definition state_shape (h : heap) (a : nat) (st : nfaState) : Prop :=
  match kind st with
  | nfaStateKindChar =>
      isBinary (char st) = false /\ out2 st = None /\
      exists t, out1 st = Some t /\ t < length h
  | nfaStateKindSplit =>
      char st = 0%Z /\
      exists t1 t2, out1 st = Some t1 /\ out2 st = Some t2 /\ t1 < a /\ t2 < a
  | nfaStateKindMatch =>
      char st = 0%Z /\ out1 st = None /\ out2 st = None /\ S a = length h
  end.

(* The start is a state other than the last one, the last state is a match
   state, and every state has the shape of its kind. *)
Definition automaton_shape (r : Regex) : Prop :=
  (exists a, r.2 = Some a /\ S a < length r.1) /\
  (exists m, r.1 !! (length r.1 - 1) = Some m /\ kind m = nfaStateKindMatch) /\
  forall a st, r.1 !! a = Some st -> state_shape r.1 a st.

(* The same while the automaton is built: arrows may still dangle, and
   there is no match state yet. *)
Definition build_shape (h : heap) (a : nat) (st : nfaState) : Prop :=
  match kind st with
  | nfaStateKindChar =>
      isBinary (char st) = false /\ out2 st = None /\
      forall t, out1 st = Some t -> t < length h
  | nfaStateKindSplit =>
      char st = 0%Z /\
      exists t1 t2, out1 st = Some t1 /\ out2 st = Some t2 /\ t1 < a /\ t2 < a
  | nfaStateKindMatch => False
  end.

Definition build_inv (st : heap * nfaFragStack) : Prop :=
  Forall (fun f => exists a, start f = Some a /\ a < length st.1) st.2 /\
  forall a s, st.1 !! a = Some s -> build_shape st.1 a s.

(* The char-consuming states of [h] read runes of [l] only. *)
Definition chars_within (l : list rune) (h : heap) : Prop :=
  forall a st, h !! a = Some st -> kind st = nfaStateKindChar -> char st ∈ l.

(** ** The language of an automaton *)

(* A walk through the automaton from [p] that reads [s] and arrives at the
   pointer [q]: a char-consuming state reads its rune and follows [out1], a
   split state reads nothing and follows [out1] or [out2]. *)
Inductive path (h : heap) : ptr -> list rune -> ptr -> Prop :=
| path_here p : path h p [] p
| path_char a st s q :
    h !! a = Some st -> kind st = nfaStateKindChar ->
    path h (out1 st) s q -> path h (Some a) (char st :: s) q
| path_left a st s q :
    h !! a = Some st -> kind st = nfaStateKindSplit ->
    path h (out1 st) s q -> path h (Some a) s q
| path_right a st s q :
    h !! a = Some st -> kind st = nfaStateKindSplit ->
    path h (out2 st) s q -> path h (Some a) s q.

(* The strings that the automaton accepts: those read on a walk from the
   start to a match state. *)
Definition recognizes (r : Regex) (s : list rune) : Prop :=
  exists m st, path r.1 r.2 s (Some m) /\ r.1 !! m = Some st /\
               kind st = nfaStateKindMatch.

(* The expressions that a postfix stream stands for: an operator takes its
   operands from the stack, any other rune is a literal. *)
Definition rpn_step (es : list regexp) (c : rune) : option (list regexp) :=
  if (c =? opAnd)%Z then
    match es with e2 :: e1 :: es' => Some (Cat e1 e2 :: es') | _ => None end
  else if (c =? opOr)%Z then
    match es with e2 :: e1 :: es' => Some (Alt e1 e2 :: es') | _ => None end
  else Some (Lit c :: es).

Fixpoint rpn_parse (post : list rune) (es : list regexp) : option (list regexp) :=
  match post with
  | [] => Some es
  | c :: post' =>
      match rpn_step es c with
      | Some es' => rpn_parse post' es'
      | None => None
      end
  end.

(* The fragment [f] owns the states [lo, ..., hi-1]: its start and its
   dangling arrows are among them, and the edges of these states stay among
   them or dangle and are listed in [outs f]. *)
Definition frag_ok (h : heap) (f : nfaFrag) (lo hi : nat) : Prop :=
  (exists a, start f = Some a /\ lo <= a < hi) /\
  (forall o, o ∈ outs f ->
     lo <= o < hi /\
     exists st, h !! o = Some st /\ kind st = nfaStateKindChar /\ out1 st = None) /\
  forall a, lo <= a < hi -> exists st, h !! a = Some st /\
    match kind st with
    | nfaStateKindChar =>
        match out1 st with Some b => lo <= b < hi | None => a ∈ outs f end
    | nfaStateKindSplit =>
        exists b1 b2, out1 st = Some b1 /\ out2 st = Some b2 /\
                      lo <= b1 < hi /\ lo <= b2 < hi
    | nfaStateKindMatch => False
    end.

(* The fragments on the stack own consecutive ranges of states, the top one
   the last range, and each reads the strings of its expression on the walks
   from its start to a dangling arrow. *)
Fixpoint frames (h : heap) (stack : nfaFragStack) (es : list regexp) (hi : nat) : Prop :=
  match stack, es with
  | [], [] => True
  | f :: stack', e :: es' =>
      exists lo, frag_ok h f lo hi /\
                 (forall s, denotes e s <-> path h (start f) s None) /\
                 frames h stack' es' lo
  | _, _ => False
  end.

(* [h'] is [h] with the arrows [outs] set to [t]. *)
Definition patched (h h' : heap) (outs : list nat) (t : ptr) : Prop :=
  length h' = length h /\
  forall a st, h !! a = Some st ->
    h' !! a = Some (if decide (a ∈ outs)
                    then {| char := char st; kind := kind st; out1 := t; out2 := out2 st |}
                    else st).

(** ** The postfix form of an expression *)

(* The operators that [postfix] still holds on its stack when it has read
   the tokens of [e], top first, and what it has put out by then. *)
Fixpoint pend (e : regexp) : list rune :=
  match e with
  | Lit _ | Grp _ => []
  | Cat _ _ => [opAnd]
  | Alt _ e2 => pend e2 ++ [opOr]
  end.

Fixpoint body (e : regexp) : list rune :=
  match e with
  | Lit c => [c]
  | Grp e => body e ++ pend e
  | Cat e1 e2 => (body e1 ++ pend e1) ++ (body e2 ++ pend e2)
  | Alt e1 e2 => (body e1 ++ pend e1) ++ body e2
  end.

(* Operands first, then the operator. *)
Definition rpn (e : regexp) : list rune := body e ++ pend e.

(* The groups of an expression leave no trace in its postfix form. *)
Fixpoint strip (e : regexp) : regexp :=
  match e with
  | Lit c => Lit c
  | Cat e1 e2 => Cat (strip e1) (strip e2)
  | Alt e1 e2 => Alt (strip e1) (strip e2)
  | Grp e => strip e
  end.

(* The way the pattern of an expression is read: chains of concatenations
   and of alternations associate to the left. *)
Fixpoint catl (e1 e2 : regexp) : regexp :=
  match e2 with
  | Cat a b => Cat (catl e1 a) b
  | _ => Cat e1 e2
  end.

Fixpoint altl (e1 e2 : regexp) : regexp :=
  match e2 with
  | Alt a b => Alt (altl e1 a) b
  | _ => Alt e1 e2
  end.

Fixpoint norm (e : regexp) : regexp :=
  match e with
  | Lit c => Lit c
  | Grp e => Grp (norm e)
  | Cat e1 e2 => catl (norm e1) (norm e2)
  | Alt e1 e2 => altl (norm e1) (norm e2)
  end.

Definition is_cat (e : regexp) : bool := match e with Cat _ _ => true | _ => false end.
Definition is_alt (e : regexp) : bool := match e with Alt _ _ => true | _ => false end.

Fixpoint leftn (e : regexp) : Prop :=
  match e with
  | Lit _ => True
  | Grp e => leftn e
  | Cat e1 e2 => leftn e1 /\ leftn e2 /\ is_cat e2 = false
  | Alt e1 e2 => leftn e1 /\ leftn e2 /\ is_alt e2 = false
  end.

(* The operator on top of the stack binds less than the operator of [e]. *)
Definition ctx_ok (e : regexp) (ops : list rune) : Prop :=
  match e with
  | Cat _ _ => match ops with [] => True | o :: _ => o <> opAnd end
  | Alt _ _ => match ops with [] => True | o :: _ => isBinary o = false end
  | _ => True
  end.

(* What [postfix] makes of the tokens of [e] on a stack that admits it. *)
Definition shunts (e : regexp) : Prop :=
  forall ops res rest, ctx_ok e ops ->
    postfix_loop (tokens_of e ++ rest) (ops, res)
    = postfix_loop rest (pend e ++ ops, res ++ body e).

(** ** What the matcher computes when no split follows a rune *)

(* No char-consuming state leads to a split state. *)
Definition char_to_nonsplit (h : heap) : Prop :=
  forall a st t, h !! a = Some st -> kind st = nfaStateKindChar -> out1 st = Some t ->
    nonsplit h (Some t).

(* Where the rune [c] leads from the state [p]. *)
Definition fires (h : heap) (c : rune) (p : ptr) : list ptr :=
  match deref h p with
  | Ok st => if (char st =? c)%Z then [out1 st] else []
  | _ => []
  end.

Definition step_list (h : heap) (c : rune) (l : list ptr) : list ptr :=
  concat (map (fires h c) l).

Definition run_list (h : heap) (str : list rune) (l : list ptr) : list ptr :=
  fold_left (fun l c => step_list h c l) str l.

(* The expression begins with a literal, not with an alternation. *)
Fixpoint starts_char (e : regexp) : bool :=
  match e with
  | Lit _ => true
  | Cat e1 _ => starts_char e1
  | Alt _ _ => false
  | Grp e => starts_char e
  end.

(* No alternation is the right operand of a concatenation, or begins it. *)
Fixpoint alt_first (e : regexp) : Prop :=
  match e with
  | Lit _ => True
  | Cat e1 e2 => alt_first e1 /\ alt_first e2 /\ starts_char e2 = true
  | Alt e1 e2 => alt_first e1 /\ alt_first e2
  | Grp e => alt_first e
  end.

(* The start of a fragment whose expression begins with a literal is a
   char-consuming state. *)
Definition starts_ok (h : heap) (f : nfaFrag) (e : regexp) : Prop :=
  starts_char e = true -> nonsplit h (start f).


(** * Properties *)

(** ** Evaluations at concrete patterns and inputs *)

Lemma denotes_accepts e s : denotes e s -> accepts e s = true.
Proof.
  induction 1 as [c|e1 e2 s1 s2 _ IH1 _ IH2|e1 e2 s _ IH|e1 e2 s _ IH|e s _ IH];
    cbn [accepts].
  - apply Z.eqb_refl.
  - apply existsb_exists. exists (length s1). split.
    + apply in_seq. rewrite length_app. lia.
    + by rewrite take_app_length, drop_app_length, IH1, IH2.
  - by rewrite IH.
  - rewrite IH. apply orb_true_r.
  - done.
Qed.

Lemma accepts_denotes e : forall s, accepts e s = true -> denotes e s.
Proof.
  induction e as [c|e1 IH1 e2 IH2|e1 IH1 e2 IH2|e IH]; intros s H; cbn [accepts] in H.
  - destruct s as [|c' [|]]; try discriminate.
    apply Z.eqb_eq in H as ->. constructor.
  - apply existsb_exists in H as (i & _ & H). apply andb_true_iff in H as [H1 H2].
    rewrite <- (take_drop i s). constructor; auto.
  - apply orb_true_iff in H as [H|H]; [apply denotes_alt_l|apply denotes_alt_r]; auto.
  - constructor. auto.
Qed.

Section Evaluations.

Variable growslice : nat -> nat -> nat.

Local Abbreviation matches pat inp := (run growslice (runes pat) (runes inp) = Ok true).
Local Abbreviation rejects pat inp := (run growslice (runes pat) (runes inp) = Ok false).

(* The test of regex_test.go. *)
Lemma TestRegex :
  matches "a(b|cd|ef)g" "abg" /\ matches "a(b|cd|ef)g" "acdg" /\
  matches "a(b|cd|ef)g" "aefg" /\ rejects "a(b|cd|ef)g" "efg" /\
  rejects "a(b|cd|ef)g" "aef" /\ rejects "a(b|cd|ef)g" "acd" /\
  rejects "a(b|cd|ef)g" "ab" /\ rejects "a(b|cd|ef)g" "ef".
Proof. repeat split; vm_compute; reflexivity. Qed.

(** C1 (the code departs from the claim): the eight cases of the test hold,
    but the pattern [x(a(b|c)|ad)] is built from literals, concatenation,
    grouping and alternation only, the string [xad] belongs to its language,
    and [Match] on the compiled pattern answers false.  In the second step of
    the loop [nextStates] shares its backing array with [currentStates];
    appending the two states behind the first [a] overwrites the second [a]
    before the loop reads it.  The same sharing makes [x(a(b|ay)|z)] match
    [xay], which is not in its language. *)
Theorem C1_shared_buffer_loses_state :
  (matches "a(b|cd|ef)g" "abg" /\ matches "a(b|cd|ef)g" "acdg" /\
   matches "a(b|cd|ef)g" "aefg" /\ rejects "a(b|cd|ef)g" "efg" /\
   rejects "a(b|cd|ef)g" "aef" /\ rejects "a(b|cd|ef)g" "acd" /\
   rejects "a(b|cd|ef)g" "ab" /\ rejects "a(b|cd|ef)g" "ef") /\
  (pattern_of shared_prefix = runes "x(a(b|c)|ad)" /\
   denotes shared_prefix (runes "xad") /\
   run growslice (pattern_of shared_prefix) (runes "xad") = Ok false) /\
  (pattern_of skipped_rune = runes "x(a(b|ay)|z)" /\
   ~ denotes skipped_rune (runes "xay") /\
   run growslice (pattern_of skipped_rune) (runes "xay") = Ok true).
Proof.
  split; [exact TestRegex|]. split.
  - split; [reflexivity|]. split; [|vm_compute; reflexivity].
    apply accepts_denotes. vm_compute; reflexivity.
  - split; [reflexivity|]. split; [|vm_compute; reflexivity].
    intros H. apply denotes_accepts in H. vm_compute in H. discriminate.
Qed.

(** C2 (the code departs from the claim): on the automaton compiled from
    [a] and the input [a], U+0000, [Match] does not return; it ends in a nil
    pointer dereference.  The loop compares [state.char] without looking at
    the kind, the match state has [char] zero, and its [out1] is nil. *)
Theorem C2_match_panics_on_nul :
  run growslice (runes "a") [97%Z; 0%Z] = Panic NilDereference.
Proof. vm_compute; reflexivity. Qed.

End Evaluations.

(** C3, as stated, fails: the empty pattern passes [preprocess] and
    [postfix], and [nfa] then fails: the final [Pop] indexes an empty
    fragment stack. *)
Lemma C3_empty_pattern_passes_preprocess :
  preprocess (runes "") = Ok [] /\ postfix [] = Ok [] /\
  nfa [] = Panic IndexOutOfRange /\
  Compile (runes "") = Panic IndexOutOfRange /\
  ~ exists r, Compile (runes "") = Ok r.
Proof.
  repeat split; try (vm_compute; reflexivity).
  intros [r H]. vm_compute in H. discriminate.
Qed.

(** C4 (the code departs from the claim): [(ab] and [ab)] fail with the
    group mismatch, but [)(] does not.  The counter goes to -1 at the close,
    no check is made there, it is back at 0 at the end of the input, and
    [preprocess] returns; [postfix] then peeks at an empty operator stack. *)
Theorem C4_early_close_not_detected :
  Compile (runes "(ab") = Panic GroupMismatch /\
  Compile (runes "ab)") = Panic GroupMismatch /\
  preprocess (runes ")(") = Ok (runes ")&(") /\
  postfix (runes ")&(") = Panic IndexOutOfRange /\
  Compile (runes ")(") = Panic IndexOutOfRange.
Proof. repeat split; vm_compute; reflexivity. Qed.

(** C5 (the code departs from the claim): [|ab], [a||b] and [(|a)] fail with
    the alternation misuse, and so does an alternation before a group close,
    but [a|] does not: [lastOr] is tested at a group close only, not at the
    end of the input.  [preprocess] returns [a|], and [nfa] fails when the
    alternation pops its second operand. *)
Theorem C5_trailing_alternation_not_detected :
  Compile (runes "|ab") = Panic AlternationMisuse /\
  Compile (runes "a||b") = Panic AlternationMisuse /\
  Compile (runes "(|a)") = Panic AlternationMisuse /\
  Compile (runes "(a|)") = Panic AlternationMisuse /\
  preprocess (runes "a|") = Ok (runes "a|") /\
  Compile (runes "a|") = Panic IndexOutOfRange.
Proof. repeat split; vm_compute; reflexivity. Qed.

(** C9: the empty pattern passes preprocessing and postfix conversion with
    an empty stream; the automaton builder then fails when it pops the final
    fragment from the empty fragment stack, and the failure of [Compile] is
    neither the group mismatch nor the alternation misuse. *)
Theorem C9_empty_pattern :
  preprocess [] = Ok [] /\ postfix [] = Ok [] /\
  nfa_loop [] ([], []) = Ok ([], []) /\
  Pop [] = Panic IndexOutOfRange /\
  nfa [] = Panic IndexOutOfRange /\
  Compile [] = Panic IndexOutOfRange /\
  Compile [] <> Panic GroupMismatch /\
  Compile [] <> Panic AlternationMisuse /\
  forall r, Compile [] <> Ok r.
Proof. repeat split; try (vm_compute; reflexivity); vm_compute; discriminate. Qed.

(** ** The [outcome] monad *)

Lemma bind_Ok {A B} (m : outcome A) (f : A -> outcome B) (b : B) :
  m ≫= f = Ok b -> exists a, m = Ok a /\ f a = Ok b.
Proof. destruct m as [a| |]; simpl; [eauto|discriminate..]. Qed.

Lemma deref_Ok h p st :
  deref h p = Ok st -> exists a, p = Some a /\ h !! a = Some st.
Proof.
  destruct p as [a|]; simpl; [|discriminate].
  destruct (h !! a) eqn:E; [|discriminate]. intros [= <-]. eauto.
Qed.

(* Splits a hypothesis [x ← m; k = Ok b] into [m = Ok x] and [k = Ok b]. *)
Ltac bind_inv H :=
  let x := fresh "x" in
  let Hm := fresh "Hm" in
  apply bind_Ok in H; destruct H as (x & Hm & H); simpl in H.

(** ** The active list holds no split state *)

Section Flat.

Variable growslice : nat -> nat -> nat.
Variable h : heap.

Local Abbreviation nonsplit := (nonsplit h).
Local Abbreviation flat := (flat h).

Lemma flat_empty mem s : len s = 0 -> flat mem s.
Proof. intros E i Hi. lia. Qed.

Lemma flat_cap mem s : flat mem s -> len s <= length (backing mem s).
Proof.
  intros F. destruct (len s) as [|n] eqn:E; [lia|].
  destruct (F n) as (p & Hp & _); [lia|].
  apply lookup_lt_Some in Hp. lia.
Qed.

Lemma backing_Some mem s : 0 < length (backing mem s) -> mem !! arr s = Some (backing mem s).
Proof. unfold backing. destruct (mem !! arr s); simpl; [done|lia]. Qed.

Lemma append_flat mem s x t :
  nonsplit x -> flat mem s -> flat mem t ->
  flat (append growslice mem s x).1 (append growslice mem s x).2 /\
  flat (append growslice mem s x).1 t.
Proof.
  intros Hx Fs Ft. unfold append.
  destruct (len s <? length (backing mem s)) eqn:Hlt; simpl.
  - apply Nat.ltb_lt in Hlt.
    pose proof (backing_Some mem s ltac:(lia)) as Hb.
    assert (Hm : arr s < length mem) by (eapply lookup_lt_Some; eauto).
    split.
    + intros i Hi; simpl in *. unfold backing at 1; simpl.
      rewrite list_lookup_insert_eq by done. simpl.
      destruct (decide (i = len s)) as [->|Hne].
      * exists x. split; [|done]. by apply list_lookup_insert_eq.
      * rewrite list_lookup_insert_ne by done. apply Fs. lia.
    + intros i Hi. unfold backing at 1.
      destruct (decide (arr t = arr s)) as [E|Hne].
      * rewrite E, list_lookup_insert_eq by done. simpl.
        destruct (decide (i = len s)) as [->|Hne].
        -- exists x. split; [|done]. by apply list_lookup_insert_eq.
        -- rewrite list_lookup_insert_ne by done.
           destruct (Ft i Hi) as (p & Hp & Hn). exists p. split; [|done].
           unfold backing in Hp |- *. by rewrite <- E.
      * rewrite list_lookup_insert_ne by done. apply Ft, Hi.
  - apply Nat.ltb_ge in Hlt. pose proof (flat_cap _ _ Fs) as Hc.
    split.
    + intros i Hi; simpl in *. unfold backing at 1; simpl.
      rewrite list_lookup_middle by done. simpl.
      destruct (decide (i = len s)) as [->|Hne].
      * exists x. split; [|done].
        rewrite list_lookup_middle; [done|]. rewrite length_take. lia.
      * rewrite lookup_app_l by (rewrite length_take; lia).
        rewrite lookup_take_lt by lia. apply Fs. lia.
    + intros i Hi. destruct (Ft i Hi) as (p & Hp & Hn). exists p. split; [|done].
      unfold backing in Hp |- *.
      destruct (mem !! arr t) as [a|] eqn:E; [|done].
      rewrite lookup_app_l by (eapply lookup_lt_Some; eauto). by rewrite E.
Qed.

Lemma appendState_flat fuel : forall mem s p mem' s',
  appendState growslice fuel h mem s p = Ok (mem', s') ->
  flat mem s ->
  flat mem' s' /\ forall t, flat mem t -> flat mem' t.
Proof.
  induction fuel as [|fuel IH]; intros mem s p mem' s' H Fs; simpl in H; [discriminate|].
  bind_inv H. apply deref_Ok in Hm as (a & -> & Ha).
  destruct (decide (kind x = nfaStateKindSplit)) as [Hk|Hk].
  - bind_inv H. destruct x0 as [mem1 s1].
    destruct (IH _ _ _ _ _ Hm Fs) as [F1 P1].
    destruct (IH _ _ _ _ _ H F1) as [F2 P2].
    split; [done|]. intros t Ft. apply P2, P1, Ft.
  - assert (Hx : nonsplit (Some a)) by (exists a, x; done).
    injection H as H. split.
    + pose proof (append_flat mem s (Some a) s Hx Fs Fs) as [F _].
      by rewrite H in F.
    + intros t Ft. pose proof (append_flat mem s (Some a) t Hx Fs Ft) as [_ F].
      by rewrite H in F.
Qed.

Lemma match_range_flat fuel c cur : forall n i mem next mem' next',
  match_range growslice fuel h c cur i n mem next = Ok (mem', next') ->
  flat mem cur -> flat mem next ->
  flat mem' cur /\ flat mem' next'.
Proof.
  induction n as [|n IH]; intros i mem next mem' next' H Fc Fn; simpl in H.
  - by injection H as <- <-.
  - bind_inv H. destruct (char x =? c)%Z.
    + bind_inv H. destruct x0 as [mem1 next1].
      destruct (appendState_flat _ _ _ _ _ _ Hm0 Fn) as [F1 P1].
      eapply IH; eauto.
    + eapply IH; eauto.
Qed.

Lemma match_loop_flat fuel : forall str mem cur next mem' cur' next',
  match_loop growslice fuel h str mem cur next = Ok (mem', cur', next') ->
  flat mem cur -> flat mem next ->
  flat mem' cur' /\ flat mem' next'.
Proof.
  induction str as [|c str IH]; intros mem cur next mem' cur' next' H Fc Fn; simpl in H.
  - by injection H as <- <- <-.
  - bind_inv H. destruct x as [mem1 next1].
    destruct (match_range_flat _ _ _ _ _ _ _ _ _ Hm Fc Fn) as [_ F1].
    eapply IH; eauto. by apply flat_empty.
Qed.

Lemma match_states_flat fuel start str mem cur next :
  match_states growslice fuel (h, start) str = Ok (mem, cur, next) ->
  flat mem cur /\ flat mem next.
Proof.
  unfold match_states. simpl. intros H. bind_inv H. destruct x as [mem0 cur0].
  apply appendState_flat in Hm as [F P]; [|by apply flat_empty].
  eapply match_loop_flat; eauto. apply P. by apply flat_empty.
Qed.

Lemma flat_elements mem s : flat mem s -> Forall nonsplit (elements mem s).
Proof.
  intros F. apply Forall_lookup. intros i p Hp. unfold elements in Hp.
  apply lookup_take_Some in Hp as [Hp Hi].
  destruct (F i Hi) as (q & Hq & Hn). congruence.
Qed.

End Flat.

(** ** Fuel

    A result other than [OutOfFuel] does not depend on the fuel: more fuel
    gives the same result. *)

Section Fuel.

Variable growslice : nat -> nat -> nat.
Variable h : heap.

Lemma bind_fuel {A B} (m m' : outcome A) (f f' : A -> outcome B) :
  (m <> OutOfFuel -> m' = m) ->
  (forall a, f a <> OutOfFuel -> f' a = f a) ->
  m ≫= f <> OutOfFuel -> m' ≫= f' = m ≫= f.
Proof.
  intros Hm Hf H. destruct m as [a| |]; simpl in *; try done.
  - rewrite Hm by done. simpl. by apply Hf.
  - by rewrite Hm.
Qed.

Lemma appendState_fuel fuel : forall fuel' mem s p,
  fuel <= fuel' ->
  appendState growslice fuel h mem s p <> OutOfFuel ->
  appendState growslice fuel' h mem s p = appendState growslice fuel h mem s p.
Proof.
  induction fuel as [|fuel IH]; intros fuel' mem s p Hle H; simpl in *; [done|].
  destruct fuel' as [|fuel']; [lia|]. simpl.
  revert H. apply bind_fuel; [done|]. intros st.
  destruct (decide (kind st = nfaStateKindSplit)); [|done].
  apply bind_fuel; [apply IH; lia|]. intros [mem1 s1]. apply IH. lia.
Qed.

Lemma match_range_fuel fuel fuel' c cur : forall n i mem next,
  fuel <= fuel' ->
  match_range growslice fuel h c cur i n mem next <> OutOfFuel ->
  match_range growslice fuel' h c cur i n mem next
  = match_range growslice fuel h c cur i n mem next.
Proof.
  induction n as [|n IH]; intros i mem next Hle; simpl; [done|].
  apply bind_fuel; [done|]. intros st. destruct (char st =? c)%Z; [|by apply IH].
  apply bind_fuel; [by apply appendState_fuel|]. intros [mem1 s1]. by apply IH.
Qed.

Lemma match_loop_fuel fuel fuel' : forall str mem cur next,
  fuel <= fuel' ->
  match_loop growslice fuel h str mem cur next <> OutOfFuel ->
  match_loop growslice fuel' h str mem cur next
  = match_loop growslice fuel h str mem cur next.
Proof.
  induction str as [|c str IH]; intros mem cur next Hle; simpl; [done|].
  apply bind_fuel; [by apply match_range_fuel|]. intros [mem1 s1]. by apply IH.
Qed.

Lemma match_fuel fuel fuel' start str :
  fuel <= fuel' ->
  match_ growslice fuel (h, start) str <> OutOfFuel ->
  match_ growslice fuel' (h, start) str = match_ growslice fuel (h, start) str.
Proof.
  intros Hle. unfold match_, match_states. simpl.
  apply bind_fuel; [|done].
  apply bind_fuel; [by apply appendState_fuel|]. intros [mem1 s1].
  by apply match_loop_fuel.
Qed.

End Fuel.

(** ** A pattern with the concatenation marker in it *)

Lemma tally_app p l1 l2 : tally p (l1 ++ l2) = tally p l1 + tally p l2.
Proof. induction l1 as [|c l1 IH]; simpl; [done|]. rewrite IH. lia. Qed.

Lemma tally_in p c l : c ∈ l -> p c = true -> 0 < tally p l.
Proof.
  induction 1 as [c l|c d l _ IH]; simpl; intros Hp.
  - rewrite Hp. lia.
  - specialize (IH Hp). lia.
Qed.

(* Decides the class of the rune that a step is looking at. *)
Ltac rune_cases c :=
  unfold isOperand, isBinary, isOpen, isClose, isAnd,
         opGroupStart, opGroupEnd, opAnd, opOr in *;
  repeat match goal with
  | H : (c =? ?k)%Z = true |- _ => apply Z.eqb_eq in H; subst c
  | H : (c =? ?k)%Z = false |- _ => rewrite ?H; clear H
  end.

Lemma preprocess_step_inv k st c st' :
  preprocess_step st c = Ok st' -> pre_inv k st ->
  pre_inv (k + (if isAnd c then 1 else 0)) st'.
Proof.
  unfold preprocess_step, pre_inv. intros H [Hc Hg].
  destruct (c =? opGroupStart)%Z eqn:E1;
    [|destruct (c =? opGroupEnd)%Z eqn:E2;
      [|destruct (c =? opOr)%Z eqn:E3; [|destruct (c =? opAnd)%Z eqn:E4]]];
    repeat match type of H with
    | (if ?b then _ else _) = _ => destruct b eqn:?; [try discriminate|try discriminate]
    end;
    injection H as <-; simpl;
    destruct (wantsAnd st); rewrite ?tally_app; simpl;
    rune_cases c; simpl; rewrite ?E4; simpl; lia.
Qed.

Lemma preprocess_loop_inv str : forall k st st',
  preprocess_loop str st = Ok st' -> pre_inv k st ->
  pre_inv (k + tally isAnd str) st'.
Proof.
  induction str as [|c str IH]; intros k st st' H Hinv; simpl in H.
  - injection H as <-. simpl. by rewrite Nat.add_0_r.
  - bind_inv H. simpl.
    pose proof (preprocess_step_inv _ _ _ _ Hm Hinv) as Hinv'.
    specialize (IH _ _ _ H Hinv').
    by replace (k + ((if isAnd c then 1 else 0) + tally isAnd str))
      with (k + (if isAnd c then 1 else 0) + tally isAnd str) by lia.
Qed.

(* The token stream of a pattern with [k] occurrences of [&] has [2k-1]
   more binary operators than operands, groups apart. *)
Lemma preprocess_tally pat toks :
  preprocess pat = Ok toks ->
  tally isOperand toks + 2 * tally isAnd pat
    <= tally isBinary toks + 1 + 2 * tally isClose toks.
Proof.
  unfold preprocess. intros H. bind_inv H.
  destruct (groupStackCounter x =? 0)%Z eqn:E; [|discriminate].
  injection H as <-. apply Z.eqb_eq in E.
  apply (preprocess_loop_inv _ 0) in Hm as [Hc Hg].
  - simpl in Hc. destruct (wantsAnd x); lia.
  - split; simpl; lia.
Qed.

Lemma postfix_groupEnd_tally stack : forall result stack' result',
  postfix_groupEnd stack result = Ok (stack', result') ->
  tally isBinary result' + tally isBinary stack'
    = tally isBinary result + tally isBinary stack /\
  tally isOperand result' + tally isOperand stack' + 1
    = tally isOperand result + tally isOperand stack.
Proof.
  induction stack as [|top rest IH]; intros result stack' result' H; simpl in H.
  - discriminate.
  - destruct (top =? opGroupStart)%Z eqn:E.
    + injection H as <- <-. simpl. rune_cases top. simpl. lia.
    + apply IH in H as [H1 H2]. rewrite tally_app in H1, H2. simpl in *. lia.
Qed.

Lemma postfix_operator_tally p c stack : forall result,
  tally p (postfix_operator c stack result).2 + tally p (postfix_operator c stack result).1
  = tally p result + tally p stack + (if p c then 1 else 0).
Proof.
  induction stack as [|top rest IH]; intros result; simpl.
  - lia.
  - destruct (precedence top >=? precedence c)%Z.
    + rewrite IH, tally_app. simpl. lia.
    + simpl. lia.
Qed.

Lemma isOperator_false c :
  isOperator c = false -> isBinary c = false /\ isClose c = false.
Proof.
  unfold isOperator, isBinary, isClose, operators. cbn [isOperator_loop].
  rewrite !(Z.eqb_sym _ c).
  destruct (c =? opGroupStart)%Z, (c =? opGroupEnd)%Z, (c =? opAnd)%Z, (c =? opOr)%Z;
    done.
Qed.

Lemma postfix_step_tally stack result c stack' result' :
  postfix_step (stack, result) c = Ok (stack', result') ->
  tally isBinary result' + tally isBinary stack'
    = tally isBinary result + tally isBinary stack + (if isBinary c then 1 else 0) /\
  tally isOperand result' + tally isOperand stack' + 2 * (if isClose c then 1 else 0)
    = tally isOperand result + tally isOperand stack + (if isOperand c then 1 else 0).
Proof.
  unfold postfix_step. intros H.
  destruct (isOperator c) eqn:Eop.
  - destruct (c =? opGroupStart)%Z eqn:E1; [|destruct (c =? opGroupEnd)%Z eqn:E2].
    + injection H as <- <-. rune_cases c. simpl. lia.
    + apply postfix_groupEnd_tally in H as [H1 H2]. rune_cases c. simpl. lia.
    + injection H as H. apply (f_equal (fun x => (x.2, x.1))) in H. simpl in H.
      injection H as <- <-.
      rewrite !postfix_operator_tally. unfold isClose. rewrite E2. lia.
  - injection H as <- <-. apply isOperator_false in Eop as [Eb Ec].
    assert (Eo : isOperand c = true) by (unfold isOperand; by rewrite Eb).
    rewrite !tally_app. cbn [tally]. rewrite Eb, Ec, Eo. lia.
Qed.

Lemma postfix_loop_tally str : forall stack result stack' result',
  postfix_loop str (stack, result) = Ok (stack', result') ->
  tally isBinary result' + tally isBinary stack'
    = tally isBinary result + tally isBinary stack + tally isBinary str /\
  tally isOperand result' + tally isOperand stack' + 2 * tally isClose str
    = tally isOperand result + tally isOperand stack + tally isOperand str.
Proof.
  induction str as [|c str IH]; intros stack result stack' result' H; simpl in H.
  - injection H as <- <-. simpl. lia.
  - bind_inv H. destruct x as [stack1 result1].
    apply postfix_step_tally in Hm as [H1 H2]. apply IH in H as [H3 H4].
    simpl. lia.
Qed.

(* [postfix] keeps the binary operators and drops a group start with each
   group end. *)
Lemma postfix_tally toks out :
  postfix toks = Ok out ->
  tally isBinary out = tally isBinary toks /\
  tally isOperand out + 2 * tally isClose toks = tally isOperand toks.
Proof.
  unfold postfix. intros H. bind_inv H. destruct x as [stack result].
  injection H as <-. apply postfix_loop_tally in Hm as [H1 H2].
  rewrite !tally_app. simpl in *. lia.
Qed.

Lemma Pop_Ok stack frag rest : Pop stack = Ok (frag, rest) -> stack = frag :: rest.
Proof. destruct stack; simpl; [discriminate|]. by intros [= <- <-]. Qed.

Lemma nfa_step_depth h stack c h' stack' :
  nfa_step (h, stack) c = Ok (h', stack') ->
  length stack + (if isOperand c then 1 else 0)
  = length stack' + (if isBinary c then 1 else 0).
Proof.
  unfold nfa_step, isOperand, isBinary. intros H.
  destruct (c =? opAnd)%Z; [|destruct (c =? opOr)%Z]; simpl.
  - bind_inv H. destruct x as [frag2 st2]. bind_inv H. destruct x as [frag1 st1].
    bind_inv H. injection H as <- <-.
    apply Pop_Ok in Hm as ->. apply Pop_Ok in Hm0 as ->. simpl. lia.
  - bind_inv H. destruct x as [frag2 st2]. bind_inv H. destruct x as [frag1 st1].
    injection H as <- <-.
    apply Pop_Ok in Hm as ->. apply Pop_Ok in Hm0 as ->. simpl. lia.
  - injection H as <- <-. simpl. lia.
Qed.

Lemma nfa_loop_depth str : forall h stack h' stack',
  nfa_loop str (h, stack) = Ok (h', stack') ->
  length stack + tally isOperand str = length stack' + tally isBinary str.
Proof.
  induction str as [|c str IH]; intros h stack h' stack' H; simpl in H.
  - injection H as <- <-. simpl. lia.
  - bind_inv H. destruct x as [h1 stack1].
    apply nfa_step_depth in Hm. apply IH in H. simpl. lia.
Qed.

(* [nfa] ends with a fragment to pop only if the operands outnumber the
   binary operators. *)
Lemma nfa_tally post r :
  nfa post = Ok r -> tally isBinary post + 1 <= tally isOperand post.
Proof.
  unfold nfa. intros H. bind_inv H. destruct x as [h stack].
  bind_inv H. destruct x as [res rest]. apply Pop_Ok in Hm0 as ->.
  apply nfa_loop_depth in Hm. simpl in Hm. lia.
Qed.

Lemma Compile_no_amp pat r : Compile pat = Ok r -> tally isAnd pat = 0.
Proof.
  unfold Compile. intros H. bind_inv H. rename x into toks.
  bind_inv H. rename x into post.
  apply preprocess_tally in Hm. apply postfix_tally in Hm0 as [H1 H2].
  apply nfa_tally in H. lia.
Qed.

(* [preprocess] reads [&] in a pattern the way it reads a literal. *)
Lemma preprocess_step_amp st1 st2 c :
  pre_flags st1 = pre_flags st2 ->
  same_verdict (preprocess_step st1 c) (preprocess_step st2 (amp_as_literal c)).
Proof.
  destruct st1 as [r1 g1 w1 c1 l1], st2 as [r2 g2 w2 c2 l2].
  unfold pre_flags; simpl. intros [= -> -> -> ->].
  unfold preprocess_step, amp_as_literal; simpl.
  destruct (c =? opAnd)%Z eqn:E.
  - apply Z.eqb_eq in E as ->. simpl. done.
  - destruct (c =? opGroupStart)%Z; [done|].
    destruct (c =? opGroupEnd)%Z; [by destruct l2|].
    destruct (c =? opOr)%Z; [by destruct c2|done].
Qed.

Lemma preprocess_loop_amp str : forall st1 st2,
  pre_flags st1 = pre_flags st2 ->
  same_verdict (preprocess_loop str st1)
               (preprocess_loop (map amp_as_literal str) st2).
Proof.
  induction str as [|c str IH]; intros st1 st2 Hf; simpl; [done|].
  pose proof (preprocess_step_amp st1 st2 c Hf) as Hs.
  destruct (preprocess_step st1 c) as [a| |],
           (preprocess_step st2 (amp_as_literal c)) as [b| |]; simpl in *; try done.
  by apply IH.
Qed.

Lemma preprocess_amp pat e :
  preprocess pat = Panic e <-> preprocess (map amp_as_literal pat) = Panic e.
Proof.
  unfold preprocess.
  pose proof (preprocess_loop_amp pat preprocess_init preprocess_init eq_refl) as Hs.
  destruct (preprocess_loop pat preprocess_init) as [a| |],
           (preprocess_loop (map amp_as_literal pat) preprocess_init) as [b| |];
    simpl in *; try done.
  - injection Hs as -> _ _ _.
    by destruct (groupStackCounter b =? 0)%Z.
  - by subst.
Qed.

Lemma preprocess_amp_ok pat :
  (exists toks, preprocess pat = Ok toks) <->
  (exists toks, preprocess (map amp_as_literal pat) = Ok toks).
Proof.
  unfold preprocess.
  pose proof (preprocess_loop_amp pat preprocess_init preprocess_init eq_refl) as Hs.
  destruct (preprocess_loop pat preprocess_init) as [a| |],
           (preprocess_loop (map amp_as_literal pat) preprocess_init) as [b| |];
    simpl in *; try done.
  - injection Hs as -> _ _ _.
    destruct (groupStackCounter b =? 0)%Z; simpl; [by split; eauto|].
    split; intros [toks H]; discriminate.
  - split; intros [toks H]; discriminate.
Qed.

(* No state of a compiled automaton consumes the concatenation marker. *)
Lemma set_out1_not_amp h out p h' :
  set_out1 h out p = Ok h' -> Forall not_amp h -> Forall not_amp h'.
Proof.
  unfold set_out1. destruct (h !! out) as [st|] eqn:E; [|discriminate].
  intros [= <-] F. apply Forall_insert; [done|].
  unfold not_amp; simpl. eapply (Forall_lookup_1 not_amp); eauto.
Qed.

Lemma connect_loop_not_amp outs p : forall h h',
  connect_loop h outs p = Ok h' -> Forall not_amp h -> Forall not_amp h'.
Proof.
  induction outs as [|out outs IH]; intros h h' H F; simpl in H.
  - by injection H as <-.
  - bind_inv H. eapply IH; eauto using set_out1_not_amp.
Qed.

Lemma nfa_step_not_amp h stack c h' stack' :
  nfa_step (h, stack) c = Ok (h', stack') -> Forall not_amp h -> Forall not_amp h'.
Proof.
  unfold nfa_step, connectNfaFrag, alloc. intros H F.
  destruct (c =? opAnd)%Z eqn:E1; [|destruct (c =? opOr)%Z eqn:E2].
  - bind_inv H. destruct x as [frag2 st2]. bind_inv H. destruct x as [frag1 st1].
    bind_inv H. injection H as <- <-. eauto using connect_loop_not_amp.
  - bind_inv H. destruct x as [frag2 st2]. bind_inv H. destruct x as [frag1 st1].
    injection H as <- <-. apply Forall_app. split; [done|].
    by repeat constructor.
  - injection H as <- <-. apply Forall_app. split; [done|].
    repeat constructor. unfold not_amp; simpl. by apply Z.eqb_neq.
Qed.

Lemma nfa_loop_not_amp str : forall h stack h' stack',
  nfa_loop str (h, stack) = Ok (h', stack') -> Forall not_amp h -> Forall not_amp h'.
Proof.
  induction str as [|c str IH]; intros h stack h' stack' H F; simpl in H.
  - by injection H as <- <-.
  - bind_inv H. destruct x as [h1 stack1].
    apply (IH _ _ _ _ H). exact (nfa_step_not_amp h stack c h1 stack1 Hm F).
Qed.

Lemma Compile_not_amp pat h start :
  Compile pat = Ok (h, start) -> Forall not_amp h.
Proof.
  unfold Compile, nfa, connectNfaFrag, alloc. intros H.
  bind_inv H. bind_inv H. bind_inv H. destruct x1 as [h1 stack].
  bind_inv H. destruct x1 as [res rest]. bind_inv H. injection H as <- <-.
  eapply connect_loop_not_amp; eauto.
  apply Forall_app. split; [by eapply nfa_loop_not_amp; eauto|].
  by repeat constructor.
Qed.

Section MarkerInInput.

Variable growslice : nat -> nat -> nat.
Variable h : heap.
Hypothesis h_not_amp : Forall not_amp h.

Lemma match_range_amp fuel cur : forall n i mem next mem' next',
  match_range growslice fuel h opAnd cur i n mem next = Ok (mem', next') ->
  next' = next.
Proof.
  induction n as [|n IH]; intros i mem next mem' next' H; simpl in H.
  - by injection H as <- <-.
  - bind_inv H. apply deref_Ok in Hm as (a & _ & Ha).
    apply (Forall_lookup_1 not_amp) with (i := a) (x := x) in h_not_amp; [|done].
    apply Z.eqb_neq in h_not_amp. rewrite h_not_amp in H. eauto.
Qed.

Lemma match_loop_empty fuel str : forall mem cur next mem' cur' next',
  match_loop growslice fuel h str mem cur next = Ok (mem', cur', next') ->
  len cur = 0 -> len next = 0 -> len cur' = 0.
Proof.
  induction str as [|c str IH]; intros mem cur next mem' cur' next' H Hc Hn; simpl in H.
  - by injection H as <- <- <-.
  - rewrite Hc in H. simpl in H. eauto.
Qed.

Lemma match_loop_amp fuel str : forall mem cur next mem' cur' next',
  opAnd ∈ str ->
  match_loop growslice fuel h str mem cur next = Ok (mem', cur', next') ->
  len next = 0 -> len cur' = 0.
Proof.
  induction str as [|c str IH]; intros mem cur next mem' cur' next' Hin H Hn.
  - by apply elem_of_nil in Hin.
  - simpl in H. bind_inv H. destruct x as [mem1 next1].
    apply elem_of_cons in Hin as [<-|Hin].
    + apply match_range_amp in Hm as ->.
      eapply match_loop_empty; eauto.
    + eapply IH; eauto.
Qed.

Lemma match_amp fuel start str :
  opAnd ∈ str -> match_ growslice fuel (h, start) str <> Ok true.
Proof.
  intros Hin H. unfold match_, match_states in H. simpl in H.
  bind_inv H. destruct x as [[mem cur] next].
  bind_inv Hm. destruct x as [mem0 cur0].
  apply match_loop_amp in Hm; [|done..].
  rewrite Hm in H. simpl in H. discriminate.
Qed.

End MarkerInInput.

(** C10, as stated, fails: [Compile] does reject a pattern with [&] in it.
    For [a&b], [preprocess] puts a marker on each side of the [&]; the
    postfix form [a&&b&] has one operand too few for its second token, and
    [nfa] pops an empty fragment stack. *)
Lemma C10_marker_in_pattern_rejected :
  opAnd ∈ runes "a&b" /\
  preprocess (runes "a&b") = Ok (runes "a&&&b") /\
  postfix (runes "a&&&b") = Ok (runes "a&&b&") /\
  Compile (runes "a&b") = Panic IndexOutOfRange /\
  ~ exists r, Compile (runes "a&b") = Ok r.
Proof.
  split; [vm_compute; by repeat constructor|].
  repeat split; try (vm_compute; reflexivity).
  intros [r H]. vm_compute in H. discriminate.
Qed.

(** C10 (as amended): the concatenation marker is the code point [&], an
    operator of [postfix] and [nfa].  [preprocess] does not single it out: it
    accepts a pattern, or fails on it, exactly as it does when every [&] is
    replaced by a literal.  The later stages read each [&] as a
    concatenation, so [Compile]
    never returns an automaton for a pattern with [&] in it; and no compiled
    automaton matches an input with [&] in it. *)
Theorem C10_marker_is_ampersand growslice fuel (pat inp : list rune) :
  opAnd ∈ pat -> opAnd ∈ inp ->
  opAnd = 38%Z /\ isOperator opAnd = true /\
  ((exists toks, preprocess pat = Ok toks) <->
   (exists toks, preprocess (map amp_as_literal pat) = Ok toks)) /\
  (forall e, preprocess pat = Panic e <-> preprocess (map amp_as_literal pat) = Panic e) /\
  (forall r, Compile pat <> Ok r) /\
  (forall q r, Compile q = Ok r -> match_ growslice fuel r inp <> Ok true).
Proof.
  intros Hpat Hinp. split; [done|]. split; [done|].
  split; [apply preprocess_amp_ok|].
  split; [intros e; apply preprocess_amp|]. split.
  - intros r H. apply Compile_no_amp in H.
    pose proof (tally_in isAnd opAnd pat Hpat eq_refl). lia.
  - intros q [h start] H. apply Compile_not_amp in H. by apply match_amp.
Qed.

Lemma C10_marker_is_ampersand_witness :
  opAnd ∈ runes "a&b" /\ opAnd ∈ runes "a&" /\
  Compile (runes "a(b|cd|ef)g") = Ok test_regex /\
  (forall r, Compile (runes "a&b") <> Ok r) /\
  match_ (fun _ n => n) 11 test_regex (runes "a&") <> Ok true.
Proof.
  assert (Hp : opAnd ∈ runes "a&b") by (vm_compute; by repeat constructor).
  assert (Hi : opAnd ∈ runes "a&") by (vm_compute; by repeat constructor).
  assert (Hc : Compile (runes "a(b|cd|ef)g") = Ok test_regex)
    by (vm_compute; reflexivity).
  destruct (C10_marker_is_ampersand (fun _ n => n) 11 _ _ Hp Hi)
    as (_ & _ & _ & _ & Hr & Hm).
  split; [exact Hp|]. split; [exact Hi|]. split; [exact Hc|].
  split; [exact Hr|exact (Hm _ _ Hc)].
Defined.

(** ** The size of the active list *)

Lemma closure_det h p l1 : closure h p l1 -> forall l2, closure h p l2 -> l1 = l2.
Proof.
  induction 1 as [a st Ha Hk|a st l1 l1' Ha Hk _ IH1 _ IH2]; intros l2 H2;
    inversion H2 as [a' st' Ha' Hk'|a' st' m1 m2 Ha' Hk' Hc1 Hc2]; subst;
    rewrite Ha in Ha'; injection Ha' as <-; try done.
  f_equal; auto.
Qed.

Lemma heap_le_refl h : heap_le h h.
Proof. split; [done|]. intros a st Ha. eauto. Qed.

Lemma heap_le_trans h1 h2 h3 : heap_le h1 h2 -> heap_le h2 h3 -> heap_le h1 h3.
Proof.
  intros [L1 H1] [L2 H2]. split; [lia|]. intros a st Ha.
  destruct (H1 _ _ Ha) as (st2 & Ha2 & Hk2 & Hs2).
  destruct (H2 _ _ Ha2) as (st3 & Ha3 & Hk3 & Hs3).
  exists st3. split; [done|]. split; [congruence|].
  intros Hk. rewrite <- (Hs2 Hk). apply Hs3. congruence.
Qed.

Lemma heap_le_alloc h st : heap_le h (h ++ [st]).
Proof.
  split; [rewrite length_app; lia|]. intros a st' Ha.
  exists st'. split; [|done]. by apply lookup_app_l_Some.
Qed.

Lemma heap_le_set_out1 h out p h' :
  set_out1 h out p = Ok h' -> is_slot h out -> heap_le h h'.
Proof.
  unfold set_out1. intros H (st & Hst & Hk). rewrite Hst in H. injection H as <-.
  split; [by rewrite length_insert|]. intros a st' Ha.
  destruct (decide (a = out)) as [->|Hne].
  - rewrite Hst in Ha. injection Ha as <-.
    eexists. split; [apply list_lookup_insert_eq; by eapply lookup_lt_Some|].
    split; [done|]. congruence.
  - exists st'. by rewrite list_lookup_insert_ne.
Qed.

Lemma closure_mono h h' p l : heap_le h h' -> closure h p l -> closure h' p l.
Proof.
  intros [_ Hle]. induction 1 as [a st Ha Hk|a st l1 l2 Ha Hk _ IH1 _ IH2].
  - destruct (Hle _ _ Ha) as (st' & Ha' & Hk' & _).
    eapply closure_leaf; eauto. congruence.
  - destruct (Hle _ _ Ha) as (st' & Ha' & _ & Hs). rewrite (Hs Hk) in Ha'.
    eapply closure_split; eauto.
Qed.

Lemma closures_mono h h' stack n :
  heap_le h h' -> closures h stack n -> closures h' stack n.
Proof. intros Hle. induction 1; econstructor; eauto using closure_mono. Qed.

Lemma is_slot_mono h h' out : heap_le h h' -> is_slot h out -> is_slot h' out.
Proof.
  intros [_ Hle] (st & Ha & Hk). destruct (Hle _ _ Ha) as (st' & Ha' & Hk' & _).
  exists st'. split; [done|congruence].
Qed.

Lemma target_bounded_mono h h' t :
  heap_le h h' -> target_bounded h t -> target_bounded h' t.
Proof.
  intros Hle Ht a ->. destruct (Ht a eq_refl) as (l & Hc & Hl).
  exists l. split; [by eapply closure_mono|]. destruct Hle. lia.
Qed.

Lemma set_out1_targets h out t h' :
  set_out1 h out t = Ok h' -> is_slot h out ->
  target_bounded h t -> targets_bounded h -> targets_bounded h'.
Proof.
  intros H Hs Ht Hb. pose proof (heap_le_set_out1 _ _ _ _ H Hs) as Hle.
  unfold set_out1 in H. destruct Hs as (st & Hst & Hk). rewrite Hst in H.
  injection H as <-. intros a st' Ha.
  destruct (decide (a = out)) as [->|Hne].
  - rewrite list_lookup_insert_eq in Ha by (by eapply lookup_lt_Some).
    injection Ha as <-. simpl. by eapply target_bounded_mono.
  - rewrite list_lookup_insert_ne in Ha by done.
    eapply target_bounded_mono; eauto.
Qed.

Lemma connect_loop_inv outs t : forall h h',
  connect_loop h outs t = Ok h' -> Forall (is_slot h) outs ->
  heap_le h h' /\ length h' = length h /\
  (target_bounded h t -> targets_bounded h -> targets_bounded h').
Proof.
  induction outs as [|out outs IH]; intros h h' H Hs; simpl in H.
  - injection H as <-. split; [apply heap_le_refl|]. done.
  - bind_inv H. rename x into h1.
    inversion_clear Hs as [|? ? Hout Hs'].
    pose proof (heap_le_set_out1 _ _ _ _ Hm Hout) as Hle1.
    assert (Hlen1 : length h1 = length h).
    { unfold set_out1 in Hm. destruct (h !! out); [|discriminate].
      injection Hm as <-. by rewrite length_insert. }
    destruct (IH h1 h' H) as (Hle2 & Hlen2 & Hb2).
    { revert Hs'. apply List.Forall_impl. intros o. by apply is_slot_mono. }
    split; [by eapply heap_le_trans|]. split; [lia|].
    intros Ht Hb. apply Hb2.
    + by eapply target_bounded_mono.
    + by eapply set_out1_targets.
Qed.

Lemma slots_mono h h' (stack : nfaFragStack) :
  heap_le h h' ->
  Forall (fun f => Forall (is_slot h) (outs f)) stack ->
  Forall (fun f => Forall (is_slot h') (outs f)) stack.
Proof.
  intros Hle. apply List.Forall_impl. intros f. apply List.Forall_impl.
  intros o. by apply is_slot_mono.
Qed.

Lemma targets_bounded_alloc h st :
  targets_bounded h -> target_bounded (h ++ [st]) (out1 st) ->
  targets_bounded (h ++ [st]).
Proof.
  intros Hb Hst a st' Ha.
  destruct (decide (a < length h)) as [Hlt|Hge].
  - rewrite lookup_app_l in Ha by done.
    eapply target_bounded_mono; [apply heap_le_alloc|]. by eapply Hb.
  - assert (a = length h) as ->.
    { apply lookup_lt_Some in Ha. rewrite length_app in Ha. simpl in Ha. lia. }
    rewrite list_lookup_middle in Ha by done. by injection Ha as <-.
Qed.

Lemma nfa_step_inv h stack c h' stack' :
  nfa_step (h, stack) c = Ok (h', stack') ->
  nfa_inv (h, stack) -> nfa_inv (h', stack').
Proof.
  unfold nfa_step, connectNfaFrag, alloc, nfa_inv. simpl.
  intros H (Hslots & (n & Hcl & Hn) & Hb).
  destruct (c =? opAnd)%Z; [|destruct (c =? opOr)%Z].
  - (* concatenation *)
    bind_inv H. destruct x as [frag2 st2]. bind_inv H. destruct x as [frag1 st1].
    bind_inv H. injection H as <- <-.
    apply Pop_Ok in Hm as ->. apply Pop_Ok in Hm0 as ->.
    inversion_clear Hslots as [|? ? Hs2 Hslots']. inversion_clear Hslots' as [|? ? Hs1 Hrest].
    inversion Hcl as [|? ? l2 n2 Hc2 Hcl2]; subst.
    inversion Hcl2 as [|? ? l1 n1 Hc1 Hcl1]; subst.
    destruct (connect_loop_inv _ _ _ _ Hm1 Hs1) as (Hle & Hlen & Hb').
    split; [|split].
    + constructor; simpl; [|by eapply slots_mono].
      revert Hs2. apply List.Forall_impl. intros o. by apply is_slot_mono.
    + exists (length l1 + n1). split; [|lia].
      constructor; [by eapply closure_mono|by eapply closures_mono].
    + apply Hb'; [|done]. intros a Ha. rewrite Ha in Hc2.
      exists l2. split; [done|lia].
  - (* alternation *)
    bind_inv H. destruct x as [frag2 st2]. bind_inv H. destruct x as [frag1 st1].
    injection H as <- <-.
    apply Pop_Ok in Hm as ->. apply Pop_Ok in Hm0 as ->.
    inversion_clear Hslots as [|? ? Hs2 Hslots']. inversion_clear Hslots' as [|? ? Hs1 Hrest].
    inversion Hcl as [|? ? l2 n2 Hc2 Hcl2]; subst.
    inversion Hcl2 as [|? ? l1 n1 Hc1 Hcl1]; subst.
    set (s := {| char := 0; kind := nfaStateKindSplit;
                 out1 := start frag1; out2 := start frag2 |}).
    pose proof (heap_le_alloc h s) as Hle.
    split; [|split].
    + constructor; simpl; [|by eapply slots_mono].
      apply Forall_app. split.
      * revert Hs1. apply List.Forall_impl. intros o. by apply is_slot_mono.
      * revert Hs2. apply List.Forall_impl. intros o. by apply is_slot_mono.
    + exists (length (l1 ++ l2) + n1). rewrite length_app.
      split; [|rewrite length_app; simpl; lia].
      rewrite <- length_app. constructor; [|by eapply closures_mono]. simpl.
      apply (closure_split _ _ s); [by apply list_lookup_middle|done|..]; simpl;
        by eapply closure_mono.
    + apply targets_bounded_alloc; [done|]. simpl. intros a Ha. rewrite Ha in Hc1.
      exists l1. split; [by eapply closure_mono|]. rewrite length_app. simpl. lia.
  - (* a literal *)
    injection H as <- <-.
    set (s := {| char := c; kind := nfaStateKindChar; out1 := None; out2 := None |}).
    pose proof (heap_le_alloc h s) as Hle.
    split; [|split].
    + constructor; simpl; [|by eapply slots_mono].
      repeat constructor. exists s. split; [by apply list_lookup_middle|done].
    + exists (length [Some (length h)] + n).
      split; [|rewrite length_app; simpl; lia].
      constructor; [|by eapply closures_mono]. simpl.
      apply (closure_leaf _ _ s); [by apply list_lookup_middle|done].
    + apply targets_bounded_alloc; [done|]. simpl. intros a Ha. discriminate.
Qed.

Lemma nfa_loop_inv str : forall h stack h' stack',
  nfa_loop str (h, stack) = Ok (h', stack') ->
  nfa_inv (h, stack) -> nfa_inv (h', stack').
Proof.
  induction str as [|c str IH]; intros h stack h' stack' H Hinv; simpl in H.
  - by injection H as <- <-.
  - bind_inv H. destruct x as [h1 stack1].
    apply (IH _ _ _ _ H). exact (nfa_step_inv h stack c h1 stack1 Hm Hinv).
Qed.

(* The closure of the start state, and of what follows any state, of a
   compiled automaton has at most as many entries as there are states. *)
Lemma Compile_bounded pat h start :
  Compile pat = Ok (h, start) ->
  target_bounded h start /\ targets_bounded h.
Proof.
  unfold Compile, nfa, connectNfaFrag, alloc. intros H.
  bind_inv H. bind_inv H. bind_inv H. destruct x1 as [h1 stack].
  bind_inv H. destruct x1 as [res rest]. bind_inv H. injection H as <- <-.
  apply Pop_Ok in Hm2 as ->.
  destruct (nfa_loop_inv _ _ _ _ _ Hm1) as (Hslots & (n & Hcl & Hn) & Hb).
  { split; [constructor|]. split; [exists 0; split; [constructor|simpl; lia]|].
    intros a st Ha. simpl in Ha. by destruct a. }
  simpl in *.
  set (m := {| char := 0; kind := nfaStateKindMatch; out1 := None; out2 := None |}) in *.
  pose proof (heap_le_alloc h1 m) as Hle1.
  inversion_clear Hslots as [|? ? Hs _].
  inversion Hcl as [|? ? l n' Hc Hcl']; subst.
  destruct (connect_loop_inv _ _ _ _ Hm3) as (Hle & Hlen & Hb').
  { revert Hs. apply List.Forall_impl. intros o. by apply is_slot_mono. }
  split.
  - intros a Ha. rewrite Ha in Hc. exists l.
    split; [eapply closure_mono; [|exact Hc]; by eapply heap_le_trans|].
    rewrite Hlen, length_app. simpl. lia.
  - apply Hb'.
    + intros a [= <-]. exists [Some (length h1)].
      split; [|rewrite length_app; simpl; lia].
      apply (closure_leaf _ _ m); [by apply list_lookup_middle|done].
    + apply targets_bounded_alloc; [done|]. intros a Ha. discriminate.
Qed.

Section ActiveSize.

Variable growslice : nat -> nat -> nat.
Variable h : heap.

Lemma append_len mem s x : len (append growslice mem s x).2 = S (len s).
Proof. unfold append. by destruct (len s <? length (backing mem s)). Qed.

(* [appendState] appends the closure of the state. *)
Lemma appendState_closure fuel : forall mem s p mem' s',
  appendState growslice fuel h mem s p = Ok (mem', s') ->
  exists l, closure h p l /\ len s' = len s + length l.
Proof.
  induction fuel as [|fuel IH]; intros mem s p mem' s' H; simpl in H; [discriminate|].
  bind_inv H. apply deref_Ok in Hm as (a & -> & Ha).
  destruct (decide (kind x = nfaStateKindSplit)) as [Hk|Hk].
  - bind_inv H. destruct x0 as [mem1 s1].
    apply IH in Hm as (l1 & Hc1 & Hl1). apply IH in H as (l2 & Hc2 & Hl2).
    exists (l1 ++ l2). split; [by eapply closure_split|].
    rewrite length_app. lia.
  - injection H as H. exists [Some a]. split; [by eapply closure_leaf|].
    apply (f_equal (fun r => len r.2)) in H. rewrite append_len in H.
    simpl in *. lia.
Qed.

Lemma appendState_bound fuel mem s p mem' s' :
  target_bounded h p ->
  appendState growslice fuel h mem s p = Ok (mem', s') ->
  len s' <= len s + length h.
Proof.
  intros Hb H. apply appendState_closure in H as (l & Hc & Hl).
  inversion Hc; subst;
    (destruct (Hb _ eq_refl) as (l' & Hc' & Hl');
     rewrite (closure_det _ _ _ Hc' _ Hc) in Hl'; lia).
Qed.

Hypothesis h_bounded : targets_bounded h.

(* One pass over [n] entries appends at most [n] closures. *)
Lemma match_range_bound fuel c cur : forall n i mem next mem' next',
  match_range growslice fuel h c cur i n mem next = Ok (mem', next') ->
  len next' <= len next + n * length h.
Proof.
  induction n as [|n IH]; intros i mem next mem' next' H; simpl in H.
  - injection H as <- <-. lia.
  - bind_inv H. apply deref_Ok in Hm as (a & _ & Ha).
    destruct (char x =? c)%Z.
    + bind_inv H. destruct x0 as [mem1 next1].
      apply appendState_bound in Hm; [|by eapply h_bounded].
      apply IH in H. simpl. lia.
    + apply IH in H. simpl. lia.
Qed.

Lemma match_loop_app fuel str1 str2 : forall mem cur next,
  match_loop growslice fuel h (str1 ++ str2) mem cur next
  = '(mem1, cur1, next1) ← match_loop growslice fuel h str1 mem cur next;
    match_loop growslice fuel h str2 mem1 cur1 next1.
Proof.
  induction str1 as [|c str1 IH]; intros mem cur next; simpl; [done|].
  destruct (match_range growslice fuel h c cur 0 (len cur) mem next)
    as [[mem1 next1]| |]; simpl; [|done..].
  apply IH.
Qed.

Lemma match_loop_next_len fuel str : forall mem cur next mem' cur' next',
  match_loop growslice fuel h str mem cur next = Ok (mem', cur', next') ->
  len next = 0 -> len next' = 0.
Proof.
  induction str as [|c str IH]; intros mem cur next mem' cur' next' H Hn; simpl in H.
  - by injection H as <- <- <-.
  - bind_inv H. destruct x as [mem1 next1]. eapply IH; eauto.
Qed.

Lemma elements_length mem s : flat h mem s -> length (elements mem s) = len s.
Proof.
  intros F. apply flat_cap in F. unfold elements. rewrite length_take. lia.
Qed.

Lemma active_initial_bound fuel start l :
  target_bounded h start ->
  active growslice fuel (h, start) [] = Ok l -> length l <= length h.
Proof.
  intros Hb H. unfold active in H. bind_inv H. destruct x as [[mem cur] next].
  injection H as <-.
  pose proof (match_states_flat _ _ _ _ _ _ _ _ Hm) as [F _].
  rewrite (elements_length _ _ F).
  unfold match_states in Hm. simpl in Hm. bind_inv Hm. destruct x as [mem0 cur0].
  injection Hm as <- <- <-.
  apply appendState_bound in Hm0; [|done]. simpl in Hm0. lia.
Qed.

Lemma active_step_bound fuel start str c l l' :
  active growslice fuel (h, start) str = Ok l ->
  active growslice fuel (h, start) (str ++ [c]) = Ok l' ->
  length l' <= length l * length h.
Proof.
  unfold active. intros H H'.
  bind_inv H. destruct x as [[mem cur] next]. injection H as <-.
  bind_inv H'. destruct x as [[mem' cur'] next']. injection H' as <-.
  pose proof (match_states_flat _ _ _ _ _ _ _ _ Hm) as [F _].
  pose proof (match_states_flat _ _ _ _ _ _ _ _ Hm0) as [F' _].
  rewrite (elements_length _ _ F), (elements_length _ _ F').
  unfold match_states in Hm, Hm0. simpl in Hm, Hm0.
  bind_inv Hm. destruct x as [mem0 cur0]. rewrite Hm1 in Hm0. simpl in Hm0.
  rewrite match_loop_app, Hm in Hm0. simpl in Hm0.
  apply match_loop_next_len in Hm; [|done].
  bind_inv Hm0. destruct x as [mem2 next2]. injection Hm0 as <- <- <-.
  apply match_range_bound in Hm2. lia.
Qed.

End ActiveSize.

(** C6, as stated, fails: after the input [a] the active list of
    [(a|a|a|a)(b|b|b|b)] has 16 entries, the automaton 15 states.  Each of the
    four [a] states appends the closure of the split tree over the four [b]
    states. *)
Lemma C6_active_list_exceeds_states :
  Compile (runes "(a|a|a|a)(b|b|b|b)") = Ok dup_regex /\
  length dup_regex.1 = 15 /\
  exists l, active (fun _ n => n) 16 dup_regex (runes "a") = Ok l /\
            length l = 16 /\ ~ length l <= length dup_regex.1.
Proof.
  split; [vm_compute; reflexivity|]. split; [reflexivity|].
  eexists. split; [vm_compute; reflexivity|]. split; [reflexivity|].
  vm_compute. lia.
Qed.

(** C6 (as amended): the active list is not cleared of duplicates, but each
    closure that [appendState] appends has at most as many entries as the
    compiled automaton has states.  So the active list starts with at most
    that many entries, and a step, which visits each entry of the current
    list once, leaves at most (entries before the step) x (number of states)
    entries. *)
Theorem C6_active_list_growth growslice fuel pat (r : Regex) :
  Compile pat = Ok r ->
  (forall l, active growslice fuel r [] = Ok l -> length l <= length r.1) /\
  (forall str c l l',
     active growslice fuel r str = Ok l ->
     active growslice fuel r (str ++ [c]) = Ok l' ->
     length l' <= length l * length r.1).
Proof.
  destruct r as [h start]. intros H. apply Compile_bounded in H as [Hs Hb].
  split.
  - intros l. by apply active_initial_bound.
  - intros str c l l'. by apply active_step_bound.
Qed.

Lemma C6_active_list_growth_witness :
  Compile (runes "a(b|cd|ef)g") = Ok test_regex /\
  active (fun _ n => n) 11 test_regex [] = Ok [Some 0] /\
  active (fun _ n => n) 11 test_regex ([] ++ [97%Z]) = Ok [Some 1; Some 2; Some 5] /\
  length [Some 0] <= length test_regex.1 /\
  length [Some 1; Some 2; Some 5] <= length [Some 0] * length test_regex.1.
Proof.
  assert (Hc : Compile (runes "a(b|cd|ef)g") = Ok test_regex)
    by (vm_compute; reflexivity).
  assert (H0 : active (fun _ n => n) 11 test_regex [] = Ok [Some 0])
    by (vm_compute; reflexivity).
  assert (H1 : active (fun _ n => n) 11 test_regex ([] ++ [97%Z])
               = Ok [Some 1; Some 2; Some 5])
    by (vm_compute; reflexivity).
  destruct (C6_active_list_growth (fun _ n => n) 11 _ _ Hc) as [Hi Hs].
  split; [exact Hc|]. split; [exact H0|]. split; [exact H1|].
  split; [exact (Hi _ H0)|exact (Hs _ _ _ _ H0 H1)].
Defined.

(** ** When the matcher returns

    On a compiled automaton [Match] has fuel enough, and the one way for it
    not to return a boolean is an input rune U+0000 met while the match state
    is in the active list. *)

Lemma closure_nonempty h p l : closure h p l -> 1 <= length l.
Proof.
  induction 1; simpl; [lia|]. rewrite length_app. lia.
Qed.

Lemma appendState_enough growslice h p l :
  closure h p l -> forall fuel mem s, length l <= fuel ->
  exists mem' s', appendState growslice fuel h mem s p = Ok (mem', s').
Proof.
  induction 1 as [a st Ha Hk|a st l1 l2 Ha Hk H1 IH1 H2 IH2]; intros fuel mem s Hf.
  - destruct fuel as [|fuel]; [simpl in Hf; lia|]. simpl. rewrite Ha. simpl.
    destruct (decide (kind st = nfaStateKindSplit)); [done|].
    destruct (append growslice mem s (Some a)) as [mem' s']. eauto.
  - apply closure_nonempty in H1 as Hl1. apply closure_nonempty in H2 as Hl2.
    rewrite length_app in Hf.
    destruct fuel as [|fuel]; [lia|]. simpl. rewrite Ha. simpl.
    destruct (decide (kind st = nfaStateKindSplit)); [|done].
    destruct (IH1 fuel mem s) as (mem1 & s1 & E1); [lia|]. rewrite E1. simpl.
    apply IH2. lia.
Qed.

Lemma connect_loop_lookup outs t : forall h h',
  connect_loop h outs t = Ok h' ->
  forall a st', h' !! a = Some st' ->
  exists st, h !! a = Some st /\ kind st' = kind st /\ char st' = char st /\
    (((a ∈ outs) /\ out1 st' = t) \/ ((a ∉ outs) /\ st' = st)).
Proof.
  induction outs as [|out outs IH]; intros h h' H a st' Ha; simpl in H.
  - injection H as <-. exists st'. repeat split; try done. right.
    split; [apply not_elem_of_nil|done].
  - bind_inv H. rename x into h1.
    destruct (IH _ _ H _ _ Ha) as (st1 & Ha1 & Hk1 & Hc1 & Hcase).
    unfold set_out1 in Hm. destruct (h !! out) as [so|] eqn:Eo; [|discriminate].
    injection Hm as <-.
    destruct (decide (a = out)) as [->|Hne].
    + rewrite list_lookup_insert_eq in Ha1 by (by eapply lookup_lt_Some).
      injection Ha1 as <-. exists so. simpl in *.
      repeat split; try done. left. split; [apply list_elem_of_here|].
      destruct Hcase as [[_ E]|[_ ->]]; done.
    + rewrite list_lookup_insert_ne in Ha1 by done.
      exists st1. repeat split; try done.
      destruct Hcase as [[Hin E]|[Hnin E]].
      * left. split; [by apply list_elem_of_further|done].
      * right. split; [|done]. intros Hin. apply elem_of_cons in Hin as [?|?]; done.
Qed.

Lemma closures_start h stack n f :
  closures h stack n -> f ∈ stack -> is_Some (start f).
Proof.
  induction 1 as [|g fs l n Hc _ IH]; intros Hin.
  - by apply elem_of_nil in Hin.
  - apply elem_of_cons in Hin as [->|Hin]; [|auto].
    inversion Hc; eauto.
Qed.

Lemma nfa_step_dangling h stack c h' stack' :
  nfa_step (h, stack) c = Ok (h', stack') ->
  nfa_inv (h, stack) -> dangling_on_stack (h, stack) ->
  dangling_on_stack (h', stack').
Proof.
  unfold nfa_step, connectNfaFrag, alloc, dangling_on_stack. simpl.
  intros H (_ & (n & Hcl & _) & _) Hd.
  destruct (c =? opAnd)%Z; [|destruct (c =? opOr)%Z].
  - bind_inv H. destruct x as [frag2 st2]. bind_inv H. destruct x as [frag1 st1].
    bind_inv H. injection H as <- <-.
    apply Pop_Ok in Hm as ->. apply Pop_Ok in Hm0 as ->.
    destruct (closures_start _ _ _ frag2 Hcl) as [t Ht]; [apply list_elem_of_here|].
    intros a s Ha Hk Ho.
    destruct (connect_loop_lookup _ _ _ _ Hm1 _ _ Ha) as (s0 & Ha0 & Hk0 & _ & Hcase).
    destruct Hcase as [[_ E]|[Hnin ->]]; [congruence|].
    destruct (Hd _ _ Ha0 Hk Ho) as (f & Hf & Hin).
    apply elem_of_cons in Hf as [->|Hf].
    { eexists. split; [apply list_elem_of_here|done]. }
    apply elem_of_cons in Hf as [->|Hf]; [done|].
    exists f. split; [by apply list_elem_of_further|done].
  - bind_inv H. destruct x as [frag2 st2]. bind_inv H. destruct x as [frag1 st1].
    injection H as <- <-.
    apply Pop_Ok in Hm as ->. apply Pop_Ok in Hm0 as ->.
    intros a s Ha Hk Ho.
    apply lookup_app_Some in Ha as [Ha|[_ Ha]].
    + destruct (Hd _ _ Ha Hk Ho) as (f & Hf & Hin).
      apply elem_of_cons in Hf as [->|Hf].
      { eexists. split; [apply list_elem_of_here|]. simpl. apply elem_of_app. by right. }
      apply elem_of_cons in Hf as [->|Hf].
      { eexists. split; [apply list_elem_of_here|]. simpl. apply elem_of_app. by left. }
      exists f. split; [by apply list_elem_of_further|done].
    + apply list_lookup_singleton_Some in Ha as [_ <-]. done.
  - injection H as <- <-. intros a s Ha Hk Ho.
    apply lookup_app_Some in Ha as [Ha|[Hge Ha]].
    + destruct (Hd _ _ Ha Hk Ho) as (f & Hf & Hin).
      exists f. split; [by apply list_elem_of_further|done].
    + apply list_lookup_singleton_Some in Ha as [Hz _].
      eexists. split; [apply list_elem_of_here|]. simpl.
      assert (a = length h) as -> by lia. apply list_elem_of_here.
Qed.

Lemma nfa_loop_dangling str : forall h stack h' stack',
  nfa_loop str (h, stack) = Ok (h', stack') ->
  nfa_inv (h, stack) -> dangling_on_stack (h, stack) ->
  dangling_on_stack (h', stack').
Proof.
  induction str as [|c str IH]; intros h stack h' stack' H Hinv Hd; simpl in H.
  - by injection H as <- <-.
  - bind_inv H. destruct x as [h1 stack1].
    apply (IH _ _ _ _ H).
    + exact (nfa_step_inv h stack c h1 stack1 Hm Hinv).
    + exact (nfa_step_dangling h stack c h1 stack1 Hm Hinv Hd).
Qed.

Lemma connect_loop_char_of_kind outs t h h' :
  connect_loop h outs t = Ok h' -> Forall char_of_kind h -> Forall char_of_kind h'.
Proof.
  intros H F. apply Forall_lookup. intros a st' Ha.
  destruct (connect_loop_lookup _ _ _ _ H _ _ Ha) as (st & Ha0 & Hk & Hc & _).
  pose proof (Forall_lookup_1 _ _ _ _ F Ha0) as Hst.
  unfold char_of_kind in *. rewrite Hk, Hc. done.
Qed.

Lemma nfa_step_char_of_kind h stack c h' stack' :
  nfa_step (h, stack) c = Ok (h', stack') ->
  Forall char_of_kind h -> Forall char_of_kind h'.
Proof.
  unfold nfa_step, connectNfaFrag, alloc. intros H F.
  destruct (c =? opAnd)%Z; [|destruct (c =? opOr)%Z].
  - bind_inv H. destruct x as [frag2 st2]. bind_inv H. destruct x as [frag1 st1].
    bind_inv H. injection H as <- <-. by eapply connect_loop_char_of_kind.
  - bind_inv H. destruct x as [frag2 st2]. bind_inv H. destruct x as [frag1 st1].
    injection H as <- <-. apply Forall_app. split; [done|].
    apply Forall_singleton. by intros _.
  - injection H as <- <-. apply Forall_app. split; [done|].
    apply Forall_singleton. by intros Hne.
Qed.

Lemma nfa_loop_char_of_kind str : forall h stack h' stack',
  nfa_loop str (h, stack) = Ok (h', stack') ->
  Forall char_of_kind h -> Forall char_of_kind h'.
Proof.
  induction str as [|c str IH]; intros h stack h' stack' H F; simpl in H.
  - by injection H as <- <-.
  - bind_inv H. destruct x as [h1 stack1].
    apply (IH _ _ _ _ H). exact (nfa_step_char_of_kind h stack c h1 stack1 Hm F).
Qed.

Lemma nfa_inv_init : nfa_inv ([], []).
Proof.
  split; [constructor|]. split; [exists 0; split; [constructor|simpl; lia]|].
  intros a st Ha. simpl in Ha. by destruct a.
Qed.

(* What [Compile] returns: a start state with a closure, every arrow
   connected, and no char on a split or match state. *)
Lemma Compile_wired pat h start :
  Compile pat = Ok (h, start) ->
  (exists l, closure h start l /\ length l <= length h) /\
  wired h /\ Forall char_of_kind h.
Proof.
  intros H. pose proof H as H0. unfold Compile in H. bind_inv H. rename x into toks.
  bind_inv H. rename x into post.
  apply preprocess_tally in Hm. apply postfix_tally in Hm0 as [Hb Ho].
  unfold nfa, connectNfaFrag, alloc in H.
  bind_inv H. destruct x as [h1 stack].
  bind_inv H. destruct x as [res rest]. bind_inv H. injection H as <- <-.
  apply Pop_Ok in Hm1 as ->.
  pose proof (nfa_loop_depth _ _ _ _ _ Hm0) as Hdepth. simpl in Hdepth.
  assert (rest = []) as -> by (destruct rest; [done|simpl in Hdepth; lia]).
  pose proof (nfa_loop_inv _ _ _ _ _ Hm0 nfa_inv_init) as Hinv.
  pose proof (nfa_loop_dangling _ _ _ _ _ Hm0 nfa_inv_init) as Hd.
  destruct Hinv as (_ & (n & Hcl & Hn) & _). simpl in *.
  inversion Hcl as [|? ? l n' Hc Hcl']; subst.
  split; [|split].
  - destruct (closures_start _ _ _ res Hcl) as [a Ha]; [apply list_elem_of_here|].
    destruct (Compile_bounded _ _ _ H0) as [Hs _].
    rewrite Ha in *. exact (Hs a eq_refl).
  - intros a st Ha Hk.
    destruct (connect_loop_lookup _ _ _ _ Hm2 _ _ Ha) as (st0 & Ha0 & _ & _ & Hcase).
    destruct Hcase as [[_ E]|[Hnin ->]]; [rewrite E; eauto|].
    destruct (out1 st0) as [t|] eqn:Eo; [eauto|]. exfalso.
    apply lookup_app_Some in Ha0 as [Ha0|[_ Ha0]].
    + assert (Hd0 : dangling_on_stack ([], [])).
      { intros a' s Ha'. simpl in Ha'. by destruct a'. }
      destruct (Hd Hd0 a st0 Ha0 Hk Eo) as (g & Hg & Hing).
      apply list_elem_of_singleton in Hg as ->. done.
    + apply list_lookup_singleton_Some in Ha0 as [_ <-]. done.
  - eapply connect_loop_char_of_kind; [exact Hm2|].
    apply Forall_app. split; [|apply Forall_singleton; by intros _].
    eapply nfa_loop_char_of_kind; [exact Hm0|constructor].
Qed.

Section Totality.

Variable growslice : nat -> nat -> nat.
Variable h : heap.
Hypothesis h_bounded : targets_bounded h.
Hypothesis h_wired : wired h.
Hypothesis h_chars : Forall char_of_kind h.
Variable fuel : nat.
Hypothesis fuel_enough : length h <= fuel.

Lemma match_range_total c cur : c <> 0%Z -> forall n i mem next,
  i + n <= len cur -> flat h mem cur -> flat h mem next ->
  exists mem' next', match_range growslice fuel h c cur i n mem next = Ok (mem', next').
Proof.
  intros Hc. induction n as [|n IH]; intros i mem next Hi Fc Fn; simpl; [eauto|].
  destruct (Fc i) as (p & Hp & a & st & -> & Ha & Hk); [lia|].
  unfold index. rewrite Hp. simpl. rewrite Ha. simpl.
  destruct (char st =? c)%Z eqn:E; [|apply IH; [lia|done..]].
  apply Z.eqb_eq in E.
  assert (Hkc : kind st = nfaStateKindChar).
  { destruct (decide (kind st = nfaStateKindChar)) as [|Hne]; [done|].
    apply (Forall_lookup_1 _ _ _ _ h_chars Ha) in Hne. congruence. }
  destruct (h_wired _ _ Ha Hkc) as [t Ht].
  destruct (h_bounded _ _ Ha t Ht) as (l & Hl & Hlen).
  rewrite Ht.
  destruct (appendState_enough growslice h _ l Hl fuel mem next) as (mem1 & next1 & E1);
    [lia|].
  rewrite E1. simpl.
  destruct (appendState_flat _ _ _ _ _ _ _ _ E1 Fn) as [F1 P1].
  apply IH; [lia|by apply P1|done].
Qed.

Lemma match_loop_total str : 0%Z ∉ str -> forall mem cur next,
  flat h mem cur -> flat h mem next ->
  exists r, match_loop growslice fuel h str mem cur next = Ok r.
Proof.
  induction str as [|c str IH]; intros Hz mem cur next Fc Fn; simpl; [eauto|].
  apply not_elem_of_cons in Hz as [Hc Hz].
  destruct (match_range_total c cur ltac:(done) (len cur) 0 mem next)
    as (mem1 & next1 & E); [lia|done..|].
  rewrite E. simpl.
  destruct (match_range_flat _ _ _ _ _ _ _ _ _ _ _ E Fc Fn) as [_ F1].
  apply IH; [done..|by apply flat_empty].
Qed.

Lemma match_found_total mem cur : flat h mem cur -> forall n i,
  i + n <= len cur -> exists b, match_found h mem cur i n = Ok b.
Proof.
  intros Fc. induction n as [|n IH]; intros i Hi; simpl; [eauto|].
  destruct (Fc i) as (p & Hp & a & st & -> & Ha & Hk); [lia|].
  unfold index. rewrite Hp. simpl. rewrite Ha. simpl.
  destruct (decide (kind st = nfaStateKindMatch)); [eauto|]. apply IH. lia.
Qed.

Lemma match_total start l str :
  closure h start l -> length l <= length h -> 0%Z ∉ str ->
  exists b, match_ growslice fuel (h, start) str = Ok b.
Proof.
  intros Hl Hlen Hz. unfold match_, match_states. cbv beta iota delta [make].
  match goal with
  | |- context [appendState _ _ _ ?m ?s start] =>
      destruct (appendState_enough growslice h _ l Hl fuel m s) as (mem0 & cur0 & E0);
        [lia|];
      destruct (appendState_flat _ _ _ _ _ _ _ _ E0) as [F0 P0];
        [by apply flat_empty|]
  end.
  rewrite E0. cbn [mbind outcome_bind].
  match goal with
  | |- context [match_loop _ _ _ _ mem0 cur0 ?n] =>
      destruct (match_loop_total str Hz mem0 cur0 n)
        as ([[mem cur] next] & E); [done|by apply P0, flat_empty|];
      destruct (match_loop_flat _ _ _ _ _ _ _ _ _ _ E) as [F _];
        [done|by apply P0, flat_empty|]
  end.
  rewrite E. cbn [mbind outcome_bind fst].
  apply match_found_total; [done|lia].
Qed.

End Totality.

(* On a compiled automaton and an input without U+0000, [Match] returns a
   boolean, and so does [match_] with any larger fuel. *)
Lemma Match_total_without_nul growslice pat r str :
  Compile pat = Ok r -> 0%Z ∉ str ->
  exists b, Match growslice r str = Ok b /\
            forall fuel, S (length r.1) <= fuel -> match_ growslice fuel r str = Ok b.
Proof.
  destruct r as [h start]. intros H Hz.
  destruct (Compile_bounded _ _ _ H) as [_ Hb].
  destruct (Compile_wired _ _ _ H) as ((l & Hl & Hlen) & Hw & Hc).
  destruct (match_total growslice h Hb Hw Hc (S (length h)) ltac:(lia) start l str)
    as [b E]; [done..|].
  exists b. split; [exact E|]. intros fuel Hf. simpl in Hf.
  rewrite (match_fuel growslice h (S (length h)) fuel start str Hf); [done|].
  by rewrite E.
Qed.

(** ** What enters the active list *)

Section Expansion.

Variable growslice : nat -> nat -> nat.
Variable h : heap.

Lemma backing_new (mem : arrays) (a : list ptr) n :
  backing (mem ++ [a]) {| arr := length mem; len := n |} = a.
Proof. unfold backing. simpl. by rewrite list_lookup_middle. Qed.

Lemma backing_insert (mem : arrays) (a : list ptr) i n :
  i < length mem -> backing (<[i := a]> mem) {| arr := i; len := n |} = a.
Proof. intros Hi. unfold backing. simpl. by rewrite list_lookup_insert_eq. Qed.

Lemma append_elements mem s x :
  len s <= length (backing mem s) ->
  elements (append growslice mem s x).1 (append growslice mem s x).2
    = elements mem s ++ [x] /\
  len (append growslice mem s x).2
    <= length (backing (append growslice mem s x).1 (append growslice mem s x).2).
Proof.
  intros Hcap. unfold append, elements.
  destruct (len s <? length (backing mem s)) eqn:Hlt; cbn [fst snd len].
  - apply Nat.ltb_lt in Hlt.
    pose proof (backing_Some mem s ltac:(lia)) as Hb.
    assert (Hm : arr s < length mem) by (eapply lookup_lt_Some; eauto).
    rewrite backing_insert by done.
    split; [|rewrite length_insert; lia].
    rewrite (take_S_r _ _ x) by (by apply list_lookup_insert_eq).
    by rewrite take_insert_ge.
  - apply Nat.ltb_ge in Hlt. rewrite backing_new.
    assert (Hl : length (take (len s) (backing mem s)) = len s)
      by (rewrite length_take; lia).
    split.
    + rewrite take_app_ge by lia. rewrite Hl.
      replace (S (len s) - len s) with 1 by lia. done.
    + rewrite length_app, Hl. simpl. lia.
Qed.

(* A split state does not enter the list: the closure of the state does. *)
Lemma appendState_elements fuel : forall mem s p mem' s',
  appendState growslice fuel h mem s p = Ok (mem', s') ->
  len s <= length (backing mem s) ->
  exists l, closure h p l /\ elements mem' s' = elements mem s ++ l /\
            len s' <= length (backing mem' s').
Proof.
  induction fuel as [|fuel IH]; intros mem s p mem' s' H Hcap; simpl in H; [discriminate|].
  bind_inv H. apply deref_Ok in Hm as (a & -> & Ha).
  destruct (decide (kind x = nfaStateKindSplit)) as [Hk|Hk].
  - bind_inv H. destruct x0 as [mem1 s1].
    destruct (IH _ _ _ _ _ Hm Hcap) as (l1 & Hc1 & He1 & Hcap1).
    destruct (IH _ _ _ _ _ H Hcap1) as (l2 & Hc2 & He2 & Hcap2).
    exists (l1 ++ l2). split; [by eapply closure_split|].
    split; [|done]. by rewrite He2, He1, app_assoc.
  - injection H as H. exists [Some a]. split; [by eapply closure_leaf|].
    destruct (append_elements mem s (Some a) Hcap) as [He Hc].
    rewrite H in He, Hc. done.
Qed.

Lemma active_initial fuel start l :
  active growslice fuel (h, start) [] = Ok l -> closure h start l.
Proof.
  unfold active, match_states. cbv beta iota delta [make]. intros H.
  bind_inv H. destruct x as [[mem cur] next]. injection H as <-.
  bind_inv Hm. destruct x as [mem0 cur0]. injection Hm as <- <- _.
  apply appendState_elements in Hm0 as (l & Hc & He & _); [|simpl; lia].
  by rewrite He.
Qed.

End Expansion.

(** C8: in every run of [match_], after every number of steps, the active
    list holds only char-consuming and match states of the automaton, never
    a split state (and never nil).  [appendState] stores a state only in the
    branch where its kind is not split; for a split state it stores the
    expansion of both children instead, so the list starts as the closure of
    the start state. *)
Theorem C8_active_list_is_flat growslice fuel (h : heap) (start : ptr) str (l : list ptr) :
  active growslice fuel (h, start) str = Ok l ->
  Forall (nonsplit h) l /\ (str = [] -> closure h start l).
Proof.
  intros H. split.
  - unfold active in H. bind_inv H. destruct x as [[mem cur] next].
    injection H as <-.
    apply match_states_flat in Hm as [F _]. by apply flat_elements.
  - intros ->. by eapply active_initial.
Qed.

Lemma C8_active_list_is_flat_witness :
  active (fun _ n => n) 11 test_regex (runes "a") = Ok [Some 1; Some 2; Some 5] /\
  Forall (nonsplit test_regex.1) [Some 1; Some 2; Some 5].
Proof.
  split; [vm_compute; reflexivity|].
  apply (C8_active_list_is_flat (fun _ n => n) 11 test_regex.1 test_regex.2 (runes "a")).
  vm_compute; reflexivity.
Defined.

(** ** Well-formed patterns compile

    [Compile] returns an automaton for every pattern that writes down an
    expression over literals, concatenation, alternation and groups. *)

Lemma preprocess_loop_app p1 : forall p2 st,
  preprocess_loop (p1 ++ p2) st = preprocess_loop p1 st ≫= preprocess_loop p2.
Proof.
  induction p1 as [|c p1 IH]; intros p2 st; simpl; [done|].
  destruct (preprocess_step st c); simpl; [apply IH|done..].
Qed.

Lemma isOperator_spec c :
  isOperator c = (c =? opGroupStart)%Z || (c =? opGroupEnd)%Z || isBinary c.
Proof.
  unfold isOperator, isBinary, operators. cbn [isOperator_loop].
  rewrite !(Z.eqb_sym _ c).
  by destruct (c =? opGroupStart)%Z, (c =? opGroupEnd)%Z, (c =? opAnd)%Z, (c =? opOr)%Z.
Qed.

Lemma isOperator_literal c :
  isOperator c = false ->
  (c =? opGroupStart)%Z = false /\ (c =? opGroupEnd)%Z = false /\
  (c =? opAnd)%Z = false /\ (c =? opOr)%Z = false.
Proof.
  rewrite isOperator_spec. unfold isBinary.
  by destruct (c =? opGroupStart)%Z, (c =? opGroupEnd)%Z, (c =? opAnd)%Z, (c =? opOr)%Z.
Qed.

Lemma pre_reads_lit c : isOperator c = false -> pre_reads [c] [c].
Proof.
  intros Hc st. apply isOperator_literal in Hc as (E1 & E2 & _ & E4).
  simpl. unfold preprocess_step. rewrite E1, E2, E4. simpl.
  eexists. split; [done|]. simpl. repeat split.
  destruct (wantsAnd st); by rewrite <- ?app_assoc.
Qed.

Lemma pre_reads_group pat toks :
  pre_reads pat toks ->
  pre_reads ([opGroupStart] ++ pat ++ [opGroupEnd]) ([opGroupStart] ++ toks ++ [opGroupEnd]).
Proof.
  intros Hp st. cbn [app preprocess_loop]. unfold preprocess_step at 1. simpl.
  rewrite preprocess_loop_app.
  match goal with |- context [preprocess_loop pat ?s] => destruct (Hp s)
    as (st1 & E1 & Hr1 & Hg1 & Hw1 & Hc1 & Hl1) end.
  rewrite E1. simpl. unfold preprocess_step. simpl. rewrite Hl1.
  eexists. split; [done|]. simpl in *. repeat split; [|lia].
  rewrite Hr1. destruct (wantsAnd st); by rewrite <- ?app_assoc.
Qed.

Lemma pre_reads_cat pat1 toks1 pat2 toks2 :
  pre_reads pat1 toks1 -> pre_reads pat2 toks2 ->
  pre_reads (pat1 ++ pat2) (toks1 ++ [opAnd] ++ toks2).
Proof.
  intros H1 H2 st. rewrite preprocess_loop_app.
  destruct (H1 st) as (st1 & E1 & Hr1 & Hg1 & Hw1 & Hc1 & Hl1). rewrite E1. simpl.
  destruct (H2 st1) as (st2 & E2 & Hr2 & Hg2 & Hw2 & Hc2 & Hl2).
  exists st2. split; [done|]. repeat split; try done; [|lia].
  rewrite Hr2, Hw1, Hr1. by rewrite <- !app_assoc.
Qed.

Lemma pre_reads_alt pat1 toks1 pat2 toks2 :
  pre_reads pat1 toks1 -> pre_reads pat2 toks2 ->
  pre_reads (pat1 ++ [opOr] ++ pat2) (toks1 ++ [opOr] ++ toks2).
Proof.
  intros H1 H2 st. rewrite preprocess_loop_app.
  destruct (H1 st) as (st1 & E1 & Hr1 & Hg1 & Hw1 & Hc1 & Hl1). rewrite E1.
  cbn [mbind outcome_bind app preprocess_loop]. unfold preprocess_step at 1. simpl.
  rewrite Hc1. simpl.
  match goal with |- context [preprocess_loop pat2 ?s] => destruct (H2 s)
    as (st2 & E2 & Hr2 & Hg2 & Hw2 & Hc2 & Hl2) end.
  exists st2. split; [done|]. simpl in *. repeat split; try done; [|lia].
  rewrite Hr2, Hr1. by rewrite <- !app_assoc.
Qed.

Lemma pre_reads_grouped e pat toks :
  pre_reads pat toks -> pre_reads (grouped e pat) (grouped e toks).
Proof. destruct e; simpl; try done. apply pre_reads_group. Qed.

Lemma pre_reads_pattern e : literals_ok e -> pre_reads (pattern_of e) (tokens_of e).
Proof.
  induction e as [c|e1 IH1 e2 IH2|e1 IH1 e2 IH2|e IH]; simpl.
  - apply pre_reads_lit.
  - intros [H1 H2]. apply pre_reads_cat; apply pre_reads_grouped; auto.
  - intros [H1 H2]. apply pre_reads_alt; auto.
  - intros H. apply pre_reads_group; auto.
Qed.

Lemma preprocess_pattern e :
  literals_ok e -> preprocess (pattern_of e) = Ok (tokens_of e).
Proof.
  intros H. unfold preprocess.
  destruct (pre_reads_pattern e H preprocess_init) as (st & E & Hr & Hg & _).
  rewrite E. simpl. rewrite Hg. simpl. by rewrite Hr.
Qed.

Lemma wf_reads_lit c : isOperator c = false -> wf_reads [c].
Proof.
  intros Hc d rest. apply isOperator_literal in Hc as (E1 & E2 & E3 & E4).
  simpl. unfold isBinary. by rewrite E1, E2, E3, E4.
Qed.

Lemma wf_reads_group toks :
  wf_reads toks -> wf_reads ([opGroupStart] ++ toks ++ [opGroupEnd]).
Proof.
  intros H d rest. cbn [app]. cbn [wf_tokens]. simpl.
  by rewrite <- app_assoc, H.
Qed.

Lemma wf_reads_binary toks1 c toks2 :
  isBinary c = true -> wf_reads toks1 -> wf_reads toks2 ->
  wf_reads (toks1 ++ [c] ++ toks2).
Proof.
  intros Hc H1 H2 d rest. rewrite <- !app_assoc, H1. cbn [app wf_tokens].
  rewrite Hc. unfold isBinary in Hc.
  assert ((c =? opGroupStart)%Z = false /\ (c =? opGroupEnd)%Z = false) as [-> ->].
  { apply orb_true_iff in Hc as [Hc|Hc]; apply Z.eqb_eq in Hc; by subst c. }
  simpl. apply H2.
Qed.

Lemma wf_reads_grouped e toks : wf_reads toks -> wf_reads (grouped e toks).
Proof. destruct e; simpl; try done. apply wf_reads_group. Qed.

Lemma wf_reads_tokens e : literals_ok e -> wf_reads (tokens_of e).
Proof.
  induction e as [c|e1 IH1 e2 IH2|e1 IH1 e2 IH2|e IH]; simpl.
  - apply wf_reads_lit.
  - intros [H1 H2]. apply wf_reads_binary; [done|..]; apply wf_reads_grouped; auto.
  - intros [H1 H2]. apply wf_reads_binary; [done|..]; auto.
  - intros H. apply wf_reads_group; auto.
Qed.

Lemma wf_tokens_of e : literals_ok e -> wf_tokens 0 false (tokens_of e) = true.
Proof.
  intros H. pose proof (wf_reads_tokens e H 0 []) as E.
  by rewrite app_nil_r in E.
Qed.

Lemma rpn_depth_app post1 : forall post2 d,
  rpn_depth (post1 ++ post2) d = rpn_depth post1 d ≫= rpn_depth post2.
Proof.
  induction post1 as [|c post1 IH]; intros post2 d; simpl; [done|].
  destruct (isBinary c); [|apply IH].
  destruct d as [|[|d]]; [done..|apply IH].
Qed.

Lemma rpn_depth_emit result top m n :
  isBinary top = true ->
  rpn_depth result 0 = Some m -> m = n + 2 ->
  rpn_depth (result ++ [top]) 0 = Some (n + 1).
Proof.
  intros Hb Hr ->. rewrite rpn_depth_app, Hr. simpl. rewrite Hb.
  replace (n + 2) with (S (S n)) by lia. f_equal. lia.
Qed.

Lemma binary_not_open c : isBinary c = true -> isOpen c = false.
Proof.
  unfold isBinary, isOpen. intros Hc.
  apply orb_true_iff in Hc as [Hc|Hc]; apply Z.eqb_eq in Hc; by subst c.
Qed.

Lemma open_not_binary : isBinary opGroupStart = false /\ isOpen opGroupStart = true.
Proof. done. Qed.

Lemma postfix_groupEnd_wf stack : forall result,
  stack_ok stack -> 1 <= tally isOpen stack ->
  rpn_depth result 0 = Some (tally isBinary stack + 1) ->
  exists stack' result',
    postfix_groupEnd stack result = Ok (stack', result') /\
    stack_ok stack' /\ tally isOpen stack' + 1 = tally isOpen stack /\
    rpn_depth result' 0 = Some (tally isBinary stack' + 1).
Proof.
  induction stack as [|top rest IH]; intros result Hok Hd Hr; simpl in *; [lia|].
  inversion_clear Hok as [|? ? Htop Hrest].
  destruct (top =? opGroupStart)%Z eqn:E.
  - apply Z.eqb_eq in E as ->. simpl in *.
    exists rest, result. repeat split; try done. lia.
  - destruct Htop as [->|Hb]; [done|].
    rewrite Hb, (binary_not_open _ Hb) in *. simpl in *.
    destruct (IH (result ++ [top])) as (stack' & result' & E' & Hok' & Hd' & Hr');
      [done..| |eauto 10].
    eapply rpn_depth_emit; [done|exact Hr|lia].
Qed.

Lemma precedence_open c :
  isBinary c = true -> (precedence opGroupStart >=? precedence c)%Z = false.
Proof.
  unfold isBinary. intros Hc.
  apply orb_true_iff in Hc as [Hc|Hc]; apply Z.eqb_eq in Hc; by subst c.
Qed.

Lemma postfix_operator_wf c stack : forall result,
  isBinary c = true -> stack_ok stack ->
  rpn_depth result 0 = Some (tally isBinary stack + 1) ->
  stack_ok (postfix_operator c stack result).1 /\
  tally isOpen (postfix_operator c stack result).1 = tally isOpen stack /\
  rpn_depth (postfix_operator c stack result).2 0
    = Some (tally isBinary (postfix_operator c stack result).1).
Proof.
  intros result Hc. revert result.
  induction stack as [|top rest IH]; intros result Hok Hr; simpl in *.
  - rewrite Hc, (binary_not_open _ Hc). simpl.
    split; [apply Forall_singleton; by right|]. split; [done|]. rewrite Hr. f_equal; lia.
  - inversion_clear Hok as [|? ? Htop Hrest].
    destruct (precedence top >=? precedence c)%Z eqn:E.
    + destruct Htop as [->|Hb]; [by rewrite precedence_open in E|].
      rewrite Hb, (binary_not_open _ Hb) in *. simpl in *.
      apply IH; [done|].
      eapply rpn_depth_emit; [done|exact Hr|lia].
    + simpl. rewrite Hc, (binary_not_open _ Hc). simpl.
      split; [constructor; [by right|by constructor]|].
      split; [done|]. rewrite Hr. f_equal; lia.
Qed.

Lemma postfix_loop_wf toks : forall d a stack result,
  wf_tokens d a toks = true ->
  stack_ok stack -> tally isOpen stack = d ->
  rpn_depth result 0 = Some (tally isBinary stack + (if a then 1 else 0)) ->
  exists stack' result',
    postfix_loop toks (stack, result) = Ok (stack', result') /\
    stack_ok stack' /\ tally isOpen stack' = 0 /\
    rpn_depth result' 0 = Some (tally isBinary stack' + 1).
Proof.
  induction toks as [|c toks IH]; intros d a stack result Hwf Hok Hd Hr.
  - simpl in *. apply andb_true_iff in Hwf as [-> Hz]. apply Nat.eqb_eq in Hz.
    exists stack, result. repeat split; try done. lia.
  - cbn [wf_tokens] in Hwf. cbn [postfix_loop]. unfold postfix_step.
    rewrite isOperator_spec.
    destruct (c =? opGroupStart)%Z eqn:E1; [|destruct (c =? opGroupEnd)%Z eqn:E2;
      [|destruct (isBinary c) eqn:E3]]; simpl.
    + apply Z.eqb_eq in E1 as ->. apply andb_true_iff in Hwf as [Ha Hwf].
      apply negb_true_iff in Ha as ->.
      apply (IH _ _ _ _ Hwf); simpl; [constructor; [by left|done]|lia|done].
    + apply andb_true_iff in Hwf as [-> Hwf].
      destruct d as [|d]; [done|].
      destruct (postfix_groupEnd_wf stack result) as (st1 & r1 & E & Hok1 & Hd1 & Hr1);
        [done|lia|done|].
      rewrite E. simpl. apply (IH _ _ _ _ Hwf); [done|lia|done].
    + apply andb_true_iff in Hwf as [-> Hwf].
      destruct (postfix_operator_wf c stack result E3 Hok Hr) as (Hok1 & Hd1 & Hr1).
      destruct (postfix_operator c stack result) as [st1 r1]. simpl in *.
      apply (IH _ _ _ _ Hwf); [done|lia|]. rewrite Hr1. f_equal; lia.
    + apply andb_true_iff in Hwf as [Ha Hwf]. apply negb_true_iff in Ha as ->.
      apply (IH _ _ _ _ Hwf); [done..|].
      rewrite rpn_depth_app, Hr. simpl. rewrite E3. f_equal; lia.
Qed.

Lemma rpn_depth_flush stack :
  stack_ok stack -> tally isOpen stack = 0 ->
  rpn_depth stack (tally isBinary stack + 1) = Some 1.
Proof.
  induction stack as [|top rest IH]; intros Hok Hd; simpl in *; [done|].
  inversion_clear Hok as [|? ? Htop Hrest].
  destruct Htop as [->|Hb]; [simpl in Hd; lia|].
  rewrite Hb, (binary_not_open _ Hb) in *. simpl in *.
  replace (tally isBinary rest + 1) with (S (tally isBinary rest)) by lia.
  replace (S (tally isBinary rest)) with (tally isBinary rest + 1) by lia.
  by apply IH.
Qed.

(* [postfix] turns a well-formed token stream into a postfix stream that
   leaves one fragment. *)
Lemma postfix_wf toks :
  wf_tokens 0 false toks = true ->
  exists post, postfix toks = Ok post /\ rpn_depth post 0 = Some 1.
Proof.
  intros Hwf. unfold postfix.
  destruct (postfix_loop_wf toks 0 false [] []) as (stack & result & E & Hok & Hd & Hr);
    [done|constructor|done..|].
  rewrite E. simpl. eexists. split; [done|].
  rewrite rpn_depth_app, Hr. simpl. by apply rpn_depth_flush.
Qed.

Lemma connect_loop_ok outs t : forall h,
  Forall (is_slot h) outs -> exists h', connect_loop h outs t = Ok h'.
Proof.
  induction outs as [|out outs IH]; intros h Hs; simpl; [eauto|].
  inversion_clear Hs as [|? ? Hout Hs'].
  pose proof Hout as (st & Hst & Hk). unfold set_out1 at 1. rewrite Hst. simpl.
  apply IH. revert Hs'. apply List.Forall_impl. intros o.
  apply is_slot_mono. eapply heap_le_set_out1; [|done].
  unfold set_out1. by rewrite Hst.
Qed.

Lemma nfa_loop_ok post : forall h stack k,
  rpn_depth post (length stack) = Some k -> nfa_inv (h, stack) ->
  exists h' stack',
    nfa_loop post (h, stack) = Ok (h', stack') /\ length stack' = k /\
    nfa_inv (h', stack').
Proof.
  induction post as [|c post IH]; intros h stack k Hd Hinv.
  - simpl in *. injection Hd as <-. eauto.
  - cbn [rpn_depth] in Hd. cbn [nfa_loop].
    assert (exists h1 stack1, nfa_step (h, stack) c = Ok (h1, stack1) /\
              rpn_depth post (length stack1) = Some k) as (h1 & stack1 & E & Hd1).
    { unfold nfa_step, isBinary, connectNfaFrag, alloc in *.
      destruct (c =? opAnd)%Z; [|destruct (c =? opOr)%Z]; simpl in *.
      - destruct stack as [|frag2 [|frag1 rest]]; try done. simpl in *.
        destruct Hinv as (Hslots & _). simpl in Hslots.
        inversion_clear Hslots as [|? ? _ Hslots']. inversion_clear Hslots' as [|? ? Hs1 _].
        destruct (connect_loop_ok (outs frag1) (start frag2) h Hs1) as [h1 E].
        rewrite E. simpl. eauto.
      - destruct stack as [|frag2 [|frag1 rest]]; try done. simpl in *. eauto.
      - eauto. }
    rewrite E. simpl. apply IH; [done|].
    exact (nfa_step_inv h stack c h1 stack1 E Hinv).
Qed.

Lemma nfa_ok post : rpn_depth post 0 = Some 1 -> exists r, nfa post = Ok r.
Proof.
  intros Hd. unfold nfa, connectNfaFrag, alloc.
  destruct (nfa_loop_ok post [] [] 1 Hd nfa_inv_init) as (h & stack & E & Hlen & Hinv).
  rewrite E. simpl. destruct stack as [|res [|]]; try done. simpl.
  destruct Hinv as (Hslots & _). simpl in Hslots.
  inversion_clear Hslots as [|? ? Hs _].
  edestruct (connect_loop_ok (outs res)) as [h' E']; [|rewrite E'; simpl; eauto].
  revert Hs. apply List.Forall_impl. intros o. apply is_slot_mono, heap_le_alloc.
Qed.

(* For every expression over literals that are not reserved symbols, the
   three stages complete on its pattern. *)
Lemma Compile_pattern e :
  literals_ok e -> exists r, Compile (pattern_of e) = Ok r.
Proof.
  intros H. unfold Compile. rewrite (preprocess_pattern e H). simpl.
  destruct (postfix_wf _ (wf_tokens_of e H)) as (post & E & Hd).
  rewrite E. simpl. by apply nfa_ok.
Qed.

(** ** Precedence *)

Lemma postfix_step_lit c stack result :
  isOperator c = false -> postfix_step (stack, result) c = Ok (stack, result ++ [c]).
Proof. intros H. unfold postfix_step. by rewrite H. Qed.

(* For any three literals, [ab|c] is rewritten as (a.b)|c and [a|bc] as
   a|(b.c). *)
Lemma postfix_precedence a b c :
  isOperator a = false -> isOperator b = false -> isOperator c = false ->
  (pre ← preprocess [a; b; opOr; c]; postfix pre) = Ok [a; b; opAnd; c; opOr] /\
  (pre ← preprocess [a; opOr; b; c]; postfix pre) = Ok [a; b; c; opAnd; opOr].
Proof.
  intros Ha Hb Hc. split.
  - change [a; b; opOr; c] with (pattern_of (Alt (Cat (Lit a) (Lit b)) (Lit c))).
    rewrite preprocess_pattern by done.
    unfold postfix. cbn [tokens_of grouped app postfix_loop mbind outcome_bind].
    rewrite (postfix_step_lit a) by done. cbn [mbind outcome_bind].
    change (postfix_step ([], [] ++ [a]) opAnd) with (Ok ([opAnd], [] ++ [a])).
    cbn [mbind outcome_bind]. rewrite (postfix_step_lit b) by done.
    cbn [mbind outcome_bind].
    change (postfix_step ([opAnd], ([] ++ [a]) ++ [b]) opOr)
      with (Ok ([opOr], (([] ++ [a]) ++ [b]) ++ [opAnd])).
    cbn [mbind outcome_bind]. rewrite (postfix_step_lit c) by done. done.
  - change [a; opOr; b; c] with (pattern_of (Alt (Lit a) (Cat (Lit b) (Lit c)))).
    rewrite preprocess_pattern by done.
    unfold postfix. cbn [tokens_of grouped app postfix_loop mbind outcome_bind].
    rewrite (postfix_step_lit a) by done. cbn [mbind outcome_bind].
    change (postfix_step ([], [] ++ [a]) opOr) with (Ok ([opOr], [] ++ [a])).
    cbn [mbind outcome_bind]. rewrite (postfix_step_lit b) by done.
    cbn [mbind outcome_bind].
    change (postfix_step ([opOr], ([] ++ [a]) ++ [b]) opAnd)
      with (Ok ([opAnd; opOr], ([] ++ [a]) ++ [b])).
    cbn [mbind outcome_bind]. rewrite (postfix_step_lit c) by done. done.
Qed.

(** C3 (as amended): for every pattern that writes down an expression over
    literals other than the four reserved symbols, concatenation, alternation
    and groups, [preprocess] succeeds and the two later stages complete:
    [postfix] returns a postfix stream, [nfa] returns an automaton from it,
    and so does [Compile]. *)
Theorem C3_stages_complete_on_expressions (e : regexp) :
  literals_ok e ->
  exists toks post r,
    preprocess (pattern_of e) = Ok toks /\ postfix toks = Ok post /\
    nfa post = Ok r /\ Compile (pattern_of e) = Ok r.
Proof.
  intros H.
  destruct (postfix_wf _ (wf_tokens_of e H)) as (post & E & Hd).
  destruct (nfa_ok post Hd) as [r Er].
  exists (tokens_of e), post, r.
  split; [by apply preprocess_pattern|]. split; [done|]. split; [done|].
  unfold Compile. rewrite (preprocess_pattern e H). simpl. by rewrite E.
Qed.

Lemma C3_stages_complete_on_expressions_witness :
  literals_ok test_pattern /\
  pattern_of test_pattern = runes "a(b|cd|ef)g" /\
  exists toks post r,
    preprocess (runes "a(b|cd|ef)g") = Ok toks /\ postfix toks = Ok post /\
    nfa post = Ok r /\ Compile (runes "a(b|cd|ef)g") = Ok r.
Proof.
  assert (H : literals_ok test_pattern) by (simpl; repeat split; reflexivity).
  split; [exact H|]. split; [reflexivity|].
  exact (C3_stages_complete_on_expressions test_pattern H).
Defined.

(** * Further properties of the code *)

(** ** preprocess *)

Lemma strip_markers_app l1 l2 :
  strip_markers (l1 ++ l2) = strip_markers l1 ++ strip_markers l2.
Proof. apply List.filter_app. Qed.

Lemma preprocess_step_strip st c st' :
  preprocess_step st c = Ok st' ->
  strip_markers (result st') = strip_markers (result st) ++ strip_markers [c].
Proof.
  unfold preprocess_step. intros H.
  destruct (c =? opGroupStart)%Z; [|destruct (c =? opGroupEnd)%Z;
    [|destruct (c =? opOr)%Z]];
    repeat match type of H with
    | (if ?b then _ else _) = _ => destruct b; try discriminate
    end;
    injection H as <-; cbn [result];
    destruct (wantsAnd st); rewrite ?strip_markers_app; cbn [strip_markers List.filter];
    try done; by rewrite app_nil_r.
Qed.

Lemma preprocess_loop_strip pat : forall st st',
  preprocess_loop pat st = Ok st' ->
  strip_markers (result st') = strip_markers (result st) ++ strip_markers pat.
Proof.
  induction pat as [|c pat IH]; intros st st' H; simpl in H.
  - injection H as <-. by rewrite app_nil_r.
  - bind_inv H. apply preprocess_step_strip in Hm. apply IH in H.
    rewrite H, Hm, <- app_assoc. f_equal.
    change (c :: pat) with ([c] ++ pat). by rewrite strip_markers_app.
Qed.

Lemma strip_markers_id l : opAnd ∉ l -> strip_markers l = l.
Proof.
  induction l as [|c l IH]; intros Hn; [done|].
  apply not_elem_of_cons in Hn as [Hc Hn]. cbn [strip_markers List.filter].
  destruct (c =? opAnd)%Z eqn:E; [apply Z.eqb_eq in E; congruence|].
  simpl. f_equal. by apply IH.
Qed.

(** X1: [preprocess] only inserts concatenation markers: it keeps every
    rune of the pattern, in order, and adds nothing else.  Taking the markers
    out of its result gives the pattern without its [&]; for a pattern
    without [&], the pattern itself. *)
Theorem X1_preprocess_only_inserts_markers (pat toks : list rune) :
  preprocess pat = Ok toks ->
  strip_markers toks = strip_markers pat /\
  (opAnd ∉ pat -> strip_markers toks = pat).
Proof.
  unfold preprocess. intros H. bind_inv H.
  destruct (negb (groupStackCounter x =? 0)%Z); [discriminate|]. injection H as <-.
  apply preprocess_loop_strip in Hm. simpl in Hm. split; [done|].
  intros Hn. by rewrite Hm, strip_markers_id.
Qed.

Lemma X1_preprocess_only_inserts_markers_witness :
  preprocess (runes "a(b|cd|ef)g") = Ok (runes "a&(b|c&d|e&f)&g") /\
  strip_markers (runes "a&(b|c&d|e&f)&g") = runes "a(b|cd|ef)g".
Proof.
  assert (H : preprocess (runes "a(b|cd|ef)g") = Ok (runes "a&(b|c&d|e&f)&g"))
    by (vm_compute; reflexivity).
  split; [exact H|].
  destruct (X1_preprocess_only_inserts_markers _ _ H) as [_ Hk].
  apply Hk. vm_compute. intros Hin.
  repeat (apply elem_of_cons in Hin as [Hin|Hin]; [discriminate|]).
  by apply elem_of_nil in Hin.
Defined.

(* The flags of [preprocess] only remember the rune read last. *)
Lemma preprocess_loop_misuse pat : forall x st,
  canOr st = negb ((x =? opGroupStart)%Z || (x =? opOr)%Z) ->
  lastOr st = (x =? opOr)%Z ->
  if misuse_after x pat then preprocess_loop pat st = Panic AlternationMisuse
  else exists st', preprocess_loop pat st = Ok st'.
Proof.
  induction pat as [|y pat IH]; intros x st Hc Hl; cbn [misuse_after preprocess_loop].
  - eauto.
  - unfold preprocess_step, bad_pair. rewrite Hc, Hl.
    destruct (y =? opGroupStart)%Z eqn:E1; [|destruct (y =? opGroupEnd)%Z eqn:E2;
      [|destruct (y =? opOr)%Z eqn:E3]].
    + apply Z.eqb_eq in E1 as ->. cbn [mbind outcome_bind].
      replace ((opGroupStart =? opOr)%Z) with false by done.
      replace ((opGroupStart =? opGroupEnd)%Z) with false by done.
      rewrite andb_false_r. cbn [orb andb]. by apply IH.
    + apply Z.eqb_eq in E2 as ->.
      replace ((opGroupEnd =? opOr)%Z) with false by done.
      rewrite ?Z.eqb_refl, ?andb_true_r. cbn [orb andb].
      destruct (x =? opOr)%Z; cbn [mbind outcome_bind orb]; [done|by apply IH].
    + apply Z.eqb_eq in E3 as ->.
      replace ((opOr =? opGroupEnd)%Z) with false by done.
      rewrite andb_false_r, orb_false_r, negb_involutive. cbn [andb].
      destruct ((x =? opGroupStart)%Z || (x =? opOr)%Z);
        cbn [mbind outcome_bind orb]; [done|by apply IH].
    + rewrite andb_false_r. cbn [orb andb mbind outcome_bind].
      apply IH; cbn [canOr lastOr]; by rewrite ?E1, ?E3.
Qed.

Lemma or_misused_after pat : or_misused pat = misuse_after opGroupStart pat.
Proof.
  destruct pat as [|x pat]; [done|]. cbn [or_misused misuse_after]. f_equal.
  unfold bad_pair. rewrite Z.eqb_refl.
  replace ((opGroupStart =? opOr)%Z) with false by done.
  by rewrite andb_true_r, orb_false_r.
Qed.

Lemma preprocess_loop_or_misused pat :
  if or_misused pat then preprocess_loop pat preprocess_init = Panic AlternationMisuse
  else exists st', preprocess_loop pat preprocess_init = Ok st'.
Proof. rewrite or_misused_after. by apply preprocess_loop_misuse. Qed.

Lemma preprocess_loop_counter pat : forall st st',
  preprocess_loop pat st = Ok st' ->
  groupStackCounter st'
  = (groupStackCounter st + Z.of_nat (tally isOpen pat) - Z.of_nat (tally isClose pat))%Z.
Proof.
  induction pat as [|c pat IH]; intros st st' H; simpl in H.
  - injection H as <-. simpl. lia.
  - bind_inv H. apply IH in H. rewrite H. clear H IH.
    unfold preprocess_step in Hm. cbn [tally]. unfold isOpen, isClose.
    destruct (c =? opGroupStart)%Z eqn:E1; [|destruct (c =? opGroupEnd)%Z eqn:E2;
      [|destruct (c =? opOr)%Z]];
      repeat match type of Hm with
      | (if ?b then _ else _) = _ => destruct b; try discriminate
      end;
      injection Hm as <-; cbn [groupStackCounter];
      try (apply Z.eqb_eq in E1; subst c); try (apply Z.eqb_eq in E2; subst c);
      simpl; lia.
Qed.

(** X2: [preprocess] fails with the alternation misuse exactly for the
    patterns that start with an alternation, have an alternation right after
    a group start or after another alternation, or have a group end right
    after an alternation.  (An alternation that ends the pattern is not among
    them.) *)
Theorem X2_alternation_misuse_iff (pat : list rune) :
  preprocess pat = Panic AlternationMisuse <-> or_misused pat = true.
Proof.
  unfold preprocess. pose proof (preprocess_loop_or_misused pat) as H.
  destruct (or_misused pat).
  - rewrite H. done.
  - destruct H as [st ->]. simpl.
    destruct (negb (groupStackCounter st =? 0)%Z); split; discriminate.
Qed.

(** X3: [preprocess] fails with the group mismatch exactly when there is no
    alternation misuse and the pattern has not as many group starts as group
    ends; it returns a token stream exactly when there is no misuse and the
    two counts agree, wherever the group ends stand. *)
Theorem X3_group_mismatch_iff (pat : list rune) :
  (preprocess pat = Panic GroupMismatch <->
   or_misused pat = false /\ tally isOpen pat <> tally isClose pat) /\
  ((exists toks, preprocess pat = Ok toks) <->
   or_misused pat = false /\ tally isOpen pat = tally isClose pat).
Proof.
  unfold preprocess. pose proof (preprocess_loop_or_misused pat) as H.
  destruct (or_misused pat).
  - rewrite H. simpl. split; split; try discriminate; try (by intros [[=] _]).
    intros [toks [=]].
  - destruct H as [st H]. rewrite H. simpl.
    apply preprocess_loop_counter in H. simpl in H.
    destruct (groupStackCounter st =? 0)%Z eqn:E; simpl.
    + apply Z.eqb_eq in E. split; split; try discriminate.
      * intros [_ Hne]. lia.
      * intros _. split; [done|lia].
      * eauto.
    + apply Z.eqb_neq in E. split; split; try done.
      * intros _. split; [done|lia].
      * intros [toks [=]].
      * intros [_ Heq]. lia.
Qed.

(** X4: on the pattern of an expression over literals that are not reserved
    symbols, [preprocess] returns the pattern with one marker between the two
    operands of each concatenation, and no other marker. *)
Theorem X4_preprocess_marks_concatenations (e : regexp) :
  literals_ok e -> preprocess (pattern_of e) = Ok (tokens_of e).
Proof. apply preprocess_pattern. Qed.

Lemma X4_preprocess_marks_concatenations_witness :
  literals_ok test_pattern /\
  preprocess (runes "a(b|cd|ef)g") = Ok (runes "a&(b|c&d|e&f)&g").
Proof.
  assert (H : literals_ok test_pattern) by (simpl; repeat split; reflexivity).
  split; [exact H|]. exact (X4_preprocess_marks_concatenations test_pattern H).
Defined.

(** ** postfix *)

Lemma binary_is_operator c : isBinary c = true -> isOperator c = true.
Proof. intros H. rewrite isOperator_spec, H. apply orb_true_r. Qed.

(* A group end moves the binary operators above the innermost group start
   to the output and drops that group start. *)
Lemma postfix_groupEnd_shape stack : forall result stack' result',
  stack_ok stack ->
  postfix_groupEnd stack result = Ok (stack', result') ->
  exists ops, Forall (fun c => isBinary c = true) ops /\
    stack = ops ++ opGroupStart :: stack' /\ result' = result ++ ops.
Proof.
  induction stack as [|top rest IH]; intros result stack' result' Hok H; simpl in H;
    [discriminate|].
  inversion_clear Hok as [|? ? Htop Hrest].
  destruct (top =? opGroupStart)%Z eqn:E.
  - apply Z.eqb_eq in E as ->. injection H as <- <-.
    exists []. by rewrite app_nil_r.
  - destruct Htop as [->|Hb]; [done|].
    destruct (IH _ _ _ Hrest H) as (ops & Hops & -> & ->).
    exists (top :: ops). split; [by constructor|]. by rewrite <- app_assoc.
Qed.

Lemma postfix_groupEnd_panic stack : forall result,
  stack_ok stack -> tally isOpen stack = 0 ->
  postfix_groupEnd stack result = Panic IndexOutOfRange.
Proof.
  induction stack as [|top rest IH]; intros result Hok Hd; simpl; [done|].
  inversion_clear Hok as [|? ? Htop Hrest].
  destruct Htop as [->|Hb]; [simpl in Hd; lia|].
  simpl in Hd. rewrite (binary_not_open _ Hb) in Hd.
  destruct (top =? opGroupStart)%Z eqn:E.
  - apply Z.eqb_eq in E as ->. done.
  - by apply IH.
Qed.

Lemma postfix_groupEnd_found stack : forall result,
  stack_ok stack -> 0 < tally isOpen stack ->
  exists stack' result', postfix_groupEnd stack result = Ok (stack', result').
Proof.
  induction stack as [|top rest IH]; intros result Hok Hd; simpl in *; [lia|].
  inversion_clear Hok as [|? ? Htop Hrest].
  destruct (top =? opGroupStart)%Z eqn:E; [eauto|].
  destruct Htop as [->|Hb]; [done|].
  rewrite (binary_not_open _ Hb) in Hd. by apply IH.
Qed.

(* A binary operator moves binary operators from the top of the stack to
   the output, never a group start, and goes on the stack. *)
Lemma postfix_operator_shape c stack : forall result,
  isBinary c = true -> stack_ok stack ->
  exists ops rest, Forall (fun c => isBinary c = true) ops /\
    stack = ops ++ rest /\
    postfix_operator c stack result = (c :: rest, result ++ ops).
Proof.
  intros result Hc. revert result.
  induction stack as [|top rest IH]; intros result Hok; simpl.
  - exists [], []. by rewrite (app_nil_r result).
  - inversion_clear Hok as [|? ? Htop Hrest].
    destruct (precedence top >=? precedence c)%Z eqn:E.
    + destruct Htop as [->|Hb]; [by rewrite precedence_open in E|].
      destruct (IH (result ++ [top]) Hrest) as (ops & rest' & Hops & -> & ->).
      exists (top :: ops), rest'. split; [by constructor|].
      by rewrite <- app_assoc.
    + exists [], (top :: rest). by rewrite (app_nil_r result).
Qed.

Lemma tally_binary_open ops :
  Forall (fun c => isBinary c = true) ops ->
  tally isOpen ops = 0 /\ tally isClose ops = 0 /\ operands ops = [] /\
  tally isBinary ops = length ops.
Proof.
  induction 1 as [|c ops Hc _ (IH1 & IH2 & IH3 & IH4)]; [done|].
  cbn [tally operands List.filter length].
  rewrite (binary_not_open _ Hc), (binary_is_operator _ Hc), Hc.
  fold (operands ops). rewrite IH1, IH2, IH3, IH4.
  assert (isClose c = false) as ->; [|done].
  unfold isBinary, isClose in *.
  apply orb_true_iff in Hc as [Hc|Hc]; apply Z.eqb_eq in Hc; by subst c.
Qed.

Lemma stack_ok_app l1 l2 : stack_ok (l1 ++ l2) <-> stack_ok l1 /\ stack_ok l2.
Proof. apply Forall_app. Qed.

Lemma operands_app l1 l2 : operands (l1 ++ l2) = operands l1 ++ operands l2.
Proof. apply List.filter_app. Qed.

Lemma stack_ok_tally stack :
  stack_ok stack -> operands stack = [] /\ tally isClose stack = 0.
Proof.
  induction 1 as [|c stack Hc _ [IH1 IH2]]; [done|].
  cbn [operands List.filter tally]. fold (operands stack). rewrite IH1, IH2.
  destruct Hc as [->|Hb]; [done|].
  rewrite (binary_is_operator _ Hb). simpl.
  assert (isClose c = false) as ->; [|done].
  unfold isBinary, isClose in *.
  apply orb_true_iff in Hb as [Hb|Hb]; apply Z.eqb_eq in Hb; by subst c.
Qed.

Lemma tally_notin p c l : tally p l = 0 -> p c = true -> c ∉ l.
Proof.
  induction l as [|x l IH]; intros Ht Hp; [apply not_elem_of_nil|].
  simpl in Ht. apply not_elem_of_cons. split.
  - intros ->. rewrite Hp in Ht. lia.
  - apply IH; [lia|done].
Qed.

Lemma binary_not_close c : isBinary c = true -> isClose c = false.
Proof.
  unfold isBinary, isClose. intros Hc.
  apply orb_true_iff in Hc as [Hc|Hc]; apply Z.eqb_eq in Hc; by subst c.
Qed.

Lemma postfix_step_shape stack result c stack' result' :
  stack_ok stack ->
  postfix_step (stack, result) c = Ok (stack', result') ->
  stack_ok stack' /\
  operands result' = operands result ++ operands [c] /\
  tally isClose result' = tally isClose result /\
  tally isOpen result' = tally isOpen result /\
  tally isOpen stack' + (if isClose c then 1 else 0)
    = tally isOpen stack + (if isOpen c then 1 else 0).
Proof.
  intros Hok H. unfold postfix_step in H. rewrite isOperator_spec in H.
  cbn [operands List.filter]. rewrite isOperator_spec.
  destruct (c =? opGroupStart)%Z eqn:E1; [|destruct (c =? opGroupEnd)%Z eqn:E2;
    [|destruct (isBinary c) eqn:E3]]; cbn [orb negb] in *.
  - injection H as <- <-. apply Z.eqb_eq in E1 as ->.
    split; [constructor; [by left|done]|]. rewrite app_nil_r.
    change (isClose opGroupStart) with false. change (isOpen opGroupStart) with true.
    cbn [tally]. change (isOpen opGroupStart) with true. repeat split; lia.
  - destruct (postfix_groupEnd_shape _ _ _ _ Hok H) as (ops & Hops & -> & ->).
    apply stack_ok_app in Hok as [_ Hok]. inversion_clear Hok as [|? ? _ Hok'].
    destruct (tally_binary_open _ Hops) as (T1 & T2 & T3 & _).
    apply Z.eqb_eq in E2 as ->.
    change (isClose opGroupEnd) with true. change (isOpen opGroupEnd) with false.
    rewrite operands_app, !tally_app, T1, T2, T3, !app_nil_r. cbn [tally].
    change (isOpen opGroupStart) with true.
    repeat split; try done; lia.
  - destruct (postfix_operator_shape c stack result E3 Hok) as (ops & rest & Hops & -> & E).
    rewrite E in H. injection H as <- <-.
    apply stack_ok_app in Hok as [_ Hok].
    destruct (tally_binary_open _ Hops) as (T1 & T2 & T3 & _).
    rewrite operands_app, !tally_app, T1, T2, T3, !app_nil_r.
    cbn [tally]. rewrite (binary_not_open _ E3), (binary_not_close _ E3).
    split; [constructor; [by right|done]|]. repeat split; try done; lia.
  - injection H as <- <-. rewrite operands_app, !tally_app. cbn [operands List.filter tally].
    rewrite isOperator_spec, E1, E2, E3.
    assert (isOpen c = false) as -> by exact E1.
    assert (isClose c = false) as -> by exact E2.
    cbn [orb negb]. repeat split; try done; lia.
Qed.

Lemma postfix_loop_shape toks : forall stack result stack' result',
  stack_ok stack ->
  postfix_loop toks (stack, result) = Ok (stack', result') ->
  stack_ok stack' /\
  operands result' = operands result ++ operands toks /\
  tally isClose result' = tally isClose result /\
  tally isOpen result' = tally isOpen result /\
  tally isOpen stack' + tally isClose toks = tally isOpen stack + tally isOpen toks.
Proof.
  induction toks as [|c toks IH]; intros stack result stack' result' Hok H; simpl in H.
  - injection H as <- <-. rewrite app_nil_r. simpl. repeat split; try done; lia.
  - bind_inv H. destruct x as [stack1 result1].
    destruct (postfix_step_shape _ _ _ _ _ Hok Hm) as (Hok1 & Ho1 & Hc1 & Hp1 & Hd1).
    destruct (IH _ _ _ _ Hok1 H) as (Hok2 & Ho2 & Hc2 & Hp2 & Hd2).
    split; [done|]. split.
    + rewrite Ho2, Ho1, <- app_assoc. f_equal.
      change (c :: toks) with ([c] ++ toks). by rewrite operands_app.
    + cbn [tally]. repeat split; lia.
Qed.

Lemma postfix_loop_closes toks : forall stack result,
  stack_ok stack ->
  if closes_matched (tally isOpen stack) toks
  then exists stack' result', postfix_loop toks (stack, result) = Ok (stack', result')
  else postfix_loop toks (stack, result) = Panic IndexOutOfRange.
Proof.
  induction toks as [|c toks IH]; intros stack result Hok; cbn [closes_matched postfix_loop].
  - eauto.
  - unfold postfix_step. rewrite isOperator_spec.
    destruct (c =? opGroupStart)%Z eqn:E1; [|destruct (c =? opGroupEnd)%Z eqn:E2;
      [|destruct (isBinary c) eqn:E3]]; cbn [orb mbind outcome_bind].
    + apply Z.eqb_eq in E1 as ->.
      apply (IH (opGroupStart :: stack) result). constructor; [by left|done].
    + destruct (tally isOpen stack) as [|d] eqn:Ed.
      * by rewrite postfix_groupEnd_panic.
      * destruct (postfix_groupEnd_found stack result Hok) as (stack1 & result1 & E);
          [lia|].
        rewrite E. cbn [mbind outcome_bind].
        destruct (postfix_groupEnd_shape _ _ _ _ Hok E) as (ops & Hops & Hs & _).
        assert (Hok1 : stack_ok stack1).
        { rewrite Hs in Hok. apply stack_ok_app in Hok as [_ Hok].
          by inversion_clear Hok. }
        assert (Hd : tally isOpen stack1 = d).
        { rewrite Hs, tally_app in Ed.
          destruct (tally_binary_open _ Hops) as (T1 & _). simpl in Ed. lia. }
        rewrite <- Hd. by apply IH.
    + destruct (postfix_operator_shape c stack result E3 Hok) as (ops & rest & Hops & Hs & E).
      rewrite E.
      assert (Hd : tally isOpen (c :: rest) = tally isOpen stack).
      { rewrite Hs, tally_app. destruct (tally_binary_open _ Hops) as (T1 & _).
        cbn [tally]. rewrite (binary_not_open _ E3). lia. }
      rewrite <- Hd. apply IH. rewrite Hs in Hok.
      apply stack_ok_app in Hok as [_ Hok]. constructor; [by right|done].
    + by apply IH.
Qed.

Lemma postfix_outcome toks :
  if closes_matched 0 toks then exists post, postfix toks = Ok post
  else postfix toks = Panic IndexOutOfRange.
Proof.
  unfold postfix. pose proof (postfix_loop_closes toks [] [] ltac:(constructor)) as H.
  simpl in H. destruct (closes_matched 0 toks).
  - destruct H as (stack & result & ->). simpl. eauto.
  - by rewrite H.
Qed.

(** X5: [postfix] returns a postfix stream exactly when no group end of the
    token stream comes before its group start; otherwise it ends in an
    index-out-of-range failure ([Peek] on the empty operator stack), and in
    no other failure. *)
Theorem X5_postfix_fails_iff_unmatched_close (toks : list rune) :
  if closes_matched 0 toks then exists post, postfix toks = Ok post
  else postfix toks = Panic IndexOutOfRange.
Proof. apply postfix_outcome. Qed.

(** X6: the postfix stream keeps the operands of the token stream in their
    order and has as many binary operators; it never holds a group end, and
    it holds no group start when the token stream has as many group starts
    as group ends. *)
Theorem X6_postfix_keeps_operands (toks post : list rune) :
  postfix toks = Ok post ->
  operands post = operands toks /\
  tally isBinary post = tally isBinary toks /\
  (opGroupEnd ∉ post) /\
  (tally isOpen toks = tally isClose toks -> opGroupStart ∉ post).
Proof.
  intros H. pose proof (postfix_tally _ _ H) as [Hb _].
  unfold postfix in H. bind_inv H. destruct x as [stack result]. injection H as <-.
  destruct (postfix_loop_shape _ _ _ _ _ ltac:(constructor) Hm)
    as (Hok & Ho & Hc & Hp & Hd).
  destruct (stack_ok_tally _ Hok) as [So Sc]. simpl in *.
  split; [by rewrite operands_app, Ho, So, app_nil_r|]. split; [done|]. split.
  - apply (tally_notin isClose); [|done]. rewrite tally_app. lia.
  - intros Heq. apply (tally_notin isOpen); [|done]. rewrite tally_app. lia.
Qed.

Lemma X6_postfix_keeps_operands_witness :
  postfix (runes "a&(b|c&d|e&f)&g") = Ok (runes "abcd&|ef&|&g&") /\
  operands (runes "abcd&|ef&|&g&") = runes "abcdefg" /\
  (opGroupEnd ∉ runes "abcd&|ef&|&g&") /\ (opGroupStart ∉ runes "abcd&|ef&|&g&").
Proof.
  assert (H : postfix (runes "a&(b|c&d|e&f)&g") = Ok (runes "abcd&|ef&|&g&"))
    by (vm_compute; reflexivity).
  destruct (X6_postfix_keeps_operands _ _ H) as (Ho & _ & Hc & Hs).
  split; [exact H|]. split; [rewrite Ho; vm_compute; reflexivity|].
  split; [exact Hc|]. apply Hs. vm_compute; reflexivity.
Defined.

(** X7: the precondition of the two later stages.  On a token stream in
    which operands and binary operators alternate and groups nest, [postfix]
    returns a postfix stream that leaves exactly one fragment, and [nfa]
    returns an automaton from it. *)
Theorem X7_later_stages_on_wellformed_tokens (toks : list rune) :
  wf_tokens 0 false toks = true ->
  exists post r,
    postfix toks = Ok post /\ rpn_depth post 0 = Some 1 /\ nfa post = Ok r.
Proof.
  intros H. destruct (postfix_wf toks H) as (post & E & Hd).
  destruct (nfa_ok post Hd) as [r Er]. eauto.
Qed.

Lemma X7_later_stages_on_wellformed_tokens_witness :
  wf_tokens 0 false (runes "a&(b|c&d|e&f)&g") = true /\
  exists post r,
    postfix (runes "a&(b|c&d|e&f)&g") = Ok post /\ rpn_depth post 0 = Some 1 /\
    nfa post = Ok r.
Proof.
  assert (H : wf_tokens 0 false (runes "a&(b|c&d|e&f)&g") = true)
    by (vm_compute; reflexivity).
  split; [exact H|]. exact (X7_later_stages_on_wellformed_tokens _ H).
Defined.

(** ** nfa *)

Lemma nfa_step_outcome h stack c :
  nfa_inv (h, stack) ->
  match rpn_depth [c] (length stack) with
  | Some k => exists h1 stack1,
      nfa_step (h, stack) c = Ok (h1, stack1) /\ length stack1 = k
  | None => nfa_step (h, stack) c = Panic IndexOutOfRange
  end.
Proof.
  intros Hinv. cbn [rpn_depth]. unfold nfa_step, isBinary, connectNfaFrag, alloc.
  destruct (c =? opAnd)%Z; [|destruct (c =? opOr)%Z]; cbn [orb].
  - destruct stack as [|frag2 [|frag1 rest]]; try done. simpl.
    destruct Hinv as (Hslots & _). simpl in Hslots.
    inversion_clear Hslots as [|? ? _ Hslots']. inversion_clear Hslots' as [|? ? Hs1 _].
    destruct (connect_loop_ok (outs frag1) (start frag2) h Hs1) as [h1 E].
    rewrite E. simpl. eauto.
  - destruct stack as [|frag2 [|frag1 rest]]; try done. simpl. eauto.
  - eauto.
Qed.

Lemma nfa_loop_outcome post : forall h stack,
  nfa_inv (h, stack) ->
  match rpn_depth post (length stack) with
  | Some k => exists h' stack',
      nfa_loop post (h, stack) = Ok (h', stack') /\ length stack' = k /\
      nfa_inv (h', stack')
  | None => nfa_loop post (h, stack) = Panic IndexOutOfRange
  end.
Proof.
  induction post as [|c post IH]; intros h stack Hinv.
  - simpl. eauto.
  - pose proof (nfa_step_outcome h stack c Hinv) as Hs.
    change (c :: post) with ([c] ++ post). rewrite rpn_depth_app.
    cbn [app nfa_loop].
    destruct (rpn_depth [c] (length stack)) as [k|]; cbn [mbind option_bind].
    + destruct Hs as (h1 & stack1 & E & <-). rewrite E. cbn [mbind outcome_bind].
      apply IH. exact (nfa_step_inv h stack c h1 stack1 E Hinv).
    + by rewrite Hs.
Qed.

Lemma nfa_outcome post :
  match rpn_depth post 0 with
  | Some (S k) => exists r, nfa post = Ok r
  | _ => nfa post = Panic IndexOutOfRange
  end.
Proof.
  pose proof (nfa_loop_outcome post [] [] nfa_inv_init) as H. simpl in H.
  unfold nfa, connectNfaFrag, alloc.
  destruct (rpn_depth post 0) as [k|]; [|by rewrite H].
  destruct H as (h & stack & -> & Hlen & Hinv). simpl.
  destruct stack as [|res rest]; simpl in Hlen; subst k; [done|]. simpl.
  destruct Hinv as (Hslots & _). simpl in Hslots.
  inversion_clear Hslots as [|? ? Hs _].
  edestruct (connect_loop_ok (outs res)) as [h' E']; [|rewrite E'; simpl; eauto].
  revert Hs. apply List.Forall_impl. intros o. apply is_slot_mono, heap_le_alloc.
Qed.

(** X8: [nfa] returns an automaton exactly when the postfix stream always
    finds two fragments on the stack at a binary operator and leaves at least
    one at its end; otherwise it ends in an index-out-of-range failure (a
    [Pop] on the empty stack).  It has no other failure: each arrow that
    [connectNfaFrag] stores through is the arrow of a state in the arena. *)
Theorem X8_nfa_fails_iff_stack_underflows (post : list rune) :
  match rpn_depth post 0 with
  | Some (S k) => exists r, nfa post = Ok r
  | _ => nfa post = Panic IndexOutOfRange
  end.
Proof. apply nfa_outcome. Qed.

(** ** Compile *)

(** X9: the failures of [Compile].  It fails with the alternation misuse or
    with the group mismatch exactly when [preprocess] does; every other
    pattern either compiles or ends in an index-out-of-range failure of a
    later stage, never in a nil dereference. *)
Theorem X9_compile_failures (pat : list rune) :
  (Compile pat = Panic AlternationMisuse <-> or_misused pat = true) /\
  (Compile pat = Panic GroupMismatch <->
   or_misused pat = false /\ tally isOpen pat <> tally isClose pat) /\
  ((or_misused pat = false /\ tally isOpen pat = tally isClose pat) <->
   ((exists r, Compile pat = Ok r) \/ Compile pat = Panic IndexOutOfRange)).
Proof.
  unfold Compile, preprocess.
  pose proof (preprocess_loop_or_misused pat) as H.
  destruct (or_misused pat).
  - rewrite H. simpl. split; [done|]. split.
    + split; [discriminate|by intros [[=] _]].
    + split; [by intros [[=] _]|]. intros [[r [=]]|[=]].
  - destruct H as [st H]. rewrite H. simpl.
    apply preprocess_loop_counter in H. simpl in H.
    destruct (groupStackCounter st =? 0)%Z eqn:E; simpl.
    + apply Z.eqb_eq in E.
      assert (Hgoal : forall o : outcome Regex,
                ((exists r, o = Ok r) \/ o = Panic IndexOutOfRange) ->
                (o = Panic AlternationMisuse <-> false = true) /\
                (o = Panic GroupMismatch <->
                 false = false /\ tally isOpen pat <> tally isClose pat) /\
                ((false = false /\ tally isOpen pat = tally isClose pat) <->
                 ((exists r, o = Ok r) \/ o = Panic IndexOutOfRange))).
      { intros o Ho. split; [|split].
        - split; [|discriminate]. destruct Ho as [[r ->]| ->]; discriminate.
        - split; [|intros [_ Hne]; lia]. destruct Ho as [[r ->]| ->]; discriminate.
        - split; [done|]. intros _. split; [done|lia]. }
      apply Hgoal.
      pose proof (postfix_outcome (result st)) as Hp.
      destruct (closes_matched 0 (result st)); [|right; by rewrite Hp].
      destruct Hp as [post ->]. simpl. pose proof (nfa_outcome post) as Hn.
      destruct (rpn_depth post 0) as [[|k]|]; eauto.
    + apply Z.eqb_neq in E. split; [done|]. split.
      * split; [|done]. intros _. split; [done|lia].
      * split; [intros [_ Heq]; lia|]. intros [[r [=]]|[=]].
Qed.

(** ** The automaton that [Compile] returns *)

(* [connectNfaFrag] stores the state in the [out1] of the listed states and
   leaves everything else as it is. *)
Lemma connect_loop_frame outs t : forall h h',
  connect_loop h outs t = Ok h' ->
  length h' = length h /\
  forall a st', h' !! a = Some st' ->
  exists st, h !! a = Some st /\
    (((a ∈ outs) /\
      st' = {| char := char st; kind := kind st; out1 := t; out2 := out2 st |}) \/
     ((a ∉ outs) /\ st' = st)).
Proof.
  induction outs as [|out outs IH]; intros h h' H; simpl in H.
  - injection H as <-. split; [done|]. intros a st' Ha. exists st'. split; [done|].
    right. split; [apply not_elem_of_nil|done].
  - bind_inv H. rename x into h1. destruct (IH _ _ H) as [Hlen Hl].
    unfold set_out1 in Hm. destruct (h !! out) as [so|] eqn:Eo; [|discriminate].
    injection Hm as <-. rewrite length_insert in Hlen. split; [done|].
    intros a st' Ha. destruct (Hl _ _ Ha) as (st1 & Ha1 & Hcase).
    destruct (decide (a = out)) as [->|Hne].
    + rewrite list_lookup_insert_eq in Ha1 by (by eapply lookup_lt_Some).
      injection Ha1 as <-. exists so. split; [done|]. left.
      split; [apply list_elem_of_here|]. by destruct Hcase as [[_ ->]|[_ ->]].
    + rewrite list_lookup_insert_ne in Ha1 by done.
      exists st1. split; [done|]. destruct Hcase as [[Hin E]|[Hnin E]].
      * left. split; [by apply list_elem_of_further|done].
      * right. split; [|done]. intros Hin. apply elem_of_cons in Hin as [?|?]; done.
Qed.

Lemma build_shape_mono h h' a st :
  length h <= length h' -> build_shape h a st -> build_shape h' a st.
Proof.
  unfold build_shape. intros Hl. destruct (kind st); [|done..].
  intros (Hb & H2 & H1). repeat split; try done. intros t Ht. specialize (H1 t Ht). lia.
Qed.

Lemma build_inv_alloc h stack st f :
  build_inv (h, stack) ->
  build_shape (h ++ [st]) (length h) st ->
  (exists a, start f = Some a /\ a < S (length h)) ->
  build_inv (h ++ [st], f :: stack).
Proof.
  intros [Hst Hsh] Hnew Hf. split; simpl in *.
  - constructor; [by rewrite length_app, Nat.add_1_r|].
    revert Hst. apply List.Forall_impl. intros g (a & Ha & Hlt).
    exists a. split; [done|]. rewrite length_app. simpl. lia.
  - intros a s Ha. apply lookup_app_Some in Ha as [Ha|[Hge Ha]].
    + eapply build_shape_mono; [|by apply Hsh]. rewrite length_app. lia.
    + apply list_lookup_singleton_Some in Ha as [Hz <-].
      by replace a with (length h) by lia.
Qed.

Lemma nfa_step_build h stack c h' stack' :
  nfa_step (h, stack) c = Ok (h', stack') ->
  nfa_inv (h, stack) -> build_inv (h, stack) -> build_inv (h', stack').
Proof.
  unfold nfa_step, connectNfaFrag, alloc. intros H (Hslots & _) [Hst Hsh]. simpl in *.
  destruct (c =? opAnd)%Z eqn:E1; [|destruct (c =? opOr)%Z eqn:E2].
  - bind_inv H. destruct x as [frag2 st2]. bind_inv H. destruct x as [frag1 st1].
    bind_inv H. injection H as <- <-.
    apply Pop_Ok in Hm as ->. apply Pop_Ok in Hm0 as ->.
    inversion_clear Hst as [|? ? (t2 & Ht2 & Hlt2) Hst'].
    inversion_clear Hst' as [|? ? (t1 & Ht1 & Hlt1) Hrest].
    inversion_clear Hslots as [|? ? _ Hslots']. inversion_clear Hslots' as [|? ? Hs1 _].
    destruct (connect_loop_frame _ _ _ _ Hm1) as [Hlen Hl].
    split; simpl.
    + constructor; [exists t1; split; [done|lia]|].
      revert Hrest. apply List.Forall_impl. intros g (a & Ha & Hlt).
      exists a. split; [done|lia].
    + intros a s Ha. destruct (Hl _ _ Ha) as (s0 & Ha0 & Hcase).
      specialize (Hsh _ _ Ha0).
      destruct Hcase as [[Hin ->]|[_ ->]];
        [|apply (build_shape_mono h); [lia|done]].
      apply (Forall_forall (is_slot h)) with (x := a) in Hs1;
        [|by apply list_elem_of_In].
      destruct Hs1 as (s1 & Ha1 & Hk). rewrite Ha0 in Ha1. injection Ha1 as <-.
      unfold build_shape in *. simpl. rewrite Hk in *.
      destruct Hsh as (Hb & H2 & _). repeat split; try done.
      rewrite Ht2. intros t [= <-]. lia.
  - bind_inv H. destruct x as [frag2 st2]. bind_inv H. destruct x as [frag1 st1].
    injection H as <- <-.
    apply Pop_Ok in Hm as ->. apply Pop_Ok in Hm0 as ->.
    inversion_clear Hst as [|? ? (t2 & Ht2 & Hlt2) Hst'].
    inversion_clear Hst' as [|? ? (t1 & Ht1 & Hlt1) Hrest].
    apply (build_inv_alloc h st1); [by split| |simpl; eauto].
    unfold build_shape. simpl. split; [done|]. rewrite Ht1, Ht2. eauto 10.
  - injection H as <- <-.
    apply (build_inv_alloc h stack); [by split| |simpl; eauto].
    unfold build_shape, isBinary. simpl. rewrite E1, E2. by repeat split.
Qed.

Lemma nfa_loop_build str : forall h stack h' stack',
  nfa_loop str (h, stack) = Ok (h', stack') ->
  nfa_inv (h, stack) -> build_inv (h, stack) -> build_inv (h', stack').
Proof.
  induction str as [|c str IH]; intros h stack h' stack' H Hinv Hb; simpl in H.
  - by injection H as <- <-.
  - bind_inv H. destruct x as [h1 stack1].
    apply (IH _ _ _ _ H).
    + exact (nfa_step_inv h stack c h1 stack1 Hm Hinv).
    + exact (nfa_step_build h stack c h1 stack1 Hm Hinv Hb).
Qed.

Lemma Compile_shape pat r : Compile pat = Ok r -> automaton_shape r.
Proof.
  destruct r as [h start]. intros H.
  destruct (Compile_wired _ _ _ H) as (_ & Hw & _).
  unfold Compile in H. bind_inv H. bind_inv H.
  unfold nfa, connectNfaFrag, alloc in H.
  bind_inv H. destruct x1 as [h1 stack].
  bind_inv H. destruct x1 as [res rest]. bind_inv H. injection H as <- <-.
  apply Pop_Ok in Hm2 as ->.
  assert (Hb0 : build_inv ([], [])).
  { split; [constructor|]. intros a s Ha. simpl in Ha. by destruct a. }
  pose proof (nfa_loop_build _ _ _ _ _ Hm1 nfa_inv_init Hb0) as [Hst Hsh].
  simpl in *. inversion_clear Hst as [|? ? (a0 & Ha0 & Hlt0) _].
  destruct (connect_loop_frame _ _ _ _ Hm3) as [Hlen Hl].
  rewrite length_app in Hlen. simpl in Hlen.
  split; [|split]; simpl.
  - exists a0. split; [done|lia].
  - assert (Hlast : x1 !! (length x1 - 1)
                    = Some {| char := 0; kind := nfaStateKindMatch;
                              out1 := None; out2 := None |}
                    \/ exists s, x1 !! (length x1 - 1) = Some s /\
                                 kind s = nfaStateKindMatch).
    { destruct (lookup_lt_is_Some_2 x1 (length x1 - 1)) as [s Hs]; [lia|].
      right. exists s. split; [done|].
      destruct (Hl _ _ Hs) as (s0 & Hs0 & Hcase).
      replace (length x1 - 1) with (length h1) in Hs0 by lia.
      rewrite list_lookup_middle in Hs0 by done. injection Hs0 as <-.
      by destruct Hcase as [[_ ->]|[_ ->]]. }
    destruct Hlast as [E|(s & Hs & Hk)]; eauto.
  - intros a s Ha. destruct (Hl _ _ Ha) as (s0 & Hs0 & Hcase).
    apply lookup_app_Some in Hs0 as [Hs0|[Hge Hs0]].
    + specialize (Hsh _ _ Hs0). specialize (Hw _ _ Ha).
      assert (Hk : kind s = kind s0) by (by destruct Hcase as [[_ ->]|[_ ->]]).
      assert (Hc : char s = char s0) by (by destruct Hcase as [[_ ->]|[_ ->]]).
      assert (H2 : out2 s = out2 s0) by (by destruct Hcase as [[_ ->]|[_ ->]]).
      unfold state_shape, build_shape in *. rewrite Hk, Hc, H2 in *.
      destruct (kind s0) eqn:Ek.
      * destruct Hsh as (Hb & Ho2 & Ho1). repeat split; try done.
        pose proof (Hw eq_refl) as [t Ht]. exists t. split; [done|].
        destruct Hcase as [[_ ->]|[_ ->]]; simpl in Ht.
        -- injection Ht as <-. lia.
        -- specialize (Ho1 _ Ht). lia.
      * destruct Hcase as [[Hin ->]|[_ ->]]; [|done]. simpl in *.
        destruct Hsh as (Hc0 & t1 & t2 & Ht1 & Ht2 & Hlt1 & Hlt2).
        exfalso.
        destruct (nfa_loop_inv _ _ _ _ _ Hm1 nfa_inv_init) as (Hslots & _).
        simpl in Hslots. inversion_clear Hslots as [|? ? Hs _].
        apply (Forall_forall (is_slot h1)) with (x := a) in Hs;
          [|by apply list_elem_of_In].
        destruct Hs as (s1 & Ha1 & Hk1). rewrite Hs0 in Ha1. injection Ha1 as <-.
        congruence.
      * done.
    + apply list_lookup_singleton_Some in Hs0 as [Hz <-].
      assert (Hk : kind s = nfaStateKindMatch) by (by destruct Hcase as [[_ ->]|[_ ->]]).
      unfold state_shape. rewrite Hk.
      destruct Hcase as [[Hin ->]|[_ ->]]; simpl.
      * exfalso.
        destruct (nfa_loop_inv _ _ _ _ _ Hm1 nfa_inv_init) as (Hslots & _).
        simpl in Hslots. inversion_clear Hslots as [|? ? Hs _].
        apply (Forall_forall (is_slot h1)) with (x := a) in Hs;
          [|by apply list_elem_of_In].
        destruct Hs as (s1 & Ha1 & _). apply lookup_lt_Some in Ha1. lia.
      * repeat split; try done. lia.
Qed.

(** X10: the automaton that [Compile] returns is well formed.  Every edge
    leads to a state of the arena; a char-consuming state has exactly one
    edge and a literal that is no binary operator; a split state has two
    edges, both to states allocated before it, so the splits form no cycle;
    there is exactly one match state, the last state of the arena, and the
    start state is another one. *)
Theorem X10_compiled_automaton_shape (pat : list rune) (r : Regex) :
  Compile pat = Ok r -> automaton_shape r.
Proof. apply Compile_shape. Qed.

Lemma X10_compiled_automaton_shape_witness :
  Compile (runes "a(b|cd|ef)g") = Ok test_regex /\ automaton_shape test_regex.
Proof.
  assert (H : Compile (runes "a(b|cd|ef)g") = Ok test_regex)
    by (vm_compute; reflexivity).
  split; [exact H|]. exact (X10_compiled_automaton_shape _ _ H).
Defined.

(* One state for each literal, one for each alternation, and the match
   state. *)
Lemma tally_strip_markers p l :
  p opAnd = false -> tally p (strip_markers l) = tally p l.
Proof.
  intros Hp. induction l as [|c l IH]; [done|].
  cbn [strip_markers List.filter tally]. fold (strip_markers l).
  destruct (c =? opAnd)%Z eqn:E; simpl.
  - apply Z.eqb_eq in E as ->. by rewrite Hp, IH.
  - by rewrite IH.
Qed.

Lemma postfix_loop_tally_gen p toks : forall stack result stack' result',
  stack_ok stack ->
  p opGroupStart = false -> p opGroupEnd = false ->
  postfix_loop toks (stack, result) = Ok (stack', result') ->
  tally p result' + tally p stack' = tally p result + tally p stack + tally p toks.
Proof.
  intros stack result stack' result' Hok Hs He. revert stack result Hok.
  induction toks as [|c toks IH]; intros stack result Hok H; simpl in H.
  - injection H as <- <-. simpl. lia.
  - bind_inv H. destruct x as [stack1 result1].
    pose proof (postfix_step_shape _ _ _ _ _ Hok Hm) as (Hok1 & _).
    apply (IH _ _ Hok1) in H. rewrite H. cbn [tally]. clear H IH.
    unfold postfix_step in Hm. rewrite isOperator_spec in Hm.
    destruct (c =? opGroupStart)%Z eqn:E1; [|destruct (c =? opGroupEnd)%Z eqn:E2;
      [|destruct (isBinary c) eqn:E3]]; cbn [orb] in Hm.
    + injection Hm as <- <-. cbn [tally]. lia.
    + destruct (postfix_groupEnd_shape _ _ _ _ Hok Hm) as (ops & _ & -> & ->).
      apply Z.eqb_eq in E2 as ->. rewrite !tally_app. cbn [tally]. rewrite Hs, He. lia.
    + destruct (postfix_operator_shape c stack result E3 Hok) as (ops & rest & _ & -> & E).
      rewrite E in Hm. injection Hm as <- <-. rewrite !tally_app. cbn [tally]. lia.
    + injection Hm as <- <-. rewrite tally_app. cbn [tally]. lia.
Qed.

Lemma postfix_tally_gen p toks post :
  p opGroupStart = false -> p opGroupEnd = false ->
  postfix toks = Ok post -> tally p post = tally p toks.
Proof.
  intros Hs He H. unfold postfix in H. bind_inv H. destruct x as [stack result].
  injection H as <-.
  apply (postfix_loop_tally_gen p) in Hm; [|constructor|done..].
  rewrite tally_app. simpl in Hm. lia.
Qed.

Lemma nfa_loop_length str : forall h stack h' stack',
  nfa_loop str (h, stack) = Ok (h', stack') ->
  length h' = length h + tally isOperand str + tally isOr str.
Proof.
  induction str as [|c str IH]; intros h stack h' stack' H; simpl in H.
  - injection H as <- <-. simpl. lia.
  - bind_inv H. destruct x as [h1 stack1]. apply IH in H. rewrite H. clear H IH.
    cbn [tally]. unfold nfa_step, connectNfaFrag, alloc, isOperand, isBinary, isOr in *.
    destruct (c =? opAnd)%Z eqn:E1; [apply Z.eqb_eq in E1 as ->|destruct (c =? opOr)%Z];
      cbn [orb negb].
    + change (opAnd =? opOr)%Z with false.
      bind_inv Hm. destruct x as [frag2 st2]. bind_inv Hm. destruct x as [frag1 st1].
      bind_inv Hm. injection Hm as <- <-.
      match goal with Hc : connect_loop _ _ _ = Ok _ |- _ =>
        destruct (connect_loop_frame _ _ _ _ Hc) as [-> _] end. simpl. lia.
    + bind_inv Hm. destruct x as [frag2 st2]. bind_inv Hm. destruct x as [frag1 st1].
      injection Hm as <- <-. rewrite length_app. simpl. lia.
    + injection Hm as <- <-. rewrite length_app. simpl. lia.
Qed.

Lemma tally_length_operands l :
  tally (fun c => negb (isOperator c)) l = length (operands l).
Proof.
  induction l as [|c l IH]; [done|]. cbn [tally operands List.filter].
  fold (operands l). destruct (isOperator c); simpl; lia.
Qed.

Lemma preprocess_counts pat toks :
  preprocess pat = Ok toks ->
  (forall p, p opAnd = false -> tally p toks = tally p pat) /\
  tally isOpen toks = tally isClose toks.
Proof.
  unfold preprocess. intros H. bind_inv H.
  destruct (groupStackCounter x =? 0)%Z eqn:E; [|discriminate].
  injection H as <-. apply Z.eqb_eq in E.
  pose proof (preprocess_loop_counter _ _ _ Hm) as Hc.
  apply preprocess_loop_strip in Hm. simpl in Hm, Hc.
  assert (Hp : forall p, p opAnd = false -> tally p (result x) = tally p pat).
  { intros p Hp. by rewrite <- (tally_strip_markers p (result x)), Hm, tally_strip_markers. }
  split; [exact Hp|]. rewrite (Hp isOpen eq_refl), (Hp isClose eq_refl). lia.
Qed.

Lemma postfix_no_groups toks post :
  tally isOpen toks = tally isClose toks ->
  postfix toks = Ok post ->
  tally isOperand post = tally (fun c => negb (isOperator c)) post.
Proof.
  intros Hbal H. unfold postfix in H. bind_inv H. destruct x as [st rs].
  injection H as <-.
  destruct (postfix_loop_shape _ _ _ _ _ ltac:(constructor) Hm)
    as (Hok & _ & Hc & Ho & Hd).
  destruct (stack_ok_tally _ Hok) as [_ Sc]. simpl in *.
  assert (Hz : tally isOpen (rs ++ st) = 0 /\ tally isClose (rs ++ st) = 0)
    by (rewrite !tally_app; lia).
  destruct Hz as [Hz1 Hz2]. revert Hz1 Hz2. generalize (rs ++ st) as l.
  induction l as [|c l IH]; [done|]. cbn [tally]. rewrite isOperator_spec.
  unfold isOperand, isOpen, isClose.
  destruct (c =? opGroupStart)%Z, (c =? opGroupEnd)%Z; try (intros; lia).
  intros H1 H2. cbn [orb]. f_equal. apply IH; [exact H1|exact H2].
Qed.

Lemma Compile_length pat h start :
  Compile pat = Ok (h, start) ->
  length h = length (operands pat) + tally isOr pat + 1.
Proof.
  intros H. unfold Compile in H. bind_inv H. rename x into toks.
  destruct (preprocess_counts _ _ Hm) as [Hp Hbal]. clear Hm.
  bind_inv H. rename x into post.
  pose proof (postfix_tally_gen isOr _ _ eq_refl eq_refl Hm) as Hor.
  pose proof (postfix_tally_gen (fun c => negb (isOperator c)) _ _ eq_refl eq_refl Hm)
    as Hlit.
  pose proof (postfix_no_groups _ _ Hbal Hm) as Hnop. clear Hm.
  rewrite (Hp isOr eq_refl) in Hor. rewrite (Hp _ eq_refl) in Hlit.
  rewrite (tally_length_operands pat) in Hlit. rewrite <- Hlit, <- Hor, <- Hnop.
  unfold nfa, connectNfaFrag, alloc in H.
  bind_inv H. destruct x as [h1 stack]. apply nfa_loop_length in Hm.
  bind_inv H. destruct x as [res rest]. clear Hm0.
  bind_inv H. injection H as <- _.
  apply connect_loop_frame in Hm0 as [-> _].
  rewrite length_app, Hm. simpl. lia.
Qed.

(** X15: the size of the automaton.  [Compile] builds one state for each
    literal of the pattern, one for each alternation, and one match state,
    and no other. *)
Theorem X15_compiled_automaton_size (pat : list rune) (r : Regex) :
  Compile pat = Ok r ->
  length r.1 = length (operands pat) + tally isOr pat + 1.
Proof. destruct r as [h start]. apply Compile_length. Qed.

Lemma X15_compiled_automaton_size_witness :
  Compile (runes "(a|a|a|a)(b|b|b|b)") = Ok dup_regex /\
  length dup_regex.1 = 8 + 6 + 1.
Proof.
  assert (H : Compile (runes "(a|a|a|a)(b|b|b|b)") = Ok dup_regex)
    by (vm_compute; reflexivity).
  split; [exact H|]. exact (X15_compiled_automaton_size _ _ H).
Defined.

(** ** What the matcher does on a compiled automaton *)

(** X11: on a compiled automaton and an input without the rune U+0000,
    [Match] returns a verdict: it dereferences no nil pointer, and the
    recursion of [appendState] is no deeper than the automaton has states
    (any larger bound gives the same verdict). *)
Theorem X11_match_returns_without_nul (growslice : nat -> nat -> nat)
    (pat : list rune) (r : Regex) (str : list rune) :
  Compile pat = Ok r -> 0%Z ∉ str ->
  exists b, Match growslice r str = Ok b /\
            forall fuel, S (length r.1) <= fuel -> match_ growslice fuel r str = Ok b.
Proof. apply Match_total_without_nul. Qed.

Lemma X11_match_returns_without_nul_witness :
  exists b, Match (fun _ n => n) test_regex (runes "acdg") = Ok b /\
    forall fuel, S (length test_regex.1) <= fuel ->
      match_ (fun _ n => n) fuel test_regex (runes "acdg") = Ok b.
Proof.
  apply (X11_match_returns_without_nul _ (runes "a(b|cd|ef)g")).
  - vm_compute; reflexivity.
  - vm_compute. intros Hin.
    repeat (apply elem_of_cons in Hin as [Hin|Hin]; [discriminate|]).
    by apply elem_of_nil in Hin.
Defined.

(* The states that [appendState] adds for a state were allocated no later
   than it. *)
Lemma closure_below h p l :
  (forall a st, h !! a = Some st -> state_shape h a st) ->
  closure h p l ->
  forall a, p = Some a -> Forall (fun q => exists b, q = Some b /\ b <= a) l.
Proof.
  intros Hs. induction 1 as [a st Ha Hk|a st l1 l2 Ha Hk H1 IH1 H2 IH2]; intros b [= <-].
  - apply Forall_singleton. eauto.
  - specialize (Hs _ _ Ha). unfold state_shape in Hs. rewrite Hk in Hs.
    destruct Hs as (_ & t1 & t2 & E1 & E2 & L1 & L2).
    apply Forall_app. split.
    + specialize (IH1 _ E1). revert IH1. apply List.Forall_impl.
      intros q (b & -> & Hb). exists b. split; [done|lia].
    + specialize (IH2 _ E2). revert IH2. apply List.Forall_impl.
      intros q (b & -> & Hb). exists b. split; [done|lia].
Qed.

Lemma match_found_true h mem cur : forall n i,
  match_found h mem cur i n = Ok true ->
  exists j st, i <= j < i + n /\ deref h (index mem cur j) = Ok st /\
               kind st = nfaStateKindMatch.
Proof.
  induction n as [|n IH]; intros i H; simpl in H; [discriminate|].
  bind_inv H. destruct (decide (kind x = nfaStateKindMatch)) as [Hk|Hk].
  - exists i, x. split; [lia|done].
  - apply IH in H as (j & st & Hj & Hd & Hkm). exists j, st. split; [lia|done].
Qed.

Lemma match_empty_input growslice pat h start fuel :
  Compile pat = Ok (h, start) -> match_ growslice fuel (h, start) [] <> Ok true.
Proof.
  intros HC H. destruct (Compile_shape _ _ HC) as ((a & Hstart & Ha) & _ & Hs).
  simpl in Hstart, Ha, Hs. subst start.
  unfold match_, match_states in H. cbv beta iota delta [make] in H.
  bind_inv H. destruct x as [[mem cur] next]. bind_inv Hm. destruct x as [mem0 cur0].
  injection Hm as <- <- _.
  apply appendState_elements in Hm0 as (l & Hc & He & Hcap); [|simpl; lia].
  cbn [fst] in H. apply match_found_true in H as (j & st & Hj & Hd & Hk).
  apply deref_Ok in Hd as (b & Hb & Hst).
  assert (Hin : Some b ∈ l).
  { rewrite <- Hb. unfold index.
    destruct (backing mem0 cur0 !! j) as [q|] eqn:Eq.
    - simpl. change (elements [replicate 1024 None] {| arr := 0; len := 0 |}) with (@nil ptr)
        in He. simpl in He. rewrite <- He. unfold elements.
      apply (list_elem_of_lookup_2 _ j). rewrite lookup_take_lt by lia. exact Eq.
    - apply lookup_ge_None in Eq. lia. }
  pose proof (closure_below _ _ _ Hs Hc a eq_refl) as Hbelow.
  apply list_elem_of_lookup in Hin as [k Hin].
  destruct (Forall_lookup_1 _ _ _ _ Hbelow Hin) as (b' & [= <-] & Hle).
  specialize (Hs _ _ Hst). unfold state_shape in Hs. rewrite Hk in Hs.
  destruct Hs as (_ & _ & _ & Hlast). lia.
Qed.

(** X12: no compiled automaton matches the empty input: [Match] returns
    false on it, whatever the pattern. *)
Theorem X12_empty_input_never_matches (growslice : nat -> nat -> nat)
    (pat : list rune) (r : Regex) :
  Compile pat = Ok r -> Match growslice r [] = Ok false.
Proof.
  intros H.
  destruct (Match_total_without_nul growslice pat r [] H) as ([|] & Hb & _);
    [apply not_elem_of_nil| |exact Hb].
  destruct r as [h start].
  by destruct (match_empty_input growslice pat h start (S (length h)) H).
Qed.

Lemma X12_empty_input_never_matches_witness :
  Match (fun _ n => n) test_regex [] = Ok false.
Proof.
  apply (X12_empty_input_never_matches _ (runes "a(b|cd|ef)g")).
  vm_compute; reflexivity.
Defined.

(* The literals of the automaton are those of the pattern. *)
Lemma nfa_loop_chars L str : forall h stack h' stack',
  nfa_loop str (h, stack) = Ok (h', stack') ->
  (forall c, c ∈ str -> c ∈ L) -> chars_within L h -> chars_within L h'.
Proof.
  induction str as [|c str IH]; intros h stack h' stack' H HL Hh; simpl in H.
  - by injection H as <- <-.
  - bind_inv H. destruct x as [h1 stack1].
    apply (IH _ _ _ _ H); [intros d Hd; apply HL; by apply list_elem_of_further|].
    clear H IH. unfold nfa_step, connectNfaFrag, alloc in Hm.
    destruct (c =? opAnd)%Z; [|destruct (c =? opOr)%Z].
    + bind_inv Hm. destruct x as [frag2 st2]. bind_inv Hm. destruct x as [frag1 st1].
      bind_inv Hm. injection Hm as <- <-.
      match goal with Hc : connect_loop _ _ _ = Ok _ |- _ =>
        destruct (connect_loop_frame _ _ _ _ Hc) as [_ Hf] end.
      intros a st Ha Hk. destruct (Hf _ _ Ha) as (st0 & Ha0 & [[_ ->]|[_ ->]]);
        by apply (Hh a st0).
    + bind_inv Hm. destruct x as [frag2 st2]. bind_inv Hm. destruct x as [frag1 st1].
      injection Hm as <- <-. intros a st Ha Hk.
      apply lookup_app_Some in Ha as [Ha|[_ Ha]]; [by apply (Hh a st)|].
      apply list_lookup_singleton_Some in Ha as [_ <-]. discriminate.
    + injection Hm as <- <-. intros a st Ha Hk.
      apply lookup_app_Some in Ha as [Ha|[_ Ha]]; [by apply (Hh a st)|].
      apply list_lookup_singleton_Some in Ha as [_ <-]. simpl.
      apply HL, list_elem_of_here.
Qed.

Lemma postfix_groups_gone toks post :
  tally isOpen toks = tally isClose toks ->
  postfix toks = Ok post ->
  tally isOpen post = 0 /\ tally isClose post = 0.
Proof.
  intros Hbal H. unfold postfix in H. bind_inv H. destruct x as [st rs].
  injection H as <-.
  destruct (postfix_loop_shape _ _ _ _ _ ltac:(constructor) Hm)
    as (Hok & _ & Hc & Ho & Hd).
  destruct (stack_ok_tally _ Hok) as [_ Sc]. simpl in *.
  rewrite !tally_app; lia.
Qed.

Lemma tally_pos p l : 0 < tally p l -> exists x, x ∈ l /\ p x = true.
Proof.
  induction l as [|c l IH]; simpl; [lia|]. intros H.
  destruct (p c) eqn:E.
  - exists c. split; [apply list_elem_of_here|done].
  - destruct IH as (x & Hx & Hp); [lia|]. exists x. split; [|done].
    by apply list_elem_of_further.
Qed.

Lemma Compile_chars pat h start :
  Compile pat = Ok (h, start) ->
  forall a st, h !! a = Some st -> kind st = nfaStateKindChar ->
    char st ∈ pat /\ isOperator (char st) = false.
Proof.
  intros HC a st Ha Hk.
  destruct (Compile_shape _ _ HC) as (_ & _ & Hs). simpl in Hs.
  specialize (Hs _ _ Ha). unfold state_shape in Hs. rewrite Hk in Hs.
  destruct Hs as (Hbin & _).
  unfold Compile in HC. bind_inv HC. rename x into toks.
  destruct (preprocess_counts _ _ Hm) as [Hp Hbal]. clear Hm.
  bind_inv HC. rename x into post.
  destruct (postfix_groups_gone _ _ Hbal Hm) as [Hno Hnc].
  assert (Hpost : char st ∈ post).
  { unfold nfa, connectNfaFrag, alloc in HC.
    bind_inv HC. destruct x as [h1 stack].
    apply (nfa_loop_chars post) in Hm0; [|done|by intros ? ? ?; destruct a0].
    bind_inv HC. destruct x as [res rest]. bind_inv HC. injection HC as <- _.
    match goal with Hc : connect_loop _ _ _ = Ok _ |- _ =>
      destruct (connect_loop_frame _ _ _ _ Hc) as [_ Hf] end.
    destruct (Hf _ _ Ha) as (st0 & Ha0 & Hcase).
    assert (E : char st = char st0 /\ kind st = kind st0)
      by (by destruct Hcase as [[_ ->]|[_ ->]]).
    destruct E as [Ec Ek]. rewrite Ec.
    apply lookup_app_Some in Ha0 as [Ha0|[_ Ha0]].
    - apply (Hm0 a st0 Ha0). congruence.
    - apply list_lookup_singleton_Some in Ha0 as [_ <-]. simpl in Ek. congruence. }
  set (c := char st) in *.
  assert (Hopen : isOpen c = false).
  { destruct (isOpen c) eqn:E; [|done]. by destruct (tally_notin _ _ _ Hno E). }
  assert (Hclose : isClose c = false).
  { destruct (isClose c) eqn:E; [|done]. by destruct (tally_notin _ _ _ Hnc E). }
  assert (Hop : isOperator c = false).
  { rewrite isOperator_spec. unfold isOpen, isClose in *. by rewrite Hopen, Hclose, Hbin. }
  split; [|exact Hop].
  set (p := fun x : rune => (x =? c)%Z).
  assert (Hpc : p c = true) by apply Z.eqb_refl.
  pose proof (tally_in p c post Hpost Hpc) as Hpos.
  rewrite (postfix_tally_gen p toks post) in Hpos; [| | |exact Hm].
  - rewrite Hp in Hpos.
    + apply tally_pos in Hpos as (x & Hx & Ex). apply Z.eqb_eq in Ex. by subst x.
    + unfold p. apply Z.eqb_neq. intros E. unfold isBinary in Hbin.
      rewrite <- E, Z.eqb_refl in Hbin. discriminate.
  - unfold p. apply Z.eqb_neq. intros E. unfold isOpen in Hopen.
    rewrite <- E, Z.eqb_refl in Hopen. discriminate.
  - unfold p. apply Z.eqb_neq. intros E. unfold isClose in Hclose.
    rewrite <- E, Z.eqb_refl in Hclose. discriminate.
Qed.

Section ForeignRune.

Variable growslice : nat -> nat -> nat.
Variable h : heap.
Variable c : rune.

(* No char-consuming state reads [c], and the match state has no edge. *)
Hypothesis h_foreign : forall a st, h !! a = Some st -> char st = c ->
  kind st <> nfaStateKindSplit -> out1 st = None.

Lemma match_range_foreign fuel cur : forall n i mem next mem' next',
  flat h mem cur -> i + n <= len cur ->
  match_range growslice fuel h c cur i n mem next = Ok (mem', next') ->
  mem' = mem /\ next' = next.
Proof.
  induction n as [|n IH]; intros i mem next mem' next' F Hi H; simpl in H.
  - by injection H as <- <-.
  - bind_inv H. destruct (F i ltac:(lia)) as (p & Hp & a & st & -> & Ha & Hk).
    unfold index in Hm. rewrite Hp in Hm. simpl in Hm. rewrite Ha in Hm.
    injection Hm as <-.
    destruct (char st =? c)%Z eqn:E.
    + apply Z.eqb_eq in E. rewrite (h_foreign _ _ Ha E Hk) in H.
      destruct fuel; discriminate.
    + apply IH in H; [done|done|lia].
Qed.

Lemma match_loop_void fuel str : forall mem cur next mem' cur' next',
  match_loop growslice fuel h str mem cur next = Ok (mem', cur', next') ->
  len cur = 0 -> len next = 0 -> len cur' = 0.
Proof.
  induction str as [|d str IH]; intros mem cur next mem' cur' next' H Hc Hn; simpl in H.
  - by injection H as <- <- <-.
  - rewrite Hc in H. simpl in H. eauto.
Qed.

Lemma match_loop_foreign fuel str : forall mem cur next mem' cur' next',
  c ∈ str -> flat h mem cur -> len next = 0 ->
  match_loop growslice fuel h str mem cur next = Ok (mem', cur', next') ->
  len cur' = 0.
Proof.
  induction str as [|d str IH]; intros mem cur next mem' cur' next' Hin F Hn H.
  - by apply elem_of_nil in Hin.
  - simpl in H. bind_inv H. destruct x as [mem1 next1].
    apply elem_of_cons in Hin as [<-|Hin].
    + apply match_range_foreign in Hm as [-> ->]; [|done|simpl; lia].
      eapply match_loop_void; eauto.
    + destruct (match_range_flat _ _ _ _ _ _ _ _ _ _ _ Hm F) as [_ F1];
        [by apply flat_empty|].
      exact (IH mem1 next1 (reslice0 next1) _ _ _ Hin F1 eq_refl H).
Qed.

Lemma match_foreign fuel start str :
  c ∈ str -> match_ growslice fuel (h, start) str <> Ok true.
Proof.
  intros Hin H. unfold match_, match_states in H. cbv beta iota delta [make] in H.
  bind_inv H. destruct x as [[mem cur] next].
  bind_inv Hm. destruct x as [mem0 cur0].
  apply appendState_flat in Hm0 as [F0 _]; [|by apply flat_empty].
  apply match_loop_foreign in Hm; [|done..].
  rewrite Hm in H. simpl in H. discriminate.
Qed.

End ForeignRune.

Lemma classic_char (h : heap) (c : rune) :
  (exists a st, h !! a = Some st /\ kind st = nfaStateKindChar /\ char st = c) \/
  ~ (exists a st, h !! a = Some st /\ kind st = nfaStateKindChar /\ char st = c).
Proof.
  induction h as [|s0 h IH].
  - right. intros (a & st & Ha & _). by destruct a.
  - destruct (decide (kind s0 = nfaStateKindChar /\ char s0 = c)) as [[Hk Hc]|Hn].
    + left. by exists 0, s0.
    + destruct IH as [(a & st & Ha & Hk & Hc)|IH].
      * left. by exists (S a), st.
      * right. intros (a & st & Ha & Hk & Hc). destruct a as [|a].
        -- injection Ha as <-. by destruct Hn.
        -- destruct IH. by exists a, st.
Qed.

(** X13: a string that [Match] accepts is made of literals of the pattern:
    each of its runes occurs in the pattern and is no operator.  An input
    with any other rune is not accepted. *)
Theorem X13_matched_input_over_pattern_literals (growslice : nat -> nat -> nat)
    (pat : list rune) (r : Regex) (str : list rune) :
  Compile pat = Ok r -> Match growslice r str = Ok true ->
  forall c, c ∈ str -> c ∈ pat /\ isOperator c = false.
Proof.
  destruct r as [h start]. intros HC HM c Hin.
  destruct (Compile_shape _ _ HC) as (_ & _ & Hs). simpl in Hs.
  destruct (classic_char h c) as [(a & st & Ha & Hk & <-)|Hno].
  - exact (Compile_chars _ _ _ HC a st Ha Hk).
  - exfalso. revert HM. unfold Match. apply match_foreign with (c := c); [|done].
    intros a st Ha Hc Hk. specialize (Hs _ _ Ha). unfold state_shape in Hs.
    destruct (kind st) eqn:Ek; [|done|by destruct Hs as (_ & ? & _)].
    destruct Hno. by exists a, st.
Qed.

Lemma X13_matched_input_over_pattern_literals_witness :
  Match (fun _ n => n) test_regex (runes "acdg") = Ok true /\
  (100%Z ∈ runes "a(b|cd|ef)g" /\ isOperator 100 = false).
Proof.
  assert (HM : Match (fun _ n => n) test_regex (runes "acdg") = Ok true)
    by (vm_compute; reflexivity).
  split; [exact HM|].
  apply (X13_matched_input_over_pattern_literals (fun _ n => n)
           (runes "a(b|cd|ef)g") test_regex (runes "acdg")); [vm_compute; reflexivity|exact HM|].
  vm_compute. do 2 apply list_elem_of_further. apply list_elem_of_here.
Defined.

(** X14: [appendState] keeps the elements that the list holds and appends,
    left to right, the char-consuming and match states reached from the
    given state through split states, also when [append] moves the list to a
    new array. *)
Theorem X14_appendState_appends_closure (growslice : nat -> nat -> nat)
    (h : heap) (fuel : nat) (mem : arrays) (s : slice) (p : ptr)
    (mem' : arrays) (s' : slice) :
  appendState growslice fuel h mem s p = Ok (mem', s') ->
  len s <= length (backing mem s) ->
  exists l, closure h p l /\ elements mem' s' = elements mem s ++ l /\
            Forall (nonsplit h) l.
Proof.
  intros H Hcap.
  destruct (appendState_elements _ _ _ _ _ _ _ _ H Hcap) as (l & Hc & He & _).
  exists l. repeat split; [done..|].
  clear -Hc. induction Hc as [a st Ha Hk|a st l1 l2 Ha Hk H1 IH1 H2 IH2].
  - apply Forall_singleton. by exists a, st.
  - by apply Forall_app.
Qed.

Lemma X14_appendState_appends_closure_witness :
  match appendState (fun _ n => n) 4 dup_regex.1 [replicate 2 None]
                    {| arr := 0; len := 0 |} dup_regex.2 with
  | Ok (mem', s') =>
      exists l, closure dup_regex.1 dup_regex.2 l /\
                elements mem' s' = [] ++ l /\ Forall (nonsplit dup_regex.1) l
  | _ => False
  end.
Proof.
  destruct (appendState (fun _ n => n) 4 dup_regex.1 [replicate 2 None]
              {| arr := 0; len := 0 |} dup_regex.2) as [[mem' s']| |] eqn:E.
  - apply (X14_appendState_appends_closure _ _ _ _ _ _ _ _ E). simpl. lia.
  - vm_compute in E. discriminate E.
  - vm_compute in E. discriminate E.
Defined.

(** ** The automaton accepts the language of the postfix expression *)

Lemma connect_loop_patched outs t h h' :
  connect_loop h outs t = Ok h' -> patched h h' outs t.
Proof.
  intros H. destruct (connect_loop_frame _ _ _ _ H) as [Hlen Hf].
  split; [done|]. intros a st Ha.
  destruct (h' !! a) as [st'|] eqn:E.
  - destruct (Hf _ _ E) as (st0 & Ha0 & Hcase). rewrite Ha in Ha0. injection Ha0 as <-.
    destruct Hcase as [[Hin ->]|[Hnin ->]].
    + by rewrite decide_True.
    + by rewrite decide_False.
  - apply lookup_ge_None in E. apply lookup_lt_Some in Ha. lia.
Qed.

Lemma path_None h s q : path h None s q -> s = [] /\ q = None.
Proof. by inversion 1. Qed.

Lemma path_frame h h' f lo hi :
  frag_ok h f lo hi ->
  (forall a, lo <= a < hi -> h' !! a = h !! a) ->
  forall p s q, path h p s q ->
    (p = None \/ exists a, p = Some a /\ lo <= a < hi) -> path h' p s q.
Proof.
  intros (_ & _ & Hcl) Hag. induction 1 as [p|a st s q Ha Hk _ IH|a st s q Ha Hk _ IH|a st s q Ha Hk _ IH];
    intros Hp.
  - constructor.
  - destruct Hp as [|(? & [= <-] & Hr)]; [done|].
    destruct (Hcl _ Hr) as (st0 & Ha0 & Hs). rewrite Ha in Ha0. injection Ha0 as <-.
    rewrite Hk in Hs. apply path_char; [by rewrite Hag|done|].
    apply IH. destruct (out1 st) as [b|]; [right; eauto|by left].
  - destruct Hp as [|(? & [= <-] & Hr)]; [done|].
    destruct (Hcl _ Hr) as (st0 & Ha0 & Hs). rewrite Ha in Ha0. injection Ha0 as <-.
    rewrite Hk in Hs. destruct Hs as (b1 & b2 & E1 & E2 & R1 & R2).
    apply path_left with st; [by rewrite Hag|done|]. apply IH. right. eauto.
  - destruct Hp as [|(? & [= <-] & Hr)]; [done|].
    destruct (Hcl _ Hr) as (st0 & Ha0 & Hs). rewrite Ha in Ha0. injection Ha0 as <-.
    rewrite Hk in Hs. destruct Hs as (b1 & b2 & E1 & E2 & R1 & R2).
    apply path_right with st; [by rewrite Hag|done|]. apply IH. right. eauto.
Qed.

Lemma frag_ok_frame h h' f lo hi :
  frag_ok h f lo hi ->
  (forall a, lo <= a < hi -> h' !! a = h !! a) ->
  frag_ok h' f lo hi.
Proof.
  intros (Hs & Ho & Hcl) Hag. split; [done|]. split.
  - intros o Hin. destruct (Ho _ Hin) as (Hr & st & Hst & Hk). split; [done|].
    exists st. by rewrite Hag.
  - intros a Hr. destruct (Hcl _ Hr) as (st & Hst & Hk). exists st. by rewrite Hag.
Qed.

Lemma frag_ok_start h f lo hi :
  frag_ok h f lo hi -> exists a, start f = Some a /\ lo <= a < hi.
Proof. by intros (Hs & _). Qed.

Lemma frag_ok_le h f lo hi : frag_ok h f lo hi -> lo < hi.
Proof. intros ((a & _ & Hr) & _). lia. Qed.

Lemma frames_frame h h' : forall stack es hi,
  frames h stack es hi ->
  (forall a, a < hi -> h' !! a = h !! a) ->
  frames h' stack es hi.
Proof.
  induction stack as [|f stack IH]; intros [|e es] hi H Hag; try done.
  destruct H as (lo & Hf & HL & Hr). exists lo.
  assert (Hag' : forall a, lo <= a < hi -> h' !! a = h !! a) by (intros; apply Hag; lia).
  pose proof (frag_ok_frame _ _ _ _ _ Hf Hag') as Hf'.
  pose proof (frag_ok_le _ _ _ _ Hf) as Hlt.
  destruct (frag_ok_start _ _ _ _ Hf) as (a & Hst & Ha).
  split; [done|]. split.
  - intros s. rewrite HL. split; intros Hp.
    + apply (path_frame h h' f lo hi); [done..|]. right. eauto.
    + apply (path_frame h' h f lo hi); [done| |done|]; [|right; eauto].
      intros b Hb. symmetry. by apply Hag'.
  - apply IH; [done|]. intros b Hb. apply Hag. lia.
Qed.

(* Walks after the dangling arrows of a fragment have been connected to [t]:
   a walk to a dangling arrow, then a walk from [t]. *)
Lemma connect_paths h h' f lo hi t q :
  frag_ok h f lo hi -> patched h h' (outs f) t ->
  (forall a, q = Some a -> ~ lo <= a < hi) ->
  forall p s, (exists a, p = Some a /\ lo <= a < hi) ->
    path h' p s q <->
    exists s1 s2, s = s1 ++ s2 /\ path h p s1 None /\ path h' t s2 q.
Proof.
  intros (_ & Ho & Hcl) [Hlen Hpatch] Hq p s Hp. split.
  - intros H. induction H as [p|a st' s q Ha Hk Hrest IH|a st' s q Ha Hk Hrest IH
                               |a st' s q Ha Hk Hrest IH].
    + destruct Hp as (a & -> & Hr). by destruct (Hq a).
    + destruct Hp as (? & [= <-] & Hr).
      destruct (Hcl _ Hr) as (st & Hst & Hs).
      pose proof (Hpatch _ _ Hst) as Ha'. rewrite Ha in Ha'. injection Ha' as ->.
      destruct (decide (a ∈ outs f)) as [Hin|Hnin]; simpl in *.
      * destruct (Ho _ Hin) as (_ & st0 & Hst0 & Hk0 & Hn0).
        rewrite Hst in Hst0. injection Hst0 as <-.
        exists [char st], s. split; [done|]. split; [|done].
        apply path_char; [done..|]. rewrite Hn0. constructor.
      * rewrite Hk in Hs. destruct (out1 st) as [b|] eqn:E; [|done].
        destruct (IH Hq) as (s1 & s2 & -> & P1 & P2); [eauto|].
        exists (char st :: s1), s2. split; [done|]. split; [|done].
        apply path_char; [done..|]. by rewrite E.
    + destruct Hp as (? & [= <-] & Hr).
      destruct (Hcl _ Hr) as (st & Hst & Hs).
      pose proof (Hpatch _ _ Hst) as Ha'. rewrite Ha in Ha'. injection Ha' as ->.
      destruct (decide (a ∈ outs f)) as [Hin|Hnin]; simpl in *.
      * destruct (Ho _ Hin) as (_ & st0 & Hst0 & Hk0 & Hn0).
        rewrite Hst in Hst0. injection Hst0 as <-. congruence.
      * rewrite Hk in Hs. destruct Hs as (b1 & b2 & E1 & E2 & R1 & R2).
        destruct (IH Hq) as (s1 & s2 & -> & P1 & P2); [rewrite E1; eauto|].
        exists s1, s2. split; [done|]. split; [|done].
        by apply path_left with st.
    + destruct Hp as (? & [= <-] & Hr).
      destruct (Hcl _ Hr) as (st & Hst & Hs).
      pose proof (Hpatch _ _ Hst) as Ha'. rewrite Ha in Ha'. injection Ha' as ->.
      destruct (decide (a ∈ outs f)) as [Hin|Hnin]; simpl in *.
      * destruct (Ho _ Hin) as (_ & st0 & Hst0 & Hk0 & Hn0).
        rewrite Hst in Hst0. injection Hst0 as <-. congruence.
      * rewrite Hk in Hs. destruct Hs as (b1 & b2 & E1 & E2 & R1 & R2).
        destruct (IH Hq) as (s1 & s2 & -> & P1 & P2); [rewrite E2; eauto|].
        exists s1, s2. split; [done|]. split; [|done].
        by apply path_right with st.
  - intros (s1 & s2 & -> & P1 & P2). revert Hp.
    remember None as x eqn:Ex in P1.
    induction P1 as [p|a st s q0 Ha Hk Hrest IH|a st s q0 Ha Hk Hrest IH
                     |a st s q0 Ha Hk Hrest IH]; intros Hp.
    + subst p. by destruct Hp as (? & ? & _).
    + destruct Hp as (? & [= <-] & Hr).
      destruct (Hcl _ Hr) as (st0 & Hst & Hs). rewrite Ha in Hst. injection Hst as <-.
      rewrite Hk in Hs. pose proof (Hpatch _ _ Ha) as Ha'.
      destruct (out1 st) as [b|] eqn:E.
      * assert (Hnin : a ∉ outs f).
        { intros Hin. destruct (Ho _ Hin) as (_ & st0 & Hst0 & _ & Hn0). congruence. }
        rewrite decide_False in Ha' by done. simpl.
        apply path_char; [done..|]. rewrite E. apply IH; [done|eauto].
      * rewrite decide_True in Ha' by done. subst q0.
        apply path_None in Hrest as [-> _]. simpl.
        change (char st) with
          (char {| char := char st; kind := kind st; out1 := t; out2 := out2 st |}).
        by apply path_char.
    + destruct Hp as (? & [= <-] & Hr).
      destruct (Hcl _ Hr) as (st0 & Hst & Hs). rewrite Ha in Hst. injection Hst as <-.
      rewrite Hk in Hs. destruct Hs as (b1 & b2 & E1 & E2 & R1 & R2).
      pose proof (Hpatch _ _ Ha) as Ha'.
      assert (Hnin : a ∉ outs f).
      { intros Hin. destruct (Ho _ Hin) as (_ & st0 & Hst0 & Hk0 & _). congruence. }
      rewrite decide_False in Ha' by done.
      apply path_left with st; [done..|]. apply IH; [done|rewrite E1; eauto].
    + destruct Hp as (? & [= <-] & Hr).
      destruct (Hcl _ Hr) as (st0 & Hst & Hs). rewrite Ha in Hst. injection Hst as <-.
      rewrite Hk in Hs. destruct Hs as (b1 & b2 & E1 & E2 & R1 & R2).
      pose proof (Hpatch _ _ Ha) as Ha'.
      assert (Hnin : a ∉ outs f).
      { intros Hin. destruct (Ho _ Hin) as (_ & st0 & Hst0 & Hk0 & _). congruence. }
      rewrite decide_False in Ha' by done.
      apply path_right with st; [done..|]. apply IH; [done|rewrite E2; eauto].
Qed.

Lemma denotes_lit_inv c s : denotes (Lit c) s <-> s = [c].
Proof. split; [by inversion 1|intros ->; constructor]. Qed.

Lemma denotes_cat_inv e1 e2 s :
  denotes (Cat e1 e2) s <->
  exists s1 s2, s = s1 ++ s2 /\ denotes e1 s1 /\ denotes e2 s2.
Proof.
  split; [inversion 1; eauto|]. intros (s1 & s2 & -> & H1 & H2). by constructor.
Qed.

Lemma denotes_alt_inv e1 e2 s :
  denotes (Alt e1 e2) s <-> denotes e1 s \/ denotes e2 s.
Proof.
  split; [inversion 1; eauto|]. intros [H|H]; [by apply denotes_alt_l|by apply denotes_alt_r].
Qed.

Lemma frames_operand h stack es c :
  frames h stack es (length h) ->
  frames (h ++ [{| char := c; kind := nfaStateKindChar; out1 := None; out2 := None |}])
         ({| start := Some (length h); outs := [length h] |} :: stack)
         (Lit c :: es) (S (length h)).
Proof.
  intros Hfr. set (st := {| char := c; kind := nfaStateKindChar; out1 := None; out2 := None |}).
  assert (Hn : (h ++ [st]) !! length h = Some st) by apply list_lookup_middle, eq_refl.
  exists (length h). split; [|split].
  - split; [exists (length h); simpl; split; [done|lia]|]. split.
    + intros o Ho. apply list_elem_of_singleton in Ho as ->. split; [lia|]. by exists st.
    + intros a Ha. assert (a = length h) as -> by lia. exists st. split; [done|].
      simpl. apply list_elem_of_here.
  - intros s. rewrite denotes_lit_inv. simpl. split.
    + intros ->. change c with (char st). apply path_char; [done..|]. constructor.
    + inversion 1 as [|a st' s' q Ha Hk Hrest|a st' s' q Ha Hk Hrest|a st' s' q Ha Hk Hrest];
        subst; rewrite Hn in Ha; injection Ha as <-; try discriminate.
      simpl in Hrest. by apply path_None in Hrest as [-> _].
  - apply (frames_frame h); [done|]. intros a Ha. by apply lookup_app_l.
Qed.

Lemma frames_cat h h' f1 f2 stack e1 e2 es :
  frames h (f2 :: f1 :: stack) (e2 :: e1 :: es) (length h) ->
  connect_loop h (outs f1) (start f2) = Ok h' ->
  frames h' ({| start := start f1; outs := outs f2 |} :: stack) (Cat e1 e2 :: es) (length h').
Proof.
  intros (lo2 & Hf2 & HL2 & lo1 & Hf1 & HL1 & Hrest) Hc.
  apply connect_loop_patched in Hc as Hp. destruct Hp as [Hlen Hpatch].
  pose proof (frag_ok_le _ _ _ _ Hf1) as Hlt1.
  pose proof (frag_ok_le _ _ _ _ Hf2) as Hlt2.
  (* the arrows of the first fragment are below the second one *)
  assert (Hout1 : forall a, lo2 <= a -> a ∉ outs f1).
  { intros a Ha Hin. destruct Hf1 as (_ & Ho & _). destruct (Ho _ Hin) as [? _]. lia. }
  assert (Hag2 : forall a, lo2 <= a < length h -> h' !! a = h !! a).
  { intros a Ha. destruct Hf2 as (_ & _ & Hcl). destruct (Hcl _ Ha) as (st & Hst & _).
    rewrite (Hpatch _ _ Hst), Hst. rewrite decide_False; [done|]. apply Hout1. lia. }
  assert (Hag0 : forall a, a < lo1 -> h' !! a = h !! a).
  { intros a Ha. destruct (h !! a) as [st|] eqn:E.
    - rewrite (Hpatch _ _ E). rewrite decide_False; [done|].
      intros Hin. destruct Hf1 as (_ & Ho & _). destruct (Ho _ Hin) as [? _]. lia.
    - apply lookup_ge_None in E. apply lookup_ge_None. lia. }
  rewrite Hlen. exists lo1. split; [|split].
  - destruct Hf1 as ((a1 & Hs1 & Hr1) & Ho1 & Hcl1).
    destruct Hf2 as ((a2 & Hs2 & Hr2) & Ho2 & Hcl2).
    split; [exists a1; simpl; split; [done|lia]|]. split.
    + simpl. intros o Hin. destruct (Ho2 _ Hin) as (Hr & st & Hst & Hk).
      split; [lia|]. exists st. by rewrite Hag2.
    + simpl. intros a Ha. destruct (decide (a < lo2)) as [Hlo|Hhi].
      * destruct (Hcl1 a ltac:(lia)) as (st & Hst & Hs).
        rewrite (Hpatch _ _ Hst). eexists. split; [done|].
        destruct (decide (a ∈ outs f1)) as [Hin|Hnin]; simpl.
        -- destruct (Ho1 _ Hin) as (_ & st0 & Hst0 & Hk0 & _).
           rewrite Hst in Hst0. injection Hst0 as <-. rewrite Hk0, Hs2. lia.
        -- destruct (kind st); [|destruct Hs as (b1 & b2 & ? & ? & ? & ?);
                                  exists b1, b2; repeat split; (done || lia)|done].
           destruct (out1 st); [lia|done].
      * destruct (Hcl2 a ltac:(lia)) as (st & Hst & Hs).
        exists st. rewrite Hag2 by lia. split; [done|].
        destruct (kind st); [|destruct Hs as (b1 & b2 & ? & ? & ? & ?);
                                exists b1, b2; repeat split; (done || lia)|done].
        destruct (out1 st); [lia|done].
  - intros s. rewrite denotes_cat_inv. simpl.
    destruct (frag_ok_start _ _ _ _ Hf1) as (a1 & Hs1 & Hr1).
    destruct (frag_ok_start _ _ _ _ Hf2) as (a2 & Hs2 & Hr2).
    rewrite (connect_paths h h' f1 lo1 lo2 (start f2) None Hf1); [|done|done|eauto].
    split; intros (s1 & s2 & -> & P1 & P2); exists s1, s2; (split; [done|]).
    + split; [by apply HL1|]. apply HL2 in P2.
      apply (path_frame h h' f2 lo2 (length h)); [done..|]. right. eauto.
    + split; [by apply HL1|]. apply HL2.
      apply (path_frame h' h f2 lo2 (length h)); [| |done|right; eauto].
      * by apply (frag_ok_frame h).
      * intros a Ha. symmetry. by apply Hag2.
  - by apply (frames_frame h).
Qed.

Lemma frames_alt h f1 f2 stack e1 e2 es :
  frames h (f2 :: f1 :: stack) (e2 :: e1 :: es) (length h) ->
  frames (h ++ [{| char := 0; kind := nfaStateKindSplit;
                   out1 := start f1; out2 := start f2 |}])
         ({| start := Some (length h); outs := outs f1 ++ outs f2 |} :: stack)
         (Alt e1 e2 :: es) (S (length h)).
Proof.
  intros (lo2 & Hf2 & HL2 & lo1 & Hf1 & HL1 & Hrest).
  set (st := {| char := 0; kind := nfaStateKindSplit;
                out1 := start f1; out2 := start f2 |}).
  assert (Hn : (h ++ [st]) !! length h = Some st) by apply list_lookup_middle, eq_refl.
  assert (Hag : forall a, a < length h -> (h ++ [st]) !! a = h !! a)
    by (intros a Ha; by apply lookup_app_l).
  pose proof (frag_ok_le _ _ _ _ Hf1) as Hlt1.
  pose proof (frag_ok_le _ _ _ _ Hf2) as Hlt2.
  destruct (frag_ok_start _ _ _ _ Hf1) as (a1 & Hs1 & Hr1).
  destruct (frag_ok_start _ _ _ _ Hf2) as (a2 & Hs2 & Hr2).
  exists lo1. split; [|split].
  - destruct Hf1 as (_ & Ho1 & Hcl1). destruct Hf2 as (_ & Ho2 & Hcl2).
    split; [exists (length h); simpl; split; [done|lia]|]. split.
    + simpl. intros o Hin. apply elem_of_app in Hin as [Hin|Hin].
      * destruct (Ho1 _ Hin) as (Hr & s0 & Hst & Hk). split; [lia|].
        exists s0. rewrite Hag by lia. done.
      * destruct (Ho2 _ Hin) as (Hr & s0 & Hst & Hk). split; [lia|].
        exists s0. rewrite Hag by lia. done.
    + simpl. intros a Ha. destruct (decide (a < lo2)) as [Hlo|Hhi];
        [|destruct (decide (a < length h)) as [Hmid|Hlast]].
      * destruct (Hcl1 a ltac:(lia)) as (s0 & Hst & Hs).
        exists s0. rewrite Hag by lia. split; [done|].
        destruct (kind s0); [|destruct Hs as (b1 & b2 & ? & ? & ? & ?);
                                exists b1, b2; repeat split; (done || lia)|done].
        destruct (out1 s0); [lia|]. apply elem_of_app. by left.
      * destruct (Hcl2 a ltac:(lia)) as (s0 & Hst & Hs).
        exists s0. rewrite Hag by lia. split; [done|].
        destruct (kind s0); [|destruct Hs as (b1 & b2 & ? & ? & ? & ?);
                                exists b1, b2; repeat split; (done || lia)|done].
        destruct (out1 s0); [lia|]. apply elem_of_app. by right.
      * assert (a = length h) as -> by lia. exists st. split; [done|]. simpl.
        exists a1, a2. repeat split; (done || lia).
  - intros s. rewrite denotes_alt_inv. simpl.
    assert (Hag1 : forall a, lo1 <= a < lo2 -> (h ++ [st]) !! a = h !! a)
      by (intros; apply Hag; lia).
    assert (Hag2 : forall a, lo2 <= a < length h -> (h ++ [st]) !! a = h !! a)
      by (intros; apply Hag; lia).
    split.
    + intros [H|H].
      * apply path_left with st; [done..|]. simpl. apply HL1 in H.
        apply (path_frame h _ f1 lo1 lo2); [done..|]. right. eauto.
      * apply path_right with st; [done..|]. simpl. apply HL2 in H.
        apply (path_frame h _ f2 lo2 (length h)); [done..|]. right. eauto.
    + inversion 1 as [|a st' s' q Ha Hk Hp|a st' s' q Ha Hk Hp|a st' s' q Ha Hk Hp];
        subst; rewrite Hn in Ha; injection Ha as <-; try discriminate; simpl in Hp.
      * left. apply HL1.
        apply (path_frame (h ++ [st]) h f1 lo1 lo2); [| |done|right; eauto].
        -- by apply (frag_ok_frame h).
        -- intros a Ha. symmetry. by apply Hag1.
      * right. apply HL2.
        apply (path_frame (h ++ [st]) h f2 lo2 (length h)); [| |done|right; eauto].
        -- by apply (frag_ok_frame h).
        -- intros a Ha. symmetry. by apply Hag2.
  - apply (frames_frame h); [done|]. intros a Ha. apply Hag. lia.
Qed.

Lemma nfa_step_frames h stack c h' stack' es :
  nfa_step (h, stack) c = Ok (h', stack') ->
  frames h stack es (length h) ->
  exists es', rpn_step es c = Some es' /\ frames h' stack' es' (length h').
Proof.
  unfold nfa_step, rpn_step, connectNfaFrag, alloc. intros H Hfr.
  destruct (c =? opAnd)%Z; [|destruct (c =? opOr)%Z].
  - bind_inv H. destruct x as [f2 st2]. apply Pop_Ok in Hm as ->.
    bind_inv H. destruct x as [f1 st1]. apply Pop_Ok in Hm as ->.
    bind_inv H. injection H as <- <-.
    destruct es as [|e2 [|e1 es]]; try (by destruct Hfr as (? & ? & ? & ?)); [done|].
    eexists. split; [done|]. by apply (frames_cat h).
  - bind_inv H. destruct x as [f2 st2]. apply Pop_Ok in Hm as ->.
    bind_inv H. destruct x as [f1 st1]. apply Pop_Ok in Hm as ->.
    injection H as <- <-.
    destruct es as [|e2 [|e1 es]]; try (by destruct Hfr as (? & ? & ? & ?)); [done|].
    eexists. split; [done|]. rewrite length_app. simpl. rewrite Nat.add_1_r.
    by apply frames_alt.
  - injection H as <- <-. eexists. split; [done|].
    rewrite length_app. simpl. rewrite Nat.add_1_r. by apply frames_operand.
Qed.

Lemma nfa_loop_frames str : forall h stack es h' stack',
  nfa_loop str (h, stack) = Ok (h', stack') ->
  frames h stack es (length h) ->
  exists es', rpn_parse str es = Some es' /\ frames h' stack' es' (length h').
Proof.
  induction str as [|c str IH]; intros h stack es h' stack' H Hfr; simpl in H.
  - injection H as <- <-. by exists es.
  - bind_inv H. destruct x as [h1 stack1].
    destruct (nfa_step_frames h stack c h1 stack1 es Hm Hfr) as (es1 & E1 & Hfr1).
    destruct (IH _ _ _ _ _ H Hfr1) as (es' & E' & Hfr').
    exists es'. split; [|done]. simpl. by rewrite E1.
Qed.

Lemma nfa_language post r :
  nfa post = Ok r ->
  exists e es, rpn_parse post [] = Some (e :: es) /\
               forall s, recognizes r s <-> denotes e s.
Proof.
  unfold nfa, connectNfaFrag, alloc. intros H.
  bind_inv H. destruct x as [h stack].
  destruct (nfa_loop_frames _ _ _ [] _ _ Hm I) as (es' & Ep & Hfr).
  bind_inv H. destruct x as [f rest]. apply Pop_Ok in Hm0 as ->.
  bind_inv H. rename x into h'. injection H as <-.
  destruct es' as [|e es]; [done|]. destruct Hfr as (lo & Hf & HL & _).
  exists e, es. split; [done|]. intros s.
  set (m := {| char := 0; kind := nfaStateKindMatch; out1 := None; out2 := None |}) in *.
  set (hm := h ++ [m]) in *.
  assert (Hag : forall a, lo <= a < length h -> hm !! a = h !! a)
    by (intros a Ha; apply lookup_app_l; lia).
  pose proof (frag_ok_frame _ _ _ _ _ Hf Hag) as Hfm.
  apply connect_loop_patched in Hm0 as Hp.
  destruct (frag_ok_start _ _ _ _ Hf) as (a0 & Hs0 & Hr0).
  assert (Hlast : h' !! length h = Some m).
  { destruct Hp as [_ Hpatch].
    rewrite (Hpatch (length h) m) by apply list_lookup_middle, eq_refl.
    rewrite decide_False; [done|]. intros Hin.
    destruct Hf as (_ & Ho & _). destruct (Ho _ Hin) as [? _]. lia. }
  rewrite HL. unfold recognizes. simpl. split.
  - intros (b & st & Hpath & Hb & Hk).
    assert (Hq : forall a, Some b = Some a -> ~ lo <= a < length h).
    { intros ? [= <-] Hr. destruct Hfm as (_ & _ & Hcl).
      destruct (Hcl _ Hr) as (s0 & Hst0 & Hs). destruct Hp as [_ Hpatch].
      rewrite (Hpatch _ _ Hst0) in Hb. injection Hb as <-.
      destruct (decide (b ∈ outs f)); simpl in Hk; rewrite Hk in Hs; done. }
    apply (connect_paths hm h' f lo (length h) (Some (length h)) (Some b) Hfm Hp Hq) in Hpath
      as (s1 & s2 & -> & P1 & P2); [|eauto].
    inversion P2 as [|a st' s' q Ha Hk' Hp'|a st' s' q Ha Hk' Hp'|a st' s' q Ha Hk' Hp'];
      subst; try (rewrite Hlast in Ha; injection Ha as <-; discriminate).
    rewrite app_nil_r.
    apply (path_frame hm h f lo (length h)); [done| |done|right; eauto].
    intros a Ha. symmetry. by apply Hag.
  - intros Hpath. exists (length h), m. split; [|done].
    apply (connect_paths hm h' f lo (length h) (Some (length h)) (Some (length h)) Hfm Hp);
      [intros ? [= <-]; lia|eauto|].
    exists s, []. split; [by rewrite app_nil_r|]. split; [|constructor].
    apply (path_frame h hm f lo (length h)); [done..|]. right. eauto.
Qed.

(** ** postfix puts an expression into its postfix form *)

Lemma rpn_parse_app post1 : forall post2 es,
  rpn_parse (post1 ++ post2) es =
  match rpn_parse post1 es with Some es' => rpn_parse post2 es' | None => None end.
Proof.
  induction post1 as [|c post1 IH]; intros post2 es; simpl; [done|].
  destruct (rpn_step es c); [apply IH|done].
Qed.

Lemma rpn_parse_rpn e : forall es,
  literals_ok e -> rpn_parse (rpn e) es = Some (strip e :: es).
Proof.
  unfold rpn. induction e as [c|e1 IH1 e2 IH2|e1 IH1 e2 IH2|e IH]; intros es H; simpl in *.
  - apply isOperator_literal in H as (_ & _ & H1 & H2).
    unfold rpn_step. by rewrite H1, H2.
  - destruct H as [H1 H2].
    rewrite (rpn_parse_app (_ ++ _) [opAnd]), (rpn_parse_app (body e1 ++ pend e1)).
    by rewrite IH1, IH2.
  - destruct H as [H1 H2].
    replace (((body e1 ++ pend e1) ++ body e2) ++ pend e2 ++ [opOr])
      with ((body e1 ++ pend e1) ++ (body e2 ++ pend e2) ++ [opOr])
      by (by rewrite <- !app_assoc).
    rewrite (rpn_parse_app (body e1 ++ pend e1)), IH1 by done.
    by rewrite (rpn_parse_app (body e2 ++ pend e2)), IH2.
  - rewrite app_nil_r. by apply IH.
Qed.

Lemma precedence_spec c :
  precedence c = if (c =? opAnd)%Z then 1%Z else if (c =? opOr)%Z then 0%Z else (-1)%Z.
Proof.
  unfold precedence, operatorPrecedence. cbn [precedence_loop].
  destruct (c =? opAnd)%Z eqn:E1; [apply Z.eqb_eq in E1 as ->; done|].
  by destruct (c =? opOr)%Z.
Qed.

Lemma pend_binary e : Forall (fun o => isBinary o = true) (pend e).
Proof.
  induction e as [c|e1 IH1 e2 IH2|e1 IH1 e2 IH2|e IH]; simpl.
  - constructor.
  - by apply Forall_singleton.
  - apply Forall_app. split; [done|]. by apply Forall_singleton.
  - constructor.
Qed.

(* A group end moves the pending operators to the output. *)
Lemma postfix_groupEnd_pend P : forall ops res,
  Forall (fun o => isBinary o = true) P ->
  postfix_groupEnd (P ++ opGroupStart :: ops) res = Ok (ops, res ++ P).
Proof.
  induction P as [|o P IH]; intros ops res HP; simpl.
  - by rewrite app_nil_r.
  - inversion_clear HP as [|? ? Ho HP'].
    assert ((o =? opGroupStart)%Z = false) as ->.
    { unfold isBinary in Ho. apply orb_true_iff in Ho as [Ho|Ho];
        apply Z.eqb_eq in Ho; by subst o. }
    rewrite IH by done. by rewrite <- app_assoc.
Qed.

(* So does an alternation, which then goes on the stack. *)
Lemma postfix_operator_or P : forall ops res,
  Forall (fun o => isBinary o = true) P ->
  match ops with [] => True | o :: _ => isBinary o = false end ->
  postfix_operator opOr (P ++ ops) res = (opOr :: ops, res ++ P).
Proof.
  induction P as [|o P IH]; intros ops res HP Hops; simpl.
  - rewrite app_nil_r. destruct ops as [|o ops]; [done|]. simpl.
    rewrite !precedence_spec. unfold isBinary in Hops.
    apply orb_false_iff in Hops as [-> ->]. done.
  - inversion_clear HP as [|? ? Ho HP'].
    assert ((precedence o >=? precedence opOr)%Z = true) as ->.
    { rewrite !precedence_spec. unfold isBinary in Ho.
      apply orb_true_iff in Ho as [Ho|Ho]; rewrite Ho; [done|].
      by destruct (o =? opAnd)%Z. }
    rewrite IH by done. by rewrite <- app_assoc.
Qed.

Lemma postfix_operator_and ops res :
  match ops with [] => True | o :: _ => o <> opAnd end ->
  postfix_operator opAnd ops res = (opAnd :: ops, res) /\
  postfix_operator opAnd (opAnd :: ops) res = (opAnd :: ops, res ++ [opAnd]).
Proof.
  intros Hops.
  assert (E : postfix_operator opAnd ops res = (opAnd :: ops, res)).
  { destruct ops as [|o ops]; [done|]. simpl. rewrite !precedence_spec.
    apply Z.eqb_neq in Hops. rewrite Hops. by destruct (o =? opOr)%Z. }
  split; [done|]. simpl. change (precedence opAnd >=? precedence opAnd)%Z with true.
  destruct ops as [|o ops]; [done|]. simpl. rewrite !precedence_spec.
  apply Z.eqb_neq in Hops. rewrite Hops. by destruct (o =? opOr)%Z.
Qed.

Lemma postfix_loop_app toks1 : forall toks2 st,
  postfix_loop (toks1 ++ toks2) st = st' ← postfix_loop toks1 st; postfix_loop toks2 st'.
Proof.
  induction toks1 as [|c toks1 IH]; intros toks2 st; simpl; [done|].
  destruct (postfix_step st c) as [st1| |]; simpl; [apply IH|done..].
Qed.

Lemma postfix_step_open ops res :
  postfix_step (ops, res) opGroupStart = Ok (opGroupStart :: ops, res).
Proof. done. Qed.

Lemma postfix_step_close ops res :
  postfix_step (ops, res) opGroupEnd = postfix_groupEnd ops res.
Proof. done. Qed.

Lemma postfix_step_and ops res :
  postfix_step (ops, res) opAnd = Ok (postfix_operator opAnd ops res).
Proof. done. Qed.

Lemma postfix_step_or ops res :
  postfix_step (ops, res) opOr = Ok (postfix_operator opOr ops res).
Proof. done. Qed.

Lemma shunts_group e ops res rest :
  shunts e ->
  postfix_loop (([opGroupStart] ++ tokens_of e ++ [opGroupEnd]) ++ rest) (ops, res)
  = postfix_loop rest (ops, res ++ rpn e).
Proof.
  intros He. rewrite <- !app_assoc. cbn [app postfix_loop].
  rewrite postfix_step_open. cbn [mbind outcome_bind].
  rewrite He by (destruct e; done). cbn [postfix_loop].
  rewrite postfix_step_close, postfix_groupEnd_pend by apply pend_binary.
  cbn [mbind outcome_bind]. unfold rpn. by rewrite app_assoc.
Qed.

(* An operand of a concatenation that is no concatenation itself. *)
Lemma shunts_grouped e ops res rest :
  shunts e -> is_cat e = false ->
  postfix_loop (grouped e (tokens_of e) ++ rest) (ops, res)
  = postfix_loop rest (ops, res ++ rpn e).
Proof.
  intros He Hc. destruct e as [c|e1 e2|e1 e2|e]; try done; cbn [grouped].
  - unfold rpn. rewrite (He ops res rest I). cbn [pend app]. by rewrite ?app_nil_r.
  - by apply shunts_group.
  - unfold rpn. rewrite (He ops res rest I). cbn [pend app]. by rewrite ?app_nil_r.
Qed.

Lemma ctx_ok_weaken e ops :
  match ops with [] => True | o :: _ => isBinary o = false end -> ctx_ok e ops.
Proof.
  destruct e as [c|e1 e2|e1 e2|e]; try done. destruct ops as [|o ops]; [done|].
  simpl. by intros Ho ->.
Qed.

Lemma shunts_leftn e : literals_ok e -> leftn e -> shunts e.
Proof.
  induction e as [c|e1 IH1 e2 IH2|e1 IH1 e2 IH2|e IH]; intros Hl Hn ops res rest Hctx.
  - cbn [tokens_of app postfix_loop pend body].
    by rewrite (postfix_step_lit c ops res Hl).
  - destruct Hl as [Hl1 Hl2]. destruct Hn as (Hn1 & Hn2 & Hc2).
    specialize (IH1 Hl1 Hn1). specialize (IH2 Hl2 Hn2).
    cbn [tokens_of pend body]. rewrite <- !app_assoc.
    assert (Hctx' : match ops with [] => True | o :: _ => o <> opAnd end)
      by (by destruct ops).
    destruct (postfix_operator_and ops (res ++ rpn e1) Hctx') as [Ea _].
    destruct (postfix_operator_and ops (res ++ body e1) Hctx') as [_ Eb].
    assert (E1 : postfix_loop (grouped e1 (tokens_of e1) ++ [opAnd] ++
                               grouped e2 (tokens_of e2) ++ rest) (ops, res)
                 = postfix_loop (grouped e2 (tokens_of e2) ++ rest)
                                (opAnd :: ops, res ++ rpn e1)).
    { destruct (is_cat e1) eqn:Ec1.
      - destruct e1 as [|a b| |]; try done. cbn [grouped].
        rewrite IH1 by done. cbn [pend app postfix_loop].
        rewrite postfix_step_and, Eb. cbn [mbind outcome_bind].
        unfold rpn. cbn [pend]. by rewrite <- app_assoc.
      - rewrite shunts_grouped by done. cbn [app postfix_loop].
        rewrite postfix_step_and, Ea. done. }
    rewrite E1, shunts_grouped by done. cbn [app].
    unfold rpn. by rewrite !app_assoc.
  - destruct Hl as [Hl1 Hl2]. destruct Hn as (Hn1 & Hn2 & Ha2).
    specialize (IH1 Hl1 Hn1). specialize (IH2 Hl2 Hn2).
    cbn [tokens_of pend body]. rewrite <- !app_assoc.
    rewrite IH1 by (by apply ctx_ok_weaken).
    cbn [app postfix_loop]. rewrite postfix_step_or.
    rewrite postfix_operator_or; [|apply pend_binary|by destruct ops].
    cbn [mbind outcome_bind].
    rewrite IH2 by (by destruct e2).
    by rewrite <- !app_assoc.
  - simpl in Hl, Hn. specialize (IH Hl Hn).
    change (tokens_of (Grp e)) with ([opGroupStart] ++ tokens_of e ++ [opGroupEnd]).
    rewrite shunts_group by done. done.
Qed.

Lemma postfix_leftn e :
  literals_ok e -> leftn e -> postfix (tokens_of e) = Ok (rpn e).
Proof.
  intros Hl Hn. unfold postfix.
  pose proof (shunts_leftn e Hl Hn [] [] [] (ctx_ok_weaken e [] I)) as E.
  rewrite app_nil_r in E. rewrite E. simpl. by rewrite app_nil_r.
Qed.

(* The tokens of an expression are those of its left-associated form. *)
Lemma catl_is_cat e1 e2 : is_cat (catl e1 e2) = true.
Proof. by destruct e2. Qed.

Lemma altl_is_alt e1 e2 : is_alt (altl e1 e2) = true.
Proof. by destruct e2. Qed.

Lemma grouped_cat e t : is_cat e = true -> grouped e t = t.
Proof. by destruct e. Qed.

Lemma tokens_of_catl e1 e2 : tokens_of (catl e1 e2) = tokens_of (Cat e1 e2).
Proof.
  induction e2 as [c|a IHa b IHb|a IHa b IHb|e IH]; try done.
  cbn [catl tokens_of grouped]. rewrite (grouped_cat (catl e1 a)) by apply catl_is_cat.
  rewrite IHa. cbn [tokens_of]. by rewrite <- !app_assoc.
Qed.

Lemma tokens_of_altl e1 e2 : tokens_of (altl e1 e2) = tokens_of (Alt e1 e2).
Proof.
  induction e2 as [c|a IHa b IHb|a IHa b IHb|e IH]; try done.
  cbn [altl tokens_of]. rewrite IHa. cbn [tokens_of]. by rewrite <- !app_assoc.
Qed.

Lemma norm_is_alt e : is_alt (norm e) = is_alt e.
Proof.
  destruct e as [c|e1 e2|e1 e2|e]; try done; simpl.
  - pose proof (catl_is_cat (norm e1) (norm e2)). by destruct (catl (norm e1) (norm e2)).
  - apply altl_is_alt.
Qed.

Lemma grouped_alt e e' t : is_alt e = is_alt e' -> grouped e t = grouped e' t.
Proof. by destruct e, e'. Qed.

Lemma tokens_of_norm e : tokens_of (norm e) = tokens_of e.
Proof.
  induction e as [c|e1 IH1 e2 IH2|e1 IH1 e2 IH2|e IH]; simpl.
  - done.
  - rewrite tokens_of_catl. cbn [tokens_of]. rewrite IH1, IH2.
    by rewrite (grouped_alt (norm e1) e1), (grouped_alt (norm e2) e2)
      by apply norm_is_alt.
  - rewrite tokens_of_altl. cbn [tokens_of]. by rewrite IH1, IH2.
  - by rewrite IH.
Qed.

Lemma leftn_catl e1 e2 : leftn e1 -> leftn e2 -> leftn (catl e1 e2).
Proof.
  intros H1. induction e2 as [c|a IHa b IHb|a IHa b IHb|e IH]; intros H2; try done.
  simpl in *. destruct H2 as (Ha & Hb & Hc). auto.
Qed.

Lemma leftn_altl e1 e2 : leftn e1 -> leftn e2 -> leftn (altl e1 e2).
Proof.
  intros H1. induction e2 as [c|a IHa b IHb|a IHa b IHb|e IH]; intros H2; try done.
  simpl in *. destruct H2 as (Ha & Hb & Hc). auto.
Qed.

Lemma leftn_norm e : leftn (norm e).
Proof.
  induction e; simpl; auto using leftn_catl, leftn_altl.
Qed.

Lemma literals_ok_catl e1 e2 :
  literals_ok e1 -> literals_ok e2 -> literals_ok (catl e1 e2).
Proof.
  intros H1. induction e2 as [c|a IHa b IHb|a IHa b IHb|e IH]; intros H2; try done.
  simpl in *. destruct H2. auto.
Qed.

Lemma literals_ok_altl e1 e2 :
  literals_ok e1 -> literals_ok e2 -> literals_ok (altl e1 e2).
Proof.
  intros H1. induction e2 as [c|a IHa b IHb|a IHa b IHb|e IH]; intros H2; try done.
  simpl in *. destruct H2. auto.
Qed.

Lemma literals_ok_norm e : literals_ok e -> literals_ok (norm e).
Proof.
  induction e; simpl; intros H; try done.
  - destruct H. auto using literals_ok_catl.
  - destruct H. auto using literals_ok_altl.
  - auto.
Qed.

(* And its language is that of the left-associated form without its groups. *)
Lemma denotes_catl e1 e2 s :
  denotes (strip (catl e1 e2)) s <-> denotes (Cat (strip e1) (strip e2)) s.
Proof.
  revert s. induction e2 as [c|a IHa b IHb|a IHa b IHb|e IH]; intros s; try done.
  cbn [catl strip]. rewrite !denotes_cat_inv. split.
  - intros (s1 & s2 & -> & H1 & H2). apply IHa, denotes_cat_inv in H1
      as (t1 & t2 & -> & T1 & T2).
    exists t1, (t2 ++ s2). split; [by rewrite app_assoc|]. split; [done|].
    by constructor.
  - intros (s1 & s2 & -> & H1 & H2). apply denotes_cat_inv in H2
      as (t1 & t2 & -> & T1 & T2).
    exists (s1 ++ t1), t2. split; [by rewrite app_assoc|]. split; [|done].
    apply IHa. by constructor.
Qed.

Lemma denotes_altl e1 e2 s :
  denotes (strip (altl e1 e2)) s <-> denotes (Alt (strip e1) (strip e2)) s.
Proof.
  revert s. induction e2 as [c|a IHa b IHb|a IHa b IHb|e IH]; intros s; try done.
  cbn [altl strip]. rewrite !denotes_alt_inv, IHa, !denotes_alt_inv. tauto.
Qed.

Lemma denotes_norm e : forall s, denotes (strip (norm e)) s <-> denotes e s.
Proof.
  induction e as [c|e1 IH1 e2 IH2|e1 IH1 e2 IH2|e IH]; intros s; simpl.
  - done.
  - rewrite denotes_catl, !denotes_cat_inv.
    split; intros (s1 & s2 & -> & H1 & H2); exists s1, s2;
      (split; [done|]); split; (by apply IH1) || (by apply IH2).
  - rewrite denotes_altl, !denotes_alt_inv, IH1, IH2. done.
  - rewrite IH. split; [by constructor|by inversion 1].
Qed.

Lemma postfix_tokens e :
  literals_ok e ->
  postfix (tokens_of e) = Ok (rpn (norm e)) /\
  rpn_parse (rpn (norm e)) [] = Some [strip (norm e)].
Proof.
  intros H. split.
  - rewrite <- tokens_of_norm. apply postfix_leftn; [by apply literals_ok_norm|].
    apply leftn_norm.
  - apply rpn_parse_rpn. by apply literals_ok_norm.
Qed.

Lemma Compile_language e :
  literals_ok e ->
  exists r, Compile (pattern_of e) = Ok r /\
            forall s, recognizes r s <-> denotes e s.
Proof.
  intros H. destruct (Compile_pattern e H) as [r Hr]. exists r. split; [done|].
  unfold Compile in Hr. rewrite (preprocess_pattern e H) in Hr. simpl in Hr.
  destruct (postfix_tokens e H) as [Ep Er]. rewrite Ep in Hr. simpl in Hr.
  destruct (nfa_language _ _ Hr) as (e' & es & E' & HL).
  rewrite Er in E'. injection E' as <- <-.
  intros s. by rewrite HL, denotes_norm.
Qed.

(** ** The matcher on automata in which no split follows a rune *)

Lemma path_app h p s1 q :
  path h p s1 q -> forall s2 q', path h q s2 q' -> path h p (s1 ++ s2) q'.
Proof.
  induction 1 as [p|a st s q Ha Hk _ IH|a st s q Ha Hk _ IH|a st s q Ha Hk _ IH];
    intros s2 q' H2; simpl.
  - done.
  - apply path_char; auto.
  - apply path_left with st; auto.
  - apply path_right with st; auto.
Qed.

Lemma path_snoc_inv h p s q :
  path h p s q -> forall s0 c, s = s0 ++ [c] ->
  exists a st, path h p s0 (Some a) /\ h !! a = Some st /\
               kind st = nfaStateKindChar /\ char st = c /\ path h (out1 st) [] q.
Proof.
  induction 1 as [p|a st s q Ha Hk Hrest IH|a st s q Ha Hk Hrest IH|a st s q Ha Hk Hrest IH];
    intros s0 c E.
  - by destruct s0.
  - destruct s0 as [|x s0]; simpl in E.
    + injection E as E1 ->. exists a, st. repeat split; try done. constructor.
    + injection E as <- E. destruct (IH _ _ E) as (b & sb & P & Hb & Kb & Cb & Pb).
      exists b, sb. repeat split; try done. by apply path_char.
  - destruct (IH _ _ E) as (b & sb & P & Hb & Kb & Cb & Pb).
    exists b, sb. repeat split; try done. by apply path_left with st.
  - destruct (IH _ _ E) as (b & sb & P & Hb & Kb & Cb & Pb).
    exists b, sb. repeat split; try done. by apply path_right with st.
Qed.

Lemma path_nil_nonsplit h p q : path h p [] q -> nonsplit h p -> q = p.
Proof.
  intros H (a & st & -> & Ha & Hk).
  inversion H as [|? st' ? ? Ha' Hk'|? st' ? ? Ha' Hk'|? st' ? ? Ha' Hk']; subst; try done;
    rewrite Ha in Ha'; injection Ha' as <-; done.
Qed.

Lemma closure_leaves h p l : closure h p l -> Forall (nonsplit h) l.
Proof.
  induction 1 as [a st Ha Hk|a st l1 l2 Ha Hk H1 IH1 H2 IH2].
  - apply Forall_singleton. by exists a, st.
  - by apply Forall_app.
Qed.

(* [appendState] adds the states reached without reading a rune. *)
Lemma closure_reached h p l :
  closure h p l -> forall q, q ∈ l <-> path h p [] q /\ nonsplit h q.
Proof.
  induction 1 as [a st Ha Hk|a st l1 l2 Ha Hk H1 IH1 H2 IH2]; intros q.
  - rewrite list_elem_of_singleton. split.
    + intros ->. split; [constructor|by exists a, st].
    + intros [H _]. apply path_nil_nonsplit in H; [done|by exists a, st].
  - rewrite elem_of_app, IH1, IH2. split.
    + intros [[P N]|[P N]]; (split; [|done]);
        [by apply path_left with st|by apply path_right with st].
    + intros [P (b & sb & -> & Hb & Kb)].
      inversion P as [|? st' ? ? Ha' Hk'|? st' ? ? Ha' Hk' P'|? st' ? ? Ha' Hk' P']; subst.
      * rewrite Ha in Hb. injection Hb as <-. done.
      * rewrite Ha in Ha'. injection Ha' as <-.
        left. split; [done|by exists b, sb].
      * rewrite Ha in Ha'. injection Ha' as <-.
        right. split; [done|by exists b, sb].
Qed.

Lemma append_backing_other growslice mem s x t k :
  arr t < length mem -> arr t <> arr s \/ k <> len s ->
  backing (append growslice mem s x).1 t !! k = backing mem t !! k.
Proof.
  intros Ht Hk. unfold append.
  destruct (len s <? length (backing mem s)) eqn:E; cbn [fst].
  - unfold backing at 1. destruct (decide (arr t = arr s)) as [Heq|Hne].
    + rewrite Heq, list_lookup_insert_eq by lia. simpl.
      destruct Hk as [Hk|Hk]; [done|].
      rewrite list_lookup_insert_ne by done. unfold backing. by rewrite Heq.
    + by rewrite list_lookup_insert_ne.
  - unfold backing. by rewrite lookup_app_l.
Qed.

Lemma elem_of_step_list h c l q :
  q ∈ step_list h c l <-> exists p, p ∈ l /\ q ∈ fires h c p.
Proof.
  unfold step_list. induction l as [|x l IH]; simpl.
  - split; [by intros ?%elem_of_nil|by intros (p & ?%elem_of_nil & _)].
  - rewrite elem_of_app, IH. split.
    + intros [H|(p & Hp & H)]; [exists x|exists p]; (split; [|done]);
        [apply list_elem_of_here|by apply list_elem_of_further].
    + intros (p & Hp & H). apply elem_of_cons in Hp as [->|Hp]; [by left|right; eauto].
Qed.

Section AfterRune.

Variable growslice : nat -> nat -> nat.
Variable h : heap.

(* A state that reads a rune other than U+0000 is a char-consuming state,
   and leads to a state that is no split. *)
Hypothesis h_after : forall a st, h !! a = Some st ->
  kind st <> nfaStateKindSplit -> char st <> 0%Z ->
  kind st = nfaStateKindChar /\ nonsplit h (out1 st).

Lemma fires_nonsplit c p :
  c <> 0%Z -> nonsplit h p -> Forall (nonsplit h) (fires h c p).
Proof.
  intros Hc (a & st & -> & Ha & Hk). unfold fires. simpl. rewrite Ha.
  destruct (char st =? c)%Z eqn:E; [|constructor].
  apply Z.eqb_eq in E. apply Forall_singleton.
  apply (h_after a st); [done..|]. by rewrite E.
Qed.

Lemma step_list_nonsplit c l :
  c <> 0%Z -> Forall (nonsplit h) l -> Forall (nonsplit h) (step_list h c l).
Proof.
  intros Hc. unfold step_list. induction 1 as [|p l Hp _ IH]; simpl; [constructor|].
  apply Forall_app. split; [by apply fires_nonsplit|done].
Qed.

Lemma appendState_nonsplit fuel mem s p :
  nonsplit h p ->
  appendState growslice (S fuel) h mem s p = Ok (append growslice mem s p).
Proof.
  intros (a & st & -> & Ha & Hk). simpl. rewrite Ha. simpl.
  by destruct (decide (kind st = nfaStateKindSplit)).
Qed.

(* One pass over the current states: each state that has not been read yet
   is still in its place, and [nextStates] has no more elements than the
   pass has read. *)
Lemma match_range_steps fuel c cur l :
  c <> 0%Z -> Forall (nonsplit h) l ->
  forall n j mem next,
    j + n = length l ->
    (forall k p, j <= k -> l !! k = Some p -> backing mem cur !! k = Some p) ->
    len next <= j -> len next <= length (backing mem next) ->
    exists mem' next',
      match_range growslice (S fuel) h c cur j n mem next = Ok (mem', next') /\
      elements mem' next' = elements mem next ++ step_list h c (drop j l) /\
      len next' <= length (backing mem' next').
Proof.
  intros Hc Hl. induction n as [|n IH]; intros j mem next Hj Hin Hn Hcap.
  - exists mem, next. split; [done|]. split; [|done].
    rewrite drop_ge by lia. unfold step_list. simpl. by rewrite app_nil_r.
  - destruct (lookup_lt_is_Some_2 l j) as [p Hp]; [lia|].
    pose proof (Hin j p ltac:(lia) Hp) as Hb.
    pose proof (proj1 (Forall_lookup _ _) Hl j p Hp) as (a & st & -> & Ha & Hk).
    assert (Harr : arr cur < length mem).
    { apply lookup_lt_Some in Hb.
      pose proof (backing_Some mem cur ltac:(lia)) as Hm.
      by apply lookup_lt_Some in Hm. }
    rewrite (drop_S _ _ _ Hp). unfold step_list. cbn [map concat]. fold (step_list h c (drop (S j) l)).
    cbn [match_range]. unfold index. rewrite Hb.
    change (default None (Some (Some a))) with (Some a). cbn [deref]. rewrite Ha.
    cbn [mbind outcome_bind]. unfold fires. cbn [deref]. rewrite Ha.
    destruct (char st =? c)%Z eqn:E.
    + apply Z.eqb_eq in E.
      destruct (h_after a st Ha Hk ltac:(by rewrite E)) as [_ Hout].
      rewrite (appendState_nonsplit fuel mem next _ Hout).
      pose proof (append_elements growslice mem next (out1 st) Hcap) as [He Hc'].
      pose proof (append_len growslice mem next (out1 st)) as Hlen.
      assert (Hin' : forall k p, S j <= k -> l !! k = Some p ->
                backing (append growslice mem next (out1 st)).1 cur !! k = Some p).
      { intros k p Hk' Hp'. rewrite append_backing_other; [apply Hin; [lia|done]|done|].
        right. lia. }
      destruct (append growslice mem next (out1 st)) as [mem1 next1].
      cbn [fst snd mbind outcome_bind] in *.
      destruct (IH (S j) mem1 next1) as (mem' & next' & E' & He' & Hc''); [lia|done|lia|done|].
      exists mem', next'. split; [done|]. split; [|done].
      by rewrite He', He, <- app_assoc.
    + destruct (IH (S j) mem next) as (mem' & next' & E' & He' & Hc''); [lia| |lia|done|].
      { intros k p Hk' Hp'. apply Hin; [lia|done]. }
      exists mem', next'. split; [done|]. split; [|done]. by rewrite He'.
Qed.

Lemma match_loop_steps fuel str : forall mem cur next,
  0%Z ∉ str ->
  Forall (nonsplit h) (elements mem cur) ->
  len cur <= length (backing mem cur) -> len next = 0 ->
  exists mem' cur' next',
    match_loop growslice (S fuel) h str mem cur next = Ok (mem', cur', next') /\
    elements mem' cur' = run_list h str (elements mem cur) /\
    len cur' <= length (backing mem' cur') /\
    Forall (nonsplit h) (elements mem' cur').
Proof.
  induction str as [|c str IH]; intros mem cur next Hz Hl Hcap Hn.
  - by exists mem, cur, next.
  - apply not_elem_of_cons in Hz as [Hc Hz].
    assert (Hlen : 0 + len cur = length (elements mem cur)).
    { unfold elements. rewrite length_take. lia. }
    destruct (match_range_steps fuel c cur (elements mem cur) ltac:(done) Hl
                (len cur) 0 mem next Hlen) as (mem1 & next1 & E1 & He1 & Hc1).
    { intros k p _ Hp. unfold elements in Hp. by apply lookup_take_Some in Hp as [? _]. }
    { lia. }
    { lia. }
    assert (elements mem next = []) as Hen by (unfold elements; by rewrite Hn).
    rewrite Hen, drop_0 in He1. simpl in He1.
    cbn [match_loop]. rewrite E1. cbn [mbind outcome_bind].
    destruct (IH mem1 next1 (reslice0 next1)) as (mem' & cur' & next' & E' & He' & Hc' & Hl');
      [done| |done|done|].
    { rewrite He1. by apply step_list_nonsplit. }
    exists mem', cur', next'. split; [done|]. split; [|done].
    rewrite He', He1. done.
Qed.

Lemma match_found_spec mem cur : forall n j,
  (forall k, j <= k < j + n ->
     exists p, backing mem cur !! k = Some p /\ nonsplit h p) ->
  exists b, match_found h mem cur j n = Ok b /\
    (b = true <-> exists k a st, j <= k < j + n /\
        backing mem cur !! k = Some (Some a) /\ h !! a = Some st /\
        kind st = nfaStateKindMatch).
Proof.
  induction n as [|n IH]; intros j Hel.
  - exists false. split; [done|]. split; [done|]. intros (k & _ & _ & ? & _). lia.
  - destruct (Hel j ltac:(lia)) as (p & Hp & a & st & -> & Ha & Hk).
    cbn [match_found]. unfold index. rewrite Hp.
    change (default None (Some (Some a))) with (Some a). cbn [deref]. rewrite Ha.
    cbn [mbind outcome_bind].
    destruct (decide (kind st = nfaStateKindMatch)) as [Hm|Hm].
    + exists true. split; [done|]. split; [|done]. intros _.
      exists j, a, st. split; [lia|done].
    + destruct (IH (S j)) as (b & E & Hb); [intros k Hk'; apply Hel; lia|].
      exists b. split; [done|]. rewrite Hb. split.
      * intros (k & a' & st' & Hk' & R). exists k, a', st'. split; [lia|done].
      * intros (k & a' & st' & Hk' & Hb' & Ha' & Hm').
        exists k, a', st'. split; [|done].
        destruct (decide (k = j)) as [->|]; [|lia].
        rewrite Hp in Hb'. injection Hb' as <-. rewrite Ha in Ha'. injection Ha' as <-.
        done.
Qed.

Lemma match_steps fuel start l str :
  closure h start l -> length l <= S fuel -> 0%Z ∉ str ->
  exists b, match_ growslice (S fuel) (h, start) str = Ok b /\
    (b = true <-> exists a st, Some a ∈ run_list h str l /\ h !! a = Some st /\
                               kind st = nfaStateKindMatch).
Proof.
  intros Hcl Hlen Hz. unfold match_, match_states. cbv beta iota delta [make].
  match goal with
  | |- context [appendState _ _ _ ?m ?s start] =>
      destruct (appendState_enough growslice h _ l Hcl (S fuel) m s Hlen)
        as (mem0 & cur0 & E0);
      destruct (appendState_elements _ _ _ _ _ _ _ _ E0) as (l' & Hcl' & He0 & Hc0);
        [simpl; lia|]
  end.
  rewrite (closure_det _ _ _ Hcl' _ Hcl) in He0. clear l' Hcl'.
  change (elements _ {| arr := 0; len := 0 |}) with (@nil ptr) in He0. simpl in He0.
  rewrite E0. cbn [mbind outcome_bind].
  match goal with
  | |- context [match_loop _ _ _ _ mem0 cur0 ?n] =>
      destruct (match_loop_steps fuel str mem0 cur0 n Hz)
        as (mem' & cur' & next' & E' & He' & Hc' & Hl'); [| |done|]
  end.
  { rewrite He0. by apply closure_leaves in Hcl. }
  { done. }
  rewrite E'. cbn [mbind outcome_bind fst].
  destruct (match_found_spec mem' cur' (len cur') 0) as (b & Eb & Hb).
  { intros k Hk. destruct (lookup_lt_is_Some_2 (backing mem' cur') k) as [p Hp]; [lia|].
    exists p. split; [done|].
    apply (proj1 (Forall_lookup _ _) Hl' k). unfold elements.
    rewrite lookup_take_lt by lia. done. }
  exists b. split; [done|]. rewrite Hb, <- He0, <- He'. split.
  - intros (k & a & st & Hk & Hbk & R). exists a, st. split; [|done].
    apply (list_elem_of_lookup_2 _ k). unfold elements. rewrite lookup_take_lt by lia. done.
  - intros (a & st & Hin & R). apply list_elem_of_lookup in Hin as [k Hk].
    unfold elements in Hk. apply lookup_take_Some in Hk as [Hk Hlt].
    exists k, a, st. split; [lia|done].
Qed.

(* The list of states after a rune: the states that the rune leads to. *)
Lemma step_reached start s0 c l :
  c <> 0%Z ->
  (forall q, q ∈ l <-> path h start s0 q /\ nonsplit h q) ->
  forall q, q ∈ step_list h c l <-> path h start (s0 ++ [c]) q /\ nonsplit h q.
Proof.
  intros Hc HL q. rewrite elem_of_step_list. split.
  - intros (p & Hp & Hq).
    apply HL in Hp as [Hpath (a & st & -> & Ha & Hk)].
    unfold fires in Hq. simpl in Hq. rewrite Ha in Hq.
    destruct (char st =? c)%Z eqn:E; [|by apply elem_of_nil in Hq].
    apply Z.eqb_eq in E. apply list_elem_of_singleton in Hq as ->.
    destruct (h_after a st Ha Hk ltac:(by rewrite E)) as [Hkc Hout].
    split; [|done]. apply (path_app _ _ _ _ Hpath). rewrite <- E.
    apply path_char; [done..|]. constructor.
  - intros [Hpath Hq].
    destruct (path_snoc_inv _ _ _ _ Hpath s0 c eq_refl) as (a & st & P & Ha & Hk & E & Pq).
    destruct (h_after a st Ha ltac:(by rewrite Hk) ltac:(by rewrite E)) as [_ Hout].
    apply path_nil_nonsplit in Pq as ->; [|done].
    exists (Some a). split.
    + apply HL. split; [done|]. exists a, st. by rewrite Hk.
    + unfold fires. simpl. rewrite Ha, E, Z.eqb_refl. apply list_elem_of_here.
Qed.

Lemma run_reached start str : forall s0 l,
  0%Z ∉ str ->
  (forall q, q ∈ l <-> path h start s0 q /\ nonsplit h q) ->
  forall q, q ∈ run_list h str l <-> path h start (s0 ++ str) q /\ nonsplit h q.
Proof.
  induction str as [|c str IH]; intros s0 l Hz HL q.
  - rewrite app_nil_r. apply HL.
  - apply not_elem_of_cons in Hz as [Hc Hz]. cbn [run_list fold_left].
    fold (run_list h str (step_list h c l)).
    rewrite (IH (s0 ++ [c]) (step_list h c l) Hz); [by rewrite <- app_assoc|].
    by apply step_reached.
Qed.

Lemma match_recognizes fuel start l str :
  closure h start l -> length l <= S fuel -> 0%Z ∉ str ->
  exists b, match_ growslice (S fuel) (h, start) str = Ok b /\
            (b = true <-> recognizes (h, start) str).
Proof.
  intros Hcl Hlen Hz.
  destruct (match_steps fuel start l str Hcl Hlen Hz) as (b & E & Hb).
  exists b. split; [done|]. rewrite Hb. unfold recognizes. simpl.
  pose proof (run_reached start str [] l Hz (closure_reached _ _ _ Hcl)) as HR.
  simpl in HR. split.
  - intros (a & st & Hin & Ha & Hk). apply HR in Hin as [P _]. by exists a, st.
  - intros (a & st & P & Ha & Hk). exists a, st. split; [|done].
    apply HR. split; [done|]. exists a, st. by rewrite Hk.
Qed.

End AfterRune.

Lemma Match_recognizes growslice pat r str :
  Compile pat = Ok r -> char_to_nonsplit r.1 -> 0%Z ∉ str ->
  exists b, Match growslice r str = Ok b /\ (b = true <-> recognizes r str).
Proof.
  destruct r as [h start]. intros HC Hcts Hz. simpl in Hcts.
  destruct (Compile_shape _ _ HC) as (_ & _ & Hs). simpl in Hs.
  destruct (Compile_wired _ _ _ HC) as ((l & Hl & Hlen) & _).
  unfold Match. simpl.
  apply (match_recognizes growslice h) with (l := l); [|done|lia|done].
  intros a st Ha Hk Hc. specialize (Hs _ _ Ha). unfold state_shape in Hs.
  destruct (kind st) eqn:Ek; [|done|by destruct Hs as [? _]].
  split; [done|]. destruct Hs as (_ & _ & t & Ht & _). rewrite Ht.
  by apply (Hcts a st t).
Qed.

(** ** Automata in which no split follows a rune *)

Lemma nonsplit_kept h h' p :
  (forall a st, h !! a = Some st -> exists st', h' !! a = Some st' /\ kind st' = kind st) ->
  nonsplit h p -> nonsplit h' p.
Proof.
  intros Hk (a & st & -> & Ha & Hn). destruct (Hk _ _ Ha) as (st' & Ha' & E).
  exists a, st'. by rewrite E.
Qed.

Lemma alloc_kept h x :
  forall a st, h !! a = Some st ->
    exists st', (h ++ [x]) !! a = Some st' /\ kind st' = kind st.
Proof. intros a st Ha. exists st. split; [|done]. by apply lookup_app_l_Some. Qed.

Lemma patched_kept h h' outs t :
  patched h h' outs t ->
  forall a st, h !! a = Some st -> exists st', h' !! a = Some st' /\ kind st' = kind st.
Proof.
  intros [_ Hp] a st Ha. rewrite (Hp _ _ Ha). eexists. split; [done|].
  by destruct (decide (a ∈ outs)).
Qed.

Lemma char_to_nonsplit_alloc h x :
  char_to_nonsplit h -> (kind x = nfaStateKindChar -> out1 x = None) ->
  char_to_nonsplit (h ++ [x]).
Proof.
  intros Hc Hx a st t Ha Hk Ht.
  apply lookup_app_Some in Ha as [Ha|[_ Ha]].
  - apply (nonsplit_kept h); [apply alloc_kept|]. by apply (Hc a st).
  - apply list_lookup_singleton_Some in Ha as [_ <-]. rewrite Hx in Ht; done.
Qed.

Lemma char_to_nonsplit_patched h h' outs t :
  patched h h' outs t -> char_to_nonsplit h -> nonsplit h t ->
  char_to_nonsplit h'.
Proof.
  intros Hp Hc Ht a st' b Ha Hk Hb. pose proof Hp as [Hlen Hpatch].
  destruct (lookup_lt_is_Some_2 h a) as [st Hst];
    [rewrite <- Hlen; by eapply lookup_lt_Some|].
  rewrite (Hpatch _ _ Hst) in Ha. injection Ha as <-.
  apply (nonsplit_kept h); [by eapply patched_kept|].
  destruct (decide (a ∈ outs)); simpl in *.
  - by rewrite <- Hb.
  - by apply (Hc a st).
Qed.

Lemma starts_ok_kept h h' stack es :
  (forall a st, h !! a = Some st -> exists st', h' !! a = Some st' /\ kind st' = kind st) ->
  Forall2 (starts_ok h) stack es -> Forall2 (starts_ok h') stack es.
Proof.
  intros Hk. induction 1 as [|f e stack es Hf _ IH]; constructor; [|done].
  intros He. by apply (nonsplit_kept h), Hf.
Qed.

Lemma rpn_step_alt_first es c es' :
  rpn_step es c = Some es' -> Forall alt_first es' -> Forall alt_first es.
Proof.
  unfold rpn_step. intros H F.
  destruct (c =? opAnd)%Z; [|destruct (c =? opOr)%Z].
  - destruct es as [|e2 [|e1 es]]; try done. injection H as <-.
    inversion_clear F as [|? ? HA F']. simpl in HA. destruct HA as (H1 & H2 & _).
    by repeat constructor.
  - destruct es as [|e2 [|e1 es]]; try done. injection H as <-.
    inversion_clear F as [|? ? HA F']. simpl in HA. destruct HA as (H1 & H2).
    by repeat constructor.
  - injection H as <-. by inversion_clear F.
Qed.

Lemma rpn_parse_alt_first post : forall es es',
  rpn_parse post es = Some es' -> Forall alt_first es' -> Forall alt_first es.
Proof.
  induction post as [|c post IH]; intros es es' H F; simpl in H.
  - by injection H as <-.
  - destruct (rpn_step es c) as [es1|] eqn:E; [|done].
    eapply rpn_step_alt_first; eauto.
Qed.

Lemma nfa_step_after h stack c h' stack' es es' :
  nfa_step (h, stack) c = Ok (h', stack') ->
  rpn_step es c = Some es' -> Forall alt_first es' ->
  char_to_nonsplit h -> Forall2 (starts_ok h) stack es ->
  char_to_nonsplit h' /\ Forall2 (starts_ok h') stack' es'.
Proof.
  unfold nfa_step, rpn_step, connectNfaFrag, alloc. intros H E F Hc Hs.
  destruct (c =? opAnd)%Z; [|destruct (c =? opOr)%Z].
  - bind_inv H. destruct x as [f2 st2]. apply Pop_Ok in Hm as ->.
    bind_inv H. destruct x as [f1 st1]. apply Pop_Ok in Hm as ->.
    bind_inv H. injection H as <- <-.
    inversion Hs as [|? e2 ? ? Hs2 Hs']; subst.
    inversion Hs' as [|? e1 ? es0 Hs1 Hs'']; subst.
    injection E as <-. inversion_clear F as [|? ? HA F'].
    simpl in HA. destruct HA as (A1 & A2 & S2).
    apply connect_loop_patched in Hm as Hp.
    pose proof (patched_kept _ _ _ _ Hp) as Hk.
    split; [by apply (char_to_nonsplit_patched h _ _ _ Hp); [|apply Hs2]|].
    constructor; [|by apply (starts_ok_kept h)].
    intros S1. simpl in *. by apply (nonsplit_kept h), Hs1.
  - bind_inv H. destruct x as [f2 st2]. apply Pop_Ok in Hm as ->.
    bind_inv H. destruct x as [f1 st1]. apply Pop_Ok in Hm as ->.
    injection H as <- <-.
    inversion Hs as [|? e2 ? ? Hs2 Hs']; subst.
    inversion Hs' as [|? e1 ? es0 Hs1 Hs'']; subst.
    injection E as <-.
    split; [by apply char_to_nonsplit_alloc|].
    constructor; [done|]. apply (starts_ok_kept h); [apply alloc_kept|done].
  - injection H as <- <-. injection E as <-.
    split; [by apply char_to_nonsplit_alloc|].
    constructor; [|apply (starts_ok_kept h); [apply alloc_kept|done]].
    intros _. eexists (length h), _. split; [done|].
    split; [by apply list_lookup_middle|done].
Qed.

Lemma nfa_loop_after post : forall h stack es h' stack' es',
  nfa_loop post (h, stack) = Ok (h', stack') ->
  rpn_parse post es = Some es' -> Forall alt_first es' ->
  char_to_nonsplit h -> Forall2 (starts_ok h) stack es ->
  char_to_nonsplit h' /\ Forall2 (starts_ok h') stack' es'.
Proof.
  induction post as [|c post IH]; intros h stack es h' stack' es' H E F Hc Hs;
    simpl in H, E.
  - injection H as <- <-. by injection E as <-.
  - bind_inv H. destruct x as [h1 stack1].
    destruct (rpn_step es c) as [es1|] eqn:E1; [|done].
    pose proof (rpn_parse_alt_first _ _ _ E F) as F1.
    destruct (nfa_step_after h stack c h1 stack1 es es1 Hm E1 F1 Hc Hs) as [Hc1 Hs1].
    by apply (IH h1 stack1 es1).
Qed.

Lemma nfa_after post r es :
  nfa post = Ok r -> rpn_parse post [] = Some es -> Forall alt_first es ->
  char_to_nonsplit r.1.
Proof.
  unfold nfa, connectNfaFrag, alloc. intros H E F.
  bind_inv H. destruct x as [h stack].
  destruct (nfa_loop_after post [] [] [] h stack es Hm E F) as [Hc Hs];
    [by intros [|?] ? ? ?|constructor|].
  bind_inv H. destruct x as [f rest]. bind_inv H. injection H as <-. simpl.
  apply connect_loop_patched in Hm1 as Hp.
  apply (char_to_nonsplit_patched _ _ _ _ Hp); [by apply char_to_nonsplit_alloc|].
  eexists (length h), _. split; [done|]. split; [by apply list_lookup_middle|done].
Qed.

Lemma starts_char_strip e : starts_char (strip e) = starts_char e.
Proof. induction e; simpl; auto. Qed.

Lemma alt_first_strip e : alt_first (strip e) <-> alt_first e.
Proof.
  induction e as [c|e1 IH1 e2 IH2|e1 IH1 e2 IH2|e IH]; simpl; try done.
  - by rewrite IH1, IH2, starts_char_strip.
  - by rewrite IH1, IH2.
Qed.

Lemma starts_char_catl e1 e2 : starts_char (catl e1 e2) = starts_char e1.
Proof. induction e2; simpl; auto. Qed.

Lemma starts_char_altl e1 e2 : starts_char (altl e1 e2) = false.
Proof. by destruct e2. Qed.

Lemma alt_first_catl e1 e2 : alt_first (catl e1 e2) <-> alt_first (Cat e1 e2).
Proof.
  induction e2 as [c|a IHa b IHb|a IHa b IHb|e IH]; try done.
  cbn [catl alt_first starts_char] in *. rewrite IHa. tauto.
Qed.

Lemma alt_first_altl e1 e2 : alt_first (altl e1 e2) <-> alt_first (Alt e1 e2).
Proof.
  induction e2 as [c|a IHa b IHb|a IHa b IHb|e IH]; try done.
  cbn [altl alt_first] in *. rewrite IHa. tauto.
Qed.

Lemma starts_char_norm e : starts_char (norm e) = starts_char e.
Proof.
  induction e as [c|e1 IH1 e2 IH2|e1 IH1 e2 IH2|e IH]; simpl; try done.
  - by rewrite starts_char_catl.
  - by rewrite starts_char_altl.
Qed.

Lemma alt_first_norm e : alt_first (norm e) <-> alt_first e.
Proof.
  induction e as [c|e1 IH1 e2 IH2|e1 IH1 e2 IH2|e IH]; simpl; try done.
  - rewrite alt_first_catl. simpl. by rewrite IH1, IH2, starts_char_norm.
  - rewrite alt_first_altl. simpl. by rewrite IH1, IH2.
Qed.

Lemma Compile_after e r :
  literals_ok e -> alt_first e -> Compile (pattern_of e) = Ok r ->
  char_to_nonsplit r.1.
Proof.
  intros Hl Ha Hr.
  unfold Compile in Hr. rewrite (preprocess_pattern e Hl) in Hr. simpl in Hr.
  destruct (postfix_tokens e Hl) as [Ep Er]. rewrite Ep in Hr. simpl in Hr.
  apply (nfa_after _ _ _ Hr Er). apply Forall_singleton.
  by apply alt_first_strip, alt_first_norm.
Qed.

Lemma run_denotes growslice e str :
  literals_ok e -> alt_first e -> 0%Z ∉ str ->
  exists b, run growslice (pattern_of e) str = Ok b /\ (b = true <-> denotes e str).
Proof.
  intros Hl Ha Hz. destruct (Compile_language e Hl) as (r & Hr & HL).
  destruct (Match_recognizes growslice _ r str Hr) as (b & Hb & Hrec); [|done|].
  { by apply (Compile_after e). }
  exists b. unfold run. rewrite Hr. simpl. split; [done|]. by rewrite Hrec, HL.
Qed.

(** ** The stages and the language of the expression *)

(** X16: [postfix] puts the tokens of an expression into postfix form:
    operands first, then their operator, chains of concatenations and of
    alternations associated to the left, groups dropped.  Read back by
    [rpn_parse], the result is one expression, with the language of the
    expression that was written down. *)
Theorem X16_postfix_of_expression (e : regexp) :
  literals_ok e ->
  postfix (tokens_of e) = Ok (rpn (norm e)) /\
  rpn_parse (rpn (norm e)) [] = Some [strip (norm e)] /\
  forall s, denotes (strip (norm e)) s <-> denotes e s.
Proof.
  intros H. destruct (postfix_tokens e H) as [Ep Er].
  split; [done|]. split; [done|]. apply denotes_norm.
Qed.

Lemma X16_postfix_of_expression_witness :
  postfix (tokens_of test_pattern) = Ok (rpn (norm test_pattern)) /\
  rpn_parse (rpn (norm test_pattern)) [] = Some [strip (norm test_pattern)] /\
  forall s, denotes (strip (norm test_pattern)) s <-> denotes test_pattern s.
Proof. apply X16_postfix_of_expression. vm_compute. repeat split. Defined.

(** X17: the automaton that [nfa] builds from a postfix stream accepts, on
    the walks from its start state to its match state, exactly the strings
    of the expression that the stream stands for (the one on top of the
    stack when the stream has been read). *)
Theorem X17_nfa_accepts_postfix_language (post : list rune) (r : Regex) :
  nfa post = Ok r ->
  exists e es, rpn_parse post [] = Some (e :: es) /\
               forall s, recognizes r s <-> denotes e s.
Proof. apply nfa_language. Qed.

Lemma X17_nfa_accepts_postfix_language_witness :
  match nfa (runes "ab&c|") with
  | Ok r =>
      exists e es, rpn_parse (runes "ab&c|") [] = Some (e :: es) /\
                   forall s, recognizes r s <-> denotes e s
  | _ => False
  end.
Proof.
  destruct (nfa (runes "ab&c|")) as [r| |] eqn:E.
  - exact (X17_nfa_accepts_postfix_language _ _ E).
  - vm_compute in E. discriminate E.
  - vm_compute in E. discriminate E.
Defined.

(** X18: [Compile] is correct on the pattern of every expression whose
    literals are no operators: it returns an automaton, and the automaton
    accepts exactly the strings that the expression denotes. *)
Theorem X18_compile_accepts_language (e : regexp) :
  literals_ok e ->
  exists r, Compile (pattern_of e) = Ok r /\
            forall s, recognizes r s <-> denotes e s.
Proof. apply Compile_language. Qed.

Lemma X18_compile_accepts_language_witness :
  exists r, Compile (pattern_of test_pattern) = Ok r /\
            forall s, recognizes r s <-> denotes test_pattern s.
Proof. apply X18_compile_accepts_language. vm_compute. repeat split. Defined.

(** X19: on a compiled automaton in which no char-consuming state leads to
    a split state, and an input without U+0000, [Match] returns true exactly
    when the automaton accepts the input.  In such an automaton every rune
    adds at most one state per state read, so [nextStates] never overtakes
    the pass over [currentStates] in the array that they share. *)
Theorem X19_match_decides_automaton (growslice : nat -> nat -> nat)
    (pat : list rune) (r : Regex) (str : list rune) :
  Compile pat = Ok r -> char_to_nonsplit r.1 -> 0%Z ∉ str ->
  exists b, Match growslice r str = Ok b /\ (b = true <-> recognizes r str).
Proof. apply Match_recognizes. Qed.

Lemma X19_match_decides_automaton_witness :
  match Compile (runes "(a|b)c") with
  | Ok r =>
      exists b, Match (fun _ n => n) r (runes "bc") = Ok b /\
                (b = true <-> recognizes r (runes "bc"))
  | _ => False
  end.
Proof.
  destruct (Compile (runes "(a|b)c")) as [r| |] eqn:E.
  - apply (X19_match_decides_automaton _ (runes "(a|b)c")); [exact E| |].
    + apply (Compile_after alternation_first); [vm_compute; repeat split..|exact E].
    + vm_compute. intros Hin.
      repeat (apply elem_of_cons in Hin as [Hin|Hin]; [discriminate|]).
      by apply elem_of_nil in Hin.
  - vm_compute in E. discriminate E.
  - vm_compute in E. discriminate E.
Defined.

(** X20: [Compile] and [Match] together decide the language of an
    expression in which no alternation is the right operand of a
    concatenation or begins it (as in [(a|b)c] and [ab|cd], not in
    [a(b|c)]): on an input without U+0000 the answer is true exactly when
    the expression denotes the input. *)
Theorem X20_run_decides_language (growslice : nat -> nat -> nat)
    (e : regexp) (str : list rune) :
  literals_ok e -> alt_first e -> 0%Z ∉ str ->
  exists b, run growslice (pattern_of e) str = Ok b /\ (b = true <-> denotes e str).
Proof. apply run_denotes. Qed.

Lemma X20_run_decides_language_witness :
  exists b, run (fun _ n => n) (pattern_of alternation_first) (runes "bc") = Ok b /\
            (b = true <-> denotes alternation_first (runes "bc")).
Proof.
  apply X20_run_decides_language; [vm_compute; repeat split..|].
  vm_compute. intros Hin.
  repeat (apply elem_of_cons in Hin as [Hin|Hin]; [discriminate|]).
  by apply elem_of_nil in Hin.
Defined.

(** X21: outside that class [Match] also accepts strings that the
    expression does not denote.  For [x(a(b|a)c|ad)] and the input [xac]:
    the rune [a] puts the two states after the first [a] into [nextStates],
    over the second element of [currentStates], which the pass has not read
    yet; the pass then reads the state of the inner [a] in its place, and
    one rune has taken the matcher two states ahead. *)
Theorem X21_match_accepts_outside_language (growslice : nat -> nat -> nat) :
  literals_ok overwritten_state /\
  ~ denotes overwritten_state (runes "xac") /\
  run growslice (pattern_of overwritten_state) (runes "xac") = Ok true.
Proof.
  split; [vm_compute; repeat split|]. split; [|vm_compute; reflexivity].
  intros H. apply denotes_accepts in H. vm_compute in H. discriminate.
Qed.

(** ** Precedence in compiled patterns *)

(** C7: concatenation binds tighter than alternation in compiled patterns.
    For all expressions x, y and z over literals that are no operators, the
    text [xy|z], with no group in it around [xy], is compiled to an automaton
    that accepts the strings of x followed by a string of y, and the strings
    of z; the text [x|yz] to one that accepts the strings of x, and the
    strings of y followed by a string of z.  For all literals a, b and c the
    postfix form of [ab|c] is that of (a.b)|c and the postfix form of [a|bc]
    is that of a|(b.c), and on an input without U+0000 [Match] answers true
    on the first pattern for [ab] and [c] only, on the second for [a] and
    [bc] only.  In particular [ab|c] matches [ab] and [c] and rejects [a],
    [b] and [bc]. *)
Theorem C7_concatenation_binds_tighter (growslice : nat -> nat -> nat)
    (x y z : regexp) (a b c : rune) (str : list rune) :
  literals_ok x -> literals_ok y -> literals_ok z ->
  isOperator a = false -> isOperator b = false -> isOperator c = false ->
  0%Z ∉ str ->
  (precedence opOr < precedence opAnd)%Z /\
  (exists r, Compile (pattern_of (Cat x y) ++ [opOr] ++ pattern_of z) = Ok r /\
     forall s, recognizes r s <->
       (exists s1 s2, s = s1 ++ s2 /\ denotes x s1 /\ denotes y s2) \/ denotes z s) /\
  (exists r, Compile (pattern_of x ++ [opOr] ++ pattern_of (Cat y z)) = Ok r /\
     forall s, recognizes r s <->
       denotes x s \/ (exists s1 s2, s = s1 ++ s2 /\ denotes y s1 /\ denotes z s2)) /\
  (pre ← preprocess [a; b; opOr; c]; postfix pre) = Ok [a; b; opAnd; c; opOr] /\
  (pre ← preprocess [a; opOr; b; c]; postfix pre) = Ok [a; b; c; opAnd; opOr] /\
  (exists v, run growslice [a; b; opOr; c] str = Ok v /\
             (v = true <-> str = [a; b] \/ str = [c])) /\
  (exists v, run growslice [a; opOr; b; c] str = Ok v /\
             (v = true <-> str = [a] \/ str = [b; c])) /\
  (run growslice (runes "ab|c") (runes "ab") = Ok true /\
   run growslice (runes "ab|c") (runes "c") = Ok true /\
   run growslice (runes "ab|c") (runes "a") = Ok false /\
   run growslice (runes "ab|c") (runes "b") = Ok false /\
   run growslice (runes "ab|c") (runes "bc") = Ok false).
Proof.
  intros Hx Hy Hz Ha Hb Hc Hnul.
  split; [done|]. split; [|split; [|split; [|split; [|split; [|split]]]]].
  - destruct (Compile_language (Alt (Cat x y) z)) as (r & Hr & HL); [done|].
    exists r. split; [exact Hr|]. intros s.
    by rewrite HL, denotes_alt_inv, denotes_cat_inv.
  - destruct (Compile_language (Alt x (Cat y z))) as (r & Hr & HL); [done|].
    exists r. split; [exact Hr|]. intros s.
    by rewrite HL, denotes_alt_inv, denotes_cat_inv.
  - by apply postfix_precedence.
  - by apply postfix_precedence.
  - destruct (run_denotes growslice (Alt (Cat (Lit a) (Lit b)) (Lit c)) str)
      as (v & Hv & Hd); [done|done|done|].
    exists v. split; [exact Hv|].
    rewrite Hd, denotes_alt_inv, denotes_cat_inv, denotes_lit_inv. split.
    + intros [(s1 & s2 & -> & H1 & H2)|H]; [left|by right].
      apply denotes_lit_inv in H1 as ->. by apply denotes_lit_inv in H2 as ->.
    + intros [->|H]; [left|by right].
      exists [a], [b]. split; [done|]. split; constructor.
  - destruct (run_denotes growslice (Alt (Lit a) (Cat (Lit b) (Lit c))) str)
      as (v & Hv & Hd); [done|done|done|].
    exists v. split; [exact Hv|].
    rewrite Hd, denotes_alt_inv, denotes_cat_inv, denotes_lit_inv. split.
    + intros [H|(s1 & s2 & -> & H1 & H2)]; [by left|right].
      apply denotes_lit_inv in H1 as ->. by apply denotes_lit_inv in H2 as ->.
    + intros [H| ->]; [by left|right].
      exists [b], [c]. split; [done|]. split; constructor.
  - repeat split; vm_compute; reflexivity.
Qed.

Lemma C7_concatenation_binds_tighter_witness :
  (literals_ok (Lit 120) /\ isOperator 97 = false /\ 0%Z ∉ runes "ab") /\
  (exists v, run (fun _ n => n) [97; 98; opOr; 99]%Z (runes "ab") = Ok v /\
             (v = true <-> runes "ab" = [97; 98]%Z \/ runes "ab" = [99]%Z)) /\
  (exists v, run (fun _ n => n) [97; opOr; 98; 99]%Z (runes "ab") = Ok v /\
             (v = true <-> runes "ab" = [97]%Z \/ runes "ab" = [98; 99]%Z)).
Proof.
  assert (Hnul : 0%Z ∉ runes "ab").
  { vm_compute. intros Hin.
    repeat (apply elem_of_cons in Hin as [Hin|Hin]; [discriminate|]).
    by apply elem_of_nil in Hin. }
  split; [split; [reflexivity|split; [reflexivity|exact Hnul]]|].
  destruct (C7_concatenation_binds_tighter (fun _ n => n)
              (Lit 120) (Lit 121) (Lit 122) 97 98 99 (runes "ab")
              eq_refl eq_refl eq_refl eq_refl eq_refl eq_refl Hnul)
    as (_ & _ & _ & _ & _ & H1 & H2 & _).
  split; [exact H1|exact H2].
Defined.
